(** * roshi/farm: a shallow embedding of farm.go

    The farm composes N independent clusters into one CRDT store.  This
    development embeds the tuple algebra ([unionDifference]), the
    scatter/gather write path ([write], [Insert], [Delete]), the read
    entry point ([Select]), construction ([New]) and the anti-entropy
    walker ([startWalker]), and states the properties of the written
    specification against them.

    Conventions.
    - Go's [int] is a 64-bit two's complement integer, modelled as [Z]
      with the wrap-around of every arithmetic operation written out.
    - Go's [float64] is modelled by [spec_float]; [==] is [SFeqb] and [<]
      is [SFltb], so NaN is unordered and unequal to itself and the two
      zeros are equal.
    - A Go map whose key type contains a [float64] is an association list
      looked up with Go's key equality; maps keyed by strings alone are
      stdpp [gmap]s and [gset]s.
    - Calls on the collaborators of the farm (clusters, rate police, read
      strategy, instrumentation, the clock) are recorded as a trace of
      [event]s. *)

From Stdlib Require Import ZArith List String Lia Bool Permutation.
From Stdlib Require Import Floats.SpecFloat.
From stdpp Require Import base gmap strings sets.

Local Open Scope string_scope.
Local Open Scope list_scope.
Local Open Scope Z_scope.

(** ** Go integers *)

Module GoInt.

(** [MaxInt = int(^uint(0) >> 1)]: all 64 bits set, shifted right once. *)
Definition MaxInt : Z := Z.shiftr (Z.lnot 0 mod 2 ^ 64) 1.
Definition MinInt : Z := - MaxInt - 1.

(** Reduction of a mathematical integer to the [int] it is stored as. *)
Definition wrap (z : Z) : Z := (z + 2 ^ 63) mod 2 ^ 64 - 2 ^ 63.

Definition add (a b : Z) : Z := wrap (a + b).
Definition sub (a b : Z) : Z := wrap (a - b).
Definition mul (a b : Z) : Z := wrap (a * b).

Definition is_int (z : Z) : Prop := MinInt <= z <= MaxInt.

(** [len] of a slice, map or string.  A Go object never holds more than
    [MaxInt] elements; theorems that depend on this say so. *)
Definition len {A} (l : list A) : Z := Z.of_nat (length l).

End GoInt.

Import GoInt.

(** ** Go float64 comparisons *)

Definition float64 : Type := spec_float.

(** [a == b] *)
Definition feq (a b : float64) : bool := SFeqb a b.
(** [a > b] *)
Definition fgt (a b : float64) : bool := SFltb b a.
(** [a <= b] *)
Definition fle (a b : float64) : bool := SFleb a b.

Definition is_nan (a : float64) : bool :=
  match a with S754_nan => true | _ => false end.

(** Comparison of two finite numbers of the same sign: by exponent, then
    by mantissa. *)
Definition lex (e1 : Z) (m1 : positive) (e2 : Z) (m2 : positive) : comparison :=
  match (e1 ?= e2)%Z with
  | Lt => Lt | Gt => Gt | Eq => Pos.compare_cont Eq m1 m2
  end.

Arguments lex : simpl never.

(** ** Tuples *)

Module common.

(** Modelled from the spec: the declaration of [common.KeyScoreMember]
    (package common is not part of the farm source).  A tuple is a key,
    a 64-bit float score and a member; the farm uses it as a map key, so
    key and member are strings. *)
Record KeyScoreMember : Type :=
  { Key : string; Score : float64; Member : string }.

End common.

Abbreviation KeyScoreMember := common.KeyScoreMember.

(** Modelled from the spec: the declaration of [keyMember], the
    (key, member) projection of a tuple; the farm builds it as
    [keyMember{Key: tuple.Key, Member: tuple.Member}]. *)
Record keyMember : Type := { Key : string; Member : string }.

#[global] Instance keyMember_eq_dec : EqDecision keyMember.
Proof. solve_decision. Defined.

#[global] Instance keyMember_countable : Countable keyMember.
Proof.
  refine (inj_countable' (fun km => (Key km, Member km))
            (fun p => {| Key := p.1; Member := p.2 |}) _).
  intros []; reflexivity.
Defined.

(** Go's [==] on [common.KeyScoreMember]: field by field. *)
Definition ksm_eqb (a b : KeyScoreMember) : bool :=
  String.eqb (common.Key a) (common.Key b)
  && feq (common.Score a) (common.Score b)
  && String.eqb (common.Member a) (common.Member b).

(** ** Go maps with arbitrary key equality *)

Section GoMap.
Context {K V : Type} (keq : K -> K -> bool).

(** The entries of the map in the order [range] happens to visit them. *)
Definition gomap : Type := list (K * V).

(** [v, ok := m[k]] *)
Fixpoint index (m : gomap) (k : K) : option V :=
  match m with
  | [] => None
  | (k', v) :: m' => if keq k k' then Some v else index m' k
  end.

(** [m[k] = v].  An entry with an equal key is overwritten in place
    (the runtime also stores the new key when the key type has floats);
    otherwise a new entry is made. *)
Fixpoint assign (m : gomap) (k : K) (v : V) : gomap :=
  match m with
  | [] => [(k, v)]
  | (k', v') :: m' =>
      if keq k k' then (k, v) :: m' else (k', v') :: assign m' k v
  end.

(** [for k := range m] *)
Definition range (m : gomap) : list K := map fst m.

(** No two entries of a map have equal keys. *)
Inductive distinct : gomap -> Prop :=
| distinct_nil : distinct []
| distinct_cons (k : K) (v : V) (m : gomap) :
    (forall k', In k' (range m) -> keq k k' = false) ->
    distinct m -> distinct ((k, v) :: m).

End GoMap.

(** ** Tuple sets and key-member sets *)

(** [type tupleSet map[common.KeyScoreMember]struct{}] *)
Definition tupleSet : Type := @gomap KeyScoreMember unit.

(** [type keyMemberSet map[keyMember]struct{}] *)
Abbreviation keyMemberSet := (gset keyMember).

Module TupleSet.

Definition add (s : tupleSet) (tuple : KeyScoreMember) : tupleSet :=
  assign ksm_eqb s tuple tt.

Definition has (s : tupleSet) (tuple : KeyScoreMember) : bool :=
  match index ksm_eqb s tuple with Some _ => true | None => false end.

Definition makeSet (a : list KeyScoreMember) : tupleSet :=
  fold_left add a [].

Definition addMany (s other : tupleSet) : tupleSet :=
  fold_left add (range other) s.

Definition slice (s : tupleSet) : list KeyScoreMember := range s.

End TupleSet.

Module KeyMemberSet.

Definition add (s : keyMemberSet) (km : keyMember) : keyMemberSet :=
  {[ km ]} ∪ s.

Definition addMany (s other : keyMemberSet) : keyMemberSet :=
  foldl add s (elements other).

End KeyMemberSet.

(** ** unionDifference *)

Definition km_of (tuple : KeyScoreMember) : keyMember :=
  {| Key := common.Key tuple; Member := common.Member tuple |}.

(** The two accumulators of the first loop: [counts] and [scores]. *)
Definition tally : Type :=
  (@gomap KeyScoreMember Z * gmap keyMember float64)%type.

(** The body of the inner loop, for one [tuple]: the part "For union"... *)
Definition recordScore (scores : gmap keyMember float64)
    (tuple : KeyScoreMember) : gmap keyMember float64 :=
  let km := km_of tuple in
  match scores !! km with
  | Some score =>
      if fgt (common.Score tuple) score
      then <[ km := common.Score tuple ]> scores
      else scores
  | None => <[ km := common.Score tuple ]> scores
  end.

(** ... and the part "For difference": [counts[tuple]++]. *)
Definition countTuple (counts : @gomap KeyScoreMember Z)
    (tuple : KeyScoreMember) : @gomap KeyScoreMember Z :=
  let old := match index ksm_eqb counts tuple with
             | Some c => c
             | None => 0
             end in
  assign ksm_eqb counts tuple (GoInt.add old 1).

Definition visit (acc : tally) (tuple : KeyScoreMember) : tally :=
  (countTuple acc.1 tuple, recordScore acc.2 tuple).

Definition visitSet (acc : tally) (tupleSet : tupleSet) : tally :=
  fold_left visit (range tupleSet) acc.

Definition tallyAll (tupleSets : list tupleSet) : tally :=
  fold_left visitSet tupleSets ([], ∅).

Definition unionDifference (tupleSets : list tupleSet)
  : tupleSet * keyMemberSet :=
  let expectedCount := len tupleSets in
  let '(counts, scores) := tallyAll tupleSets in
  let union :=
    fold_left
      (fun union '(km, bestScore) =>
         TupleSet.add union
           {| common.Key := Key km;
              common.Score := bestScore;
              common.Member := Member km |})
      (map_to_list scores) [] in
  let difference :=
    fold_left
      (fun difference '(ksm, count) =>
         if count <? expectedCount
         then KeyMemberSet.add difference (km_of ksm)
         else difference)
      counts ∅ in
  (union, difference).

(** ** Collaborators of the farm *)

(** A Go [error]: [nil], or a value with an [Error()] text. *)
Definition error : Type := option string.

(** How a call ends: it returns, it panics, or it blocks for ever. *)
Inductive outcome (A : Type) : Type :=
| Returns (a : A)
| Panics (msg : string)
| Blocks.

Arguments Returns {A} a.
Arguments Panics {A} msg.
Arguments Blocks {A}.

(** The calls on [instrumentation.Instrumentation] that the farm makes.
    Durations are clock readings and are not recorded. *)
Variant instrCall : Type :=
| InsertCall | InsertRecordCount (n : Z) | InsertCallDuration
| InsertRecordDuration | InsertQuorumFailure
| DeleteCall | DeleteRecordCount (n : Z) | DeleteCallDuration
| DeleteRecordDuration | DeleteQuorumFailure
| KeysFarmCompleted | KeysThrottled.

(** One entry of the trace: a call that leaves the farm. *)
Inductive event : Type :=
| Instr (c : instrCall)                       (* f.instrumentation.X() *)
| ClusterInsert (name : string) (tuples : list KeyScoreMember)
| ClusterDelete (name : string) (tuples : list KeyScoreMember)
| ClusterKeys (name : string)                 (* c.Keys() *)
| Report (n : Z)                              (* f.ratePolice.Report(n) *)
| Request (rate granted : Z)                  (* f.ratePolice.Request(rate) *)
| Read (keys : list string) (offset limit : Z)   (* f.readStrategy(...) *)
| Sleep                                       (* time.Sleep(time.Second) *)
| WalkCompleted.                              (* f.walkCompleted <- true *)

Module cluster.

(** Modelled from the spec: the [cluster.Cluster] interface (package
    cluster is not part of the farm source), as far as the farm calls
    it: bulk [Insert] and [Delete] answering with an error, and [Keys],
    the sequence of keys one enumeration yields.  [name] tells the
    clusters apart in the trace. *)
Record Cluster : Type :=
  { name : string;
    insertReply : list KeyScoreMember -> error;
    deleteReply : list KeyScoreMember -> error;
    keys : list string }.

End cluster.

Abbreviation Cluster := cluster.Cluster.

(** Modelled from the spec: the [RatePolice] interface.  [Report] returns
    nothing; what [Request] grants may depend on every call made before,
    so it is a function of the trace so far. *)
Record RatePolice : Type :=
  { grant : list event -> Z -> Z }.

(** Modelled from the spec: the no-op police, whose [Report] is a sink and
    whose [Request] returns its argument. *)
Definition NewNoPolice : RatePolice := {| grant := fun _ rate => rate |}.

(** Modelled from the spec: the instrumentation sink; [nil] is replaced by
    the sink that discards everything. *)
Variant Instrumentation : Type := NopInstrumentation | Sink (label : string).

(** The result of a Select: the map (possibly [nil]) and the error. *)
Definition selected : Type :=
  (option (gmap string (list KeyScoreMember)) * error)%type.

(** Modelled from the spec: a bound read strategy, a function
    [(keys, offset, limit) -> (map, error)]; a bound repairer, which takes
    the suspect pairs and returns nothing. *)
Definition coreReadStrategy : Type := list string -> Z -> Z -> selected.
Definition coreRepairer : Type := keyMemberSet -> unit.

(** A channel the farm only sends to without blocking is known by whether
    a receiver is ready, given what has happened so far. *)
Record chan : Type := { ready : list event -> bool }.

(** [type Farm struct].  Function fields may be [nil]. *)
Record Farm : Type :=
  { clusters : list Cluster;
    writeQuorum : Z;
    readStrategy : option coreReadStrategy;
    repairer : option coreRepairer;
    walkCompleted : option chan;
    ratePolice : RatePolice;
    instrumentation : Instrumentation }.

Definition ReadStrategy : Type := Farm -> coreReadStrategy.
Definition Repairer : Type := Farm -> coreRepairer.

(** Modelled from the spec: the no-op repairer. *)
Definition NopRepairer : Repairer := fun _ _ => tt.

(** ** State and trace *)

(** The key producer goroutine of the walker, between two steps. *)
Record Producer : Type :=
  { sweeps : nat;              (* permutations drawn so far *)
    todo : list nat;           (* clusters of this sweep not yet visited *)
    stream : list string;      (* rest of the Keys() being drained *)
    anythingSent : bool }.

Record World : Type :=
  { history : list event;      (* calls made so far, oldest first *)
    producer : Producer;
    signal : bool }.           (* the walker's own walkCompleted, cap 1 *)

Definition M (A : Type) : Type := World -> A * World.

Definition ret {A} (a : A) : M A := fun w => (a, w).

Definition bind {A B} (m : M A) (k : A -> M B) : M B :=
  fun w => let '(a, w') := m w in k a w'.

Notation "x <- m ;; k" := (bind m (fun x => k))
  (at level 62, m at next level, right associativity).
Notation "m ;;; k" := (bind m (fun _ => k))
  (at level 62, right associativity).

Definition emit (e : event) : M unit :=
  fun w => (tt, {| history := history w ++ [e];
                   producer := producer w;
                   signal := signal w |}).

Definition getHistory : M (list event) := fun w => (history w, w).
Definition getProducer : M Producer := fun w => (producer w, w).
Definition getSignal : M bool := fun w => (signal w, w).

Definition setProducer (p : Producer) : M unit :=
  fun w => (tt, {| history := history w; producer := p; signal := signal w |}).

Definition setSignal (b : bool) : M unit :=
  fun w => (tt, {| history := history w; producer := producer w; signal := b |}).

(** The calls on the collaborators. *)
Definition clusterInsert (c : Cluster) (a : list KeyScoreMember) : M error :=
  emit (ClusterInsert (cluster.name c) a) ;;; ret (cluster.insertReply c a).

Definition clusterDelete (c : Cluster) (a : list KeyScoreMember) : M error :=
  emit (ClusterDelete (cluster.name c) a) ;;; ret (cluster.deleteReply c a).

Definition clusterKeys (c : Cluster) : M (list string) :=
  emit (ClusterKeys (cluster.name c)) ;;; ret (cluster.keys c).

Definition policeReport (rp : RatePolice) (n : Z) : M unit := emit (Report n).

Definition policeRequest (rp : RatePolice) (rate : Z) : M Z :=
  h <- getHistory ;;
  let granted := grant rp h rate in
  emit (Request rate granted) ;;; ret granted.

Definition instr (c : instrCall) : M unit := emit (Instr c).

Definition sleep : M unit := emit Sleep.

(** ** The write path *)

(** [type writeInstrumentation interface] *)
Record writeInstrumentation : Type :=
  { call : M unit;
    recordCount : Z -> M unit;
    callDuration : M unit;
    recordDuration : M unit;
    quorumFailure : M unit }.

Definition insertInstrumentation (i : Instrumentation) : writeInstrumentation :=
  {| call := instr InsertCall;
     recordCount := fun n => instr (InsertRecordCount n);
     callDuration := instr InsertCallDuration;
     recordDuration := instr InsertRecordDuration;
     quorumFailure := instr InsertQuorumFailure |}.

Definition deleteInstrumentation (i : Instrumentation) : writeInstrumentation :=
  {| call := instr DeleteCall;
     recordCount := fun n => instr (DeleteRecordCount n);
     callDuration := instr DeleteCallDuration;
     recordDuration := instr DeleteRecordDuration;
     quorumFailure := instr DeleteQuorumFailure |}.

(** Scatter: one goroutine per cluster runs [action(c, tuples)].  The
    calls are traced in the order the goroutines are started; the answers
    are returned by cluster position, and reach [errChan] in the order
    [arrival] gives (the positions of the clusters, as they answer). *)
Fixpoint scatter (cs : list Cluster)
    (action : Cluster -> list KeyScoreMember -> M error)
    (tuples : list KeyScoreMember) : M (list error) :=
  match cs with
  | [] => ret []
  | c :: cs' =>
      e <- action c tuples ;;
      es <- scatter cs' action tuples ;;
      ret (e :: es)
  end.

Definition deliver (answers : list error) (arrival : list nat) : list error :=
  omap (fun i => answers !! i) arrival.

(** [haveQuorum := func() bool { return got-len(errors) >= need }] *)
Definition haveQuorum (errors : list string) (got need : Z) : bool :=
  need <=? GoInt.sub got (len errors).

(** Gather: the loop [for i := 0; i < cap(errChan); i++], with [n]
    iterations left and [errChan] still to deliver.  A receive when
    nothing more will arrive blocks. *)
Fixpoint gather (n : nat) (errChan : list error)
    (errors : list string) (got need : Z) : outcome (list string * Z) :=
  match n with
  | O => Returns (errors, got)
  | S n' =>
      match errChan with
      | [] => Blocks
      | err :: rest =>
          let errors := match err with
                        | Some msg => errors ++ [msg]
                        | None => errors
                        end in
          let got := GoInt.add got 1 in
          if haveQuorum errors got need
          then Returns (errors, got)
          else gather n' rest errors got need
      end
  end.

(** [fmt.Errorf("no quorum (%s)", strings.Join(errors, "; "))] *)
Definition noQuorum (errors : list string) : string :=
  ("no quorum (" ++ String.concat "; " errors ++ ")")%string.

Definition write (f : Farm) (tuples : list KeyScoreMember)
    (action : Cluster -> list KeyScoreMember -> M error)
    (instr : writeInstrumentation) (arrival : list nat) : M (outcome error) :=
  (* High performance optimization. *)
  if len tuples <=? 0 then ret (Returns None)
  else
    call instr ;;;
    recordCount instr (len tuples) ;;;
    (* Scatter *)
    answers <- scatter (clusters f) action tuples ;;
    (* Gather *)
    match gather (length (clusters f)) (deliver answers arrival)
                 [] 0 (writeQuorum f) with
    | Returns (errors, got) =>
        (* Report *)
        if negb (haveQuorum errors got (writeQuorum f))
        then
          quorumFailure instr ;;;
          callDuration instr ;;; recordDuration instr ;;;   (* deferred *)
          ret (Returns (Some (noQuorum errors)))
        else
          callDuration instr ;;; recordDuration instr ;;;   (* deferred *)
          ret (Returns None)
    | Panics msg => ret (Panics msg)
    | Blocks => ret Blocks
    end.

Definition Insert (f : Farm) (tuples : list KeyScoreMember)
    (arrival : list nat) : M (outcome error) :=
  write f tuples (fun c a => clusterInsert c a)
    (insertInstrumentation (instrumentation f)) arrival.

Definition Delete (f : Farm) (tuples : list KeyScoreMember)
    (arrival : list nat) : M (outcome error) :=
  write f tuples (fun c a => clusterDelete c a)
    (deleteInstrumentation (instrumentation f)) arrival.

(** ** Select *)

Definition Select (f : Farm) (keys : list string) (offset limit : Z)
  : M (outcome selected) :=
  (* High performance optimization. *)
  if len keys <=? 0 then ret (Returns (Some ∅, None))
  else
    policeReport (ratePolice f) (len keys) ;;;
    match readStrategy f with
    | Some strategy =>
        emit (Read keys offset limit) ;;;
        ret (Returns (strategy keys offset limit))
    | None => ret (Panics "invalid memory address or nil pointer dereference")
    end.

(** ** The walker *)

(** The goroutines of the walker are run in turns.  The key producer runs
    until it waits at [keyChannel <- key] (it is given [patience] steps
    for that, since sweeps over empty clusters can go on for ever); the
    driver runs until it receives, and is then served the key the
    producer holds.  [perm n] is what [rand.Perm(len(f.clusters))] draws
    for sweep [n]. *)
Definition withStream (p : Producer) (rest : list nat) (ks : list string)
    (sent : bool) : Producer :=
  {| sweeps := sweeps p; todo := rest; stream := ks; anythingSent := sent |}.

Fixpoint runProducer (f : Farm) (perm : nat -> list nat) (patience : nat)
  : M unit :=
  match patience with
  | O => ret tt
  | S n =>
      p <- getProducer ;;
      match stream p with
      | _ :: _ => ret tt                     (* waits at keyChannel <- key *)
      | [] =>
          match todo p with
          | i :: rest =>                     (* next cluster of the sweep *)
              match clusters f !! i with
              | Some c =>
                  ks <- clusterKeys c ;;
                  setProducer (withStream p rest ks (anythingSent p))
              | None => setProducer (withStream p rest [] (anythingSent p))
              end ;;;
              runProducer f perm n
          | [] =>                            (* the sweep is over *)
              instr KeysFarmCompleted ;;;
              setSignal true ;;;             (* walkCompleted <- true, or drop *)
              (if anythingSent p then ret tt else sleep) ;;;
              setProducer {| sweeps := S (sweeps p);
                             todo := perm (sweeps p);
                             stream := [];
                             anythingSent := false |} ;;;
              runProducer f perm n
          end
      end
  end.

(** [<-keyChannel]: [None] when the producer offers no key. *)
Definition receiveKey (f : Farm) (perm : nat -> list nat) (patience : nat)
  : M (option string) :=
  p <- getProducer ;;
  match stream p with
  | key :: rest =>
      setProducer (withStream p (todo p) rest true) ;;;
      runProducer f perm patience ;;;
      ret (Some key)
  | [] => ret None
  end.

(** [for ; batchSize > 0; batchSize-- { keys = append(keys, <-keyChannel) }] *)
Fixpoint pull (f : Farm) (perm : nat -> list nat) (patience : nat)
    (batchSize : nat) (keys : list string) : M (option (list string)) :=
  match batchSize with
  | O => ret (Some keys)
  | S n =>
      r <- receiveKey f perm patience ;;
      match r with
      | Some key => pull f perm patience n (keys ++ [key])
      | None => ret None
      end
  end.

(** Report completion if asked to, if a walk was reported, and if the
    report channel is ready to receive. *)
Definition forwardCompletion (f : Farm) : M unit :=
  match walkCompleted f with
  | Some ch =>
      s <- getSignal ;;
      if s then
        setSignal false ;;;
        h <- getHistory ;;
        if ready ch h then emit WalkCompleted else ret tt
      else ret tt
  | None => ret tt
  end.

(** What one iteration of the driver loop came to. *)
Variant step : Type :=
| Throttled
| Selected (keys : list string)   (* it called f.Select(keys, 0, MaxInt) *)
| Starved                         (* it waits for a key that never comes *)
| Crashed (msg : string).

(** Safeguard against excessive batchSize. *)
Definition capBatch (walkerRate batchSize : Z) : Z :=
  if batchSize >? GoInt.mul 10 walkerRate
  then GoInt.mul 10 walkerRate
  else batchSize.

Definition driverStep (f : Farm) (perm : nat -> list nat) (patience : nat)
    (walkerRate : Z) : M step :=
  batchSize <- policeRequest (ratePolice f) walkerRate ;;
  if batchSize <=? 0 then
    (* Too much traffic. Wait for a sec and try again. *)
    instr KeysThrottled ;;; sleep ;;; ret Throttled
  else
    let batchSize := capBatch walkerRate batchSize in
    r <- pull f perm patience (Z.to_nat batchSize) [] ;;
    match r with
    | None => ret Starved
    | Some keys =>
        o <- Select f keys 0 MaxInt ;;
        match o with
        | Panics msg => ret (Crashed msg)
        | _ => forwardCompletion f ;;; ret (Selected keys)
        end
    end.

(** The driver loop [for { ... }], watched for [fuel] iterations. *)
Fixpoint drive (f : Farm) (perm : nat -> list nat) (patience : nat)
    (walkerRate : Z) (fuel : nat) : M (list step) :=
  match fuel with
  | O => ret []
  | S n =>
      s <- driverStep f perm patience walkerRate ;;
      match s with
      | Starved | Crashed _ => ret [s]
      | _ =>
          rest <- drive f perm patience walkerRate n ;;
          ret (s :: rest)
      end
  end.

Definition startWalker (f : Farm) (perm : nat -> list nat) (patience : nat)
    (walkerRate : Z) (fuel : nat) : M (list step) :=
  if walkerRate =? 0 then ret []
  else
    setSignal false ;;;
    (* go func() { for { ... } }() *)
    setProducer {| sweeps := 1; todo := perm O; stream := [];
                   anythingSent := false |} ;;;
    runProducer f perm patience ;;;
    drive f perm patience walkerRate fuel.

(** ** Construction *)

(** [New].  [go farm.startWalker(walkerRate)] is run for [fuel] iterations
    of the driver; what the walker does is in the trace. *)
Definition New (clusters : list Cluster) (writeQuorum : Z)
    (readStrategy : option ReadStrategy) (repairer : option Repairer)
    (walkerRate : Z) (walkCompleted : option chan)
    (rp : option RatePolice) (instr : option Instrumentation)
    (perm : nat -> list nat) (patience fuel : nat) : M (outcome Farm) :=
  let rp := match rp with None => NewNoPolice | Some rp => rp end in
  let instr := match instr with None => NopInstrumentation | Some i => i end in
  let repairer := match repairer with None => NopRepairer | Some r => r end in
  let farm := Build_Farm clusters writeQuorum None None walkCompleted rp instr in
  match readStrategy with
  | None => ret (Panics "invalid memory address or nil pointer dereference")
  | Some readStrategy =>
      (* farm.readStrategy = readStrategy(farm) *)
      let strategy := readStrategy farm in
      let farm := Build_Farm clusters writeQuorum (Some strategy) None
                    walkCompleted rp instr in
      (* farm.repairer = repairer(farm) *)
      let farm := Build_Farm clusters writeQuorum (Some strategy)
                    (Some (repairer farm)) walkCompleted rp instr in
      startWalker farm perm patience walkerRate fuel ;;;
      ret (Returns farm)
  end.

(** ** Vocabulary of the tuple algebra properties *)

(** All tuples of the inputs, in the order the first loop visits them. *)
Definition flatten (tupleSets : list tupleSet) : list KeyScoreMember :=
  concat (map (@range KeyScoreMember unit) tupleSets).

(** [tuple] is an entry of one of the inputs. *)
Definition recorded (tupleSets : list tupleSet) (tuple : KeyScoreMember) : Prop :=
  exists s, In s tupleSets /\ In tuple (range s).

(** The (key, member) pair occurs in [s], with whatever score. *)
Definition hasKM (s : tupleSet) (km : keyMember) : bool :=
  existsb (fun tuple => bool_decide (km_of tuple = km)) (range s).

(** Number of inputs in which the pair occurs. *)
Definition presentIn (tupleSets : list tupleSet) (km : keyMember) : Z :=
  len (List.filter (fun s => hasKM s km) tupleSets).

(** Number of inputs that hold the tuple, score included. *)
Definition holders (tupleSets : list tupleSet) (tuple : KeyScoreMember) : Z :=
  len (List.filter (fun s => TupleSet.has s tuple) tupleSets).

(** A list of entries that a Go map can have: keys pairwise different. *)
Definition wellFormed (s : tupleSet) : Prop := distinct ksm_eqb s.

Definition noNaN (s : tupleSet) : Prop :=
  forall tuple, In tuple (range s) -> is_nan (common.Score tuple) = false.

(** Occurrences of a Go-equal tuple in a list, and the count the first
    loop keeps for a tuple: a tuple with a NaN score equals no key, so
    each of its occurrences gets an entry of its own, with count 1. *)
Definition occ (tuple : KeyScoreMember) (l : list KeyScoreMember) : nat :=
  length (List.filter (ksm_eqb tuple) l).

Definition cnt (tuple : KeyScoreMember) (l : list KeyScoreMember) : Z :=
  if ksm_eqb tuple tuple then Z.of_nat (occ tuple l) else 1.

(** Two tuples that share an entry of [counts]. *)
Definition same (a b : KeyScoreMember) : Prop := a = b \/ ksm_eqb a b = true.

(** [s] is a best score of [km] in [l]: recorded, and no recorded score of
    [km] is greater. *)
Definition best (l : list KeyScoreMember) (km : keyMember) (s : float64) : Prop :=
  (exists t, In t l /\ km_of t = km /\ common.Score t = s)
  /\ forall t, In t l -> km_of t = km -> fgt (common.Score t) s = false.

(** What [counts] holds after the first loop has visited [l]. *)
Record counted (l : list KeyScoreMember) (counts : @gomap KeyScoreMember Z) : Prop :=
  { counted_distinct : distinct ksm_eqb counts;
    counted_sound : forall k c, In (k, c) counts -> In k l /\ c = cnt k l;
    counted_complete : forall t, In t l ->
      exists k c, In (k, c) counts /\ same t k }.

(** The tuple the second loop adds to the union for an entry of [scores]. *)
Definition bestTuple (entry : keyMember * float64) : KeyScoreMember :=
  {| common.Key := Key entry.1;
     common.Score := entry.2;
     common.Member := Member entry.1 |}.

(** ** Vocabulary of the write and read properties *)

(** The two write operations of the farm, and what a cluster answers. *)
Variant writeOp : Type := OpInsert | OpDelete.

Definition perform (op : writeOp)
  : Farm -> list KeyScoreMember -> list nat -> M (outcome error) :=
  match op with OpInsert => Insert | OpDelete => Delete end.

Definition reply (op : writeOp) (c : Cluster) (a : list KeyScoreMember) : error :=
  match op with
  | OpInsert => cluster.insertReply c a
  | OpDelete => cluster.deleteReply c a
  end.

(** The responses in the order they arrive. *)
Definition responses (op : writeOp) (f : Farm) (tuples : list KeyScoreMember)
    (arrival : list nat) : list error :=
  deliver (map (fun c => reply op c tuples) (clusters f)) arrival.

Definition isNil (e : error) : bool :=
  match e with None => true | Some _ => false end.

(** Number of successful responses, and the messages of the failed ones. *)
Definition successes (l : list error) : Z := len (List.filter isNil l).
Definition failures (l : list error) : list string := omap id l.


(** Every cluster answers, once: the arrival order is a permutation of
    the cluster positions. *)
Definition allAnswer (f : Farm) (arrival : list nat) : Prop :=
  Permutation arrival (seq 0 (length (clusters f))).

(** What [write] returns, from what [gather] returns. *)
Definition verdict (need : Z) (g : outcome (list string * Z)) : outcome error :=
  match g with
  | Returns (errors, got) =>
      Returns (if haveQuorum errors got need
               then None else Some (noQuorum errors))
  | Panics msg => Panics msg
  | Blocks => Blocks
  end.

(** What the trace has gained between two worlds. *)
Definition since (w w' : World) : list event :=
  drop (length (history w)) (history w').

(** [w'] is [w] after some more calls. *)
Definition extends (w w' : World) : Prop :=
  exists evs, history w' = history w ++ evs.

(** A trace without any cluster key enumeration and without any read. *)
Definition idle (h : list event) : Prop :=
  forall e, In e h ->
    match e with
    | ClusterKeys _ | Read _ _ _ | Report _ => False
    | _ => True
    end.

(** ** Sample data *)

Module Sample.

(** 1.0 and 2.0 as binary64 numbers. *)
Definition one : float64 := S754_finite false 4503599627370496 (-52).
Definition two : float64 := S754_finite false 4503599627370496 (-51).

Definition km : keyMember := {| Key := "k"; Member := "m" |}.
Definition low : KeyScoreMember :=
  {| common.Key := "k"; common.Score := one; common.Member := "m" |}.
Definition high : KeyScoreMember :=
  {| common.Key := "k"; common.Score := two; common.Member := "m" |}.
Definition other : KeyScoreMember :=
  {| common.Key := "k"; common.Score := one; common.Member := "n" |}.

(** Two replicas that both hold (k, m), at different scores. *)
Definition disagree : list tupleSet := [ [(low, tt)]; [(high, tt)] ].

(** The second replica misses (k, n). *)
Definition partial : list tupleSet :=
  [ [(low, tt); (other, tt)]; [(low, tt)] ].

(** A cluster that accepts every write, and one that refuses them. *)
Definition healthy (name : string) : Cluster :=
  {| cluster.name := name;
     cluster.insertReply := fun _ => None;
     cluster.deleteReply := fun _ => None;
     cluster.keys := ["k"] |}.

Definition broken (name : string) : Cluster :=
  {| cluster.name := name;
     cluster.insertReply := fun _ => Some ("down " ++ name)%string;
     cluster.deleteReply := fun _ => Some ("down " ++ name)%string;
     cluster.keys := [] |}.

(** A read strategy that finds nothing. *)
Definition strategy : ReadStrategy := fun _ _ _ _ => (Some ∅, None).

(** A police that grants 50 keys, whatever is asked. *)
Definition generous : RatePolice := {| grant := fun _ _ => 50 |}.

Definition world0 : World :=
  {| history := [];
     producer := {| sweeps := O; todo := []; stream := [];
                    anythingSent := false |};
     signal := false |}.

(** N = 3, writeQuorum = 2; two of the clusters are down. *)
Definition farm : Farm :=
  {| clusters := [healthy "a"; broken "b"; broken "c"];
     writeQuorum := 2;
     readStrategy := Some (strategy
       (Build_Farm [] 0 None None None NewNoPolice NopInstrumentation));
     repairer := None;
     walkCompleted := None;
     ratePolice := generous;
     instrumentation := NopInstrumentation |}.

(** The same with all three clusters up. *)
Definition farmUp : Farm :=
  {| clusters := [healthy "a"; healthy "b"; healthy "c"];
     writeQuorum := 2;
     readStrategy := readStrategy farm;
     repairer := None;
     walkCompleted := None;
     ratePolice := generous;
     instrumentation := NopInstrumentation |}.

Definition always0 : nat -> list nat := fun _ => [O].

End Sample.

(** ** Slices of the sets *)

(** [keyMemberSet.slice]: the pairs of the set, in the order [range]
    happens to visit them. *)
Definition keyMemberSlice (s : keyMemberSet) : list keyMember := elements s.

(** [tupleSet.orderedLimitedSlice].  [sort.Sort(common.KeyScoreMembers(a))]
    sorts [a] in place by the order of package common, which is not part
    of the farm source: the sort is the parameter [sortTuples].  The slice
    expression [a[:limit]] panics for a negative [limit]. *)
Definition orderedLimitedSlice (sortTuples : list KeyScoreMember -> list KeyScoreMember)
    (s : tupleSet) (limit : Z) : outcome (list KeyScoreMember) :=
  let a := sortTuples (TupleSet.slice s) in
  if len a >? limit then
    if limit <? 0 then Panics "slice bounds out of range"
    else Returns (firstn (Z.to_nat limit) a)
  else Returns a.

(** ** Vocabulary of the further properties *)

(** Some tuple of [a] is Go-equal to [tuple]. *)
Definition among (tuple : KeyScoreMember) (a : list KeyScoreMember) : bool :=
  existsb (ksm_eqb tuple) a.

(** The call a write operation makes on a cluster, and the calls on the
    instrumentation before the scatter and after the gather. *)
Definition clusterCall (op : writeOp) (tuples : list KeyScoreMember)
    (c : Cluster) : event :=
  match op with
  | OpInsert => ClusterInsert (cluster.name c) tuples
  | OpDelete => ClusterDelete (cluster.name c) tuples
  end.

Definition opening (op : writeOp) (n : Z) : list event :=
  match op with
  | OpInsert => [Instr InsertCall; Instr (InsertRecordCount n)]
  | OpDelete => [Instr DeleteCall; Instr (DeleteRecordCount n)]
  end.

Definition closing (op : writeOp) (o : outcome error) : list event :=
  match op, o with
  | OpInsert, Returns None =>
      [Instr InsertCallDuration; Instr InsertRecordDuration]
  | OpInsert, Returns (Some _) =>
      [Instr InsertQuorumFailure; Instr InsertCallDuration;
       Instr InsertRecordDuration]
  | OpDelete, Returns None =>
      [Instr DeleteCallDuration; Instr DeleteRecordDuration]
  | OpDelete, Returns (Some _) =>
      [Instr DeleteQuorumFailure; Instr DeleteCallDuration;
       Instr DeleteRecordDuration]
  | _, _ => []
  end.

(** [key] is one of the keys some cluster of the farm enumerates. *)
Definition farmKey (f : Farm) (key : string) : Prop :=
  exists c, In c (clusters f) /\ In key (cluster.keys c).

(** The keys that cluster number [i] enumerates; none when the farm has
    no such cluster. *)
Definition keysAt (f : Farm) (i : nat) : list string :=
  match clusters f !! i with
  | Some c => cluster.keys c
  | None => []
  end.

(** The keys of sweep number [n], in the order the producer sends them:
    cluster after cluster as [perm n] orders them. *)
Definition sweepKeys (f : Farm) (perm : nat -> list nat) (n : nat)
  : list string :=
  concat (map (keysAt f) (perm n)).

(** The keys the producer sends from its state [p] on, until [n] more
    sweeps are over. *)
Definition ahead (f : Farm) (perm : nat -> list nat) (p : Producer) (n : nat)
  : list string :=
  stream p ++ concat (map (keysAt f) (todo p))
    ++ concat (map (sweepKeys f perm) (seq (sweeps p) n)).

(** The keys the producer has still to send in the sweep it is in. *)
Definition remaining (f : Farm) (p : Producer) : list string :=
  stream p ++ concat (map (keysAt f) (todo p)).

(** The keys of the batches the driver has selected, in order. *)
Definition selectedKeys (steps : list step) : list string :=
  flat_map (fun s => match s with Selected keys => keys | _ => [] end) steps.

(** Counting calls in a trace. *)
Definition isWalkCompleted (e : event) : bool :=
  match e with WalkCompleted => true | _ => false end.

Definition isFarmCompleted (e : event) : bool :=
  match e with Instr KeysFarmCompleted => true | _ => false end.

Definition count (p : event -> bool) (h : list event) : Z :=
  len (List.filter p h).

Definition pending (w : World) : Z := if signal w then 1 else 0.

(** From [w] to [w'] the farm has forwarded no more completions than
    the producer has completed sweeps, a pending completion counted; and
    none at all if it was not asked to. *)
Definition accounted (f : Farm) (w w' : World) : Prop :=
  exists evs,
    history w' = history w ++ evs
    /\ count isWalkCompleted evs + pending w'
       <= count isFarmCompleted evs + pending w
    /\ (walkCompleted f = None -> count isWalkCompleted evs = 0).

(** From [w] to [w'] only calls that satisfy [ok] were made. *)
Definition adds (ok : event -> bool) (w w' : World) : Prop :=
  exists evs, history w' = history w ++ evs /\ forallb ok evs = true.

Definition notRead (e : event) : bool :=
  match e with
  | Read _ _ _ | Report _ => false
  | _ => true
  end.

(** A police that grants nothing at the moment. *)
Definition stingy (rp : RatePolice) : Prop :=
  forall h rate, grant rp h rate <= 0.

(** Insertion sort of tuples by descending score: a sort the ordered
    slice can be given. *)
Fixpoint insertByScore (t : KeyScoreMember) (l : list KeyScoreMember)
  : list KeyScoreMember :=
  match l with
  | [] => [t]
  | u :: l' =>
      if fgt (common.Score u) (common.Score t)
      then u :: insertByScore t l' else t :: l
  end.

Definition sortByScore (l : list KeyScoreMember) : list KeyScoreMember :=
  fold_right insertByScore [] l.

(** ** Vocabulary of the walker's budget *)


(** The calls on the police and on the read strategy: the ledger of a
    trace is what is left when all other calls are dropped. *)
Definition isLedger (e : event) : bool :=
  match e with
  | Request _ _ | Report _ | Read _ _ _ => true
  | _ => false
  end.

Definition ledger (h : list event) : list event := List.filter isLedger h.

Definition quiet (e : event) : bool := negb (isLedger e).

(** What one iteration of the driver enters in the ledger after its
    [Request], which granted [g]: for a batch that is not empty, the
    [Report] of its size and the call of the read strategy with it. *)
Definition booking (rate : Z) (s : step) (g : Z) (entries : list event)
  : Prop :=
  match s with
  | Throttled => g <= 0 /\ entries = []
  | Starved => 0 < g /\ entries = []
  | Selected keys =>
      0 < g /\ length keys = Z.to_nat (capBatch rate g) /\ len keys <= g
      /\ entries = match keys with
                   | [] => []
                   | _ :: _ => [Report (len keys); Read keys 0 MaxInt]
                   end
  | Crashed _ =>
      0 < g
      /\ exists keys : list string, keys <> []
           /\ length keys = Z.to_nat (capBatch rate g) /\ len keys <= g
           /\ entries = [Report (len keys)]
  end.

(** The ledger of a run of the driver: iteration by iteration, the
    [Request] and then the entries of that iteration. *)
Fixpoint booked (rate : Z) (steps : list step) (l : list event) : Prop :=
  match steps with
  | [] => l = []
  | s :: rest =>
      exists g entries l',
        l = Request rate g :: entries ++ l'
        /\ booking rate s g entries
        /\ booked rate rest l'
  end.

(** The arguments of the [Report] calls in a trace, and the batches of
    the driver that are not empty. *)
Definition reports (h : list event) : list Z :=
  omap (fun e => match e with Report n => Some n | _ => None end) h.

Definition batches (steps : list step) : list (list string) :=
  omap (fun s => match s with
                 | Selected (key :: keys) => Some (key :: keys)
                 | _ => None
                 end) steps.

(** The calls of a write on the instrumentation, and on the clusters. *)
Definition isInstr (e : event) : bool :=
  match e with Instr _ => true | _ => false end.

Definition isClusterCall (e : event) : bool :=
  match e with ClusterInsert _ _ | ClusterDelete _ _ => true | _ => false end.

(** The fields [New] sets from its arguments before it binds the read
    strategy and the repairer. *)
Definition builtFrom (cs : list Cluster) (quorum : Z) (wc : option chan)
    (police : RatePolice) (sink : Instrumentation) (g : Farm) : Prop :=
  clusters g = cs /\ writeQuorum g = quorum /\ walkCompleted g = wc
  /\ ratePolice g = police /\ instrumentation g = sink.

(** ** Inputs at the edge *)

Module Edge.

(** (k, NaN, m). *)
Definition unscored : KeyScoreMember :=
  {| common.Key := "k"; common.Score := S754_nan; common.Member := "m" |}.

(** Two replicas that both hold (k, m), one of them at a NaN score. *)
Definition nanFirst : list tupleSet := [ [(unscored, tt)]; [(Sample.high, tt)] ].
Definition nanLast : list tupleSet := [ [(Sample.high, tt)]; [(unscored, tt)] ].

(** A police that grants 5 keys, whatever is asked. *)
Definition five : RatePolice := {| grant := fun _ _ => 5 |}.

(** One healthy cluster, a bound read strategy, and that police. *)
Definition farm : Farm :=
  {| clusters := [Sample.healthy "a"];
     writeQuorum := 1;
     readStrategy := readStrategy Sample.farm;
     repairer := None;
     walkCompleted := None;
     ratePolice := five;
     instrumentation := NopInstrumentation |}.

End Edge.

(** * Properties *)

(** ** Go integers *)

Section GoIntFacts.

Lemma MaxInt_val : MaxInt = 2 ^ 63 - 1.
Proof. reflexivity. Qed.

Lemma MinInt_val : MinInt = - 2 ^ 63.
Proof. reflexivity. Qed.

Lemma wrap_small z : is_int z -> wrap z = z.
Proof.
  unfold is_int, wrap. rewrite MaxInt_val, MinInt_val. intros Hz.
  rewrite Z.mod_small; lia.
Qed.


Lemma len_nonneg {A} (l : list A) : 0 <= len l.
Proof. unfold len. lia. Qed.

End GoIntFacts.

(** ** float64 comparisons *)

Section Float64.

Lemma SFcompare_refl a : is_nan a = false -> SFcompare a a = Some Eq.
Proof.
  destruct a as [[]|[]| |[] m e]; simpl; try discriminate; intros _;
    try reflexivity;
    rewrite Z.compare_refl, Pos.compare_cont_refl; reflexivity.
Qed.

Lemma feq_refl a : is_nan a = false -> feq a a = true.
Proof. intros H. unfold feq, SFeqb. rewrite (SFcompare_refl a H). reflexivity. Qed.

Lemma feq_not_nan a b : feq a b = true -> is_nan a = false /\ is_nan b = false.
Proof. destruct a, b; simpl; auto; discriminate. Qed.

Lemma fgt_not_nan a b : fgt a b = true -> is_nan a = false /\ is_nan b = false.
Proof. destruct a, b; simpl; auto; discriminate. Qed.

(** On finite numbers of one sign the comparison is lexicographic on
    (exponent, mantissa); [key] makes that order explicit. *)
Lemma lex_compare_Eq e1 m1 e2 m2 :
  match (e1 ?= e2)%Z with
  | Lt => Lt | Gt => Gt | Eq => Pos.compare_cont Eq m1 m2
  end = Eq <-> e1 = e2 /\ m1 = m2.
Proof.
  destruct (Z.compare_spec e1 e2); fold (Pos.compare m1 m2);
    [rewrite Pos.compare_eq_iff | |]; intuition (try lia; try discriminate).
Qed.

Lemma lex_compare_Lt e1 m1 e2 m2 :
  match (e1 ?= e2)%Z with
  | Lt => Lt | Gt => Gt | Eq => Pos.compare_cont Eq m1 m2
  end = Lt <-> e1 < e2 \/ (e1 = e2 /\ (m1 < m2)%positive).
Proof.
  destruct (Z.compare_spec e1 e2); fold (Pos.compare m1 m2);
    [rewrite Pos.compare_lt_iff | |]; intuition (try lia; try discriminate).
Qed.

Lemma lex_compare_Gt e1 m1 e2 m2 :
  match (e1 ?= e2)%Z with
  | Lt => Lt | Gt => Gt | Eq => Pos.compare_cont Eq m1 m2
  end = Gt <-> e2 < e1 \/ (e1 = e2 /\ (m2 < m1)%positive).
Proof.
  destruct (Z.compare_spec e1 e2); fold (Pos.compare m1 m2);
    [rewrite Pos.compare_gt_iff | |]; intuition (try lia; try discriminate).
Qed.

Lemma SFcompare_finite s1 m1 e1 s2 m2 e2 :
  SFcompare (S754_finite s1 m1 e1) (S754_finite s2 m2 e2) =
  Some match s1, s2 with
       | true, false => Lt
       | false, true => Gt
       | false, false => lex e1 m1 e2 m2
       | true, true => CompOpp (lex e1 m1 e2 m2)
       end.
Proof.
  destruct s1, s2; simpl; unfold lex; destruct (e1 ?= e2)%Z; reflexivity.
Qed.

Lemma lex_cases e1 m1 e2 m2 :
  (lex e1 m1 e2 m2 = Eq /\ e1 = e2 /\ m1 = m2)
  \/ (lex e1 m1 e2 m2 = Lt /\ (e1 < e2 \/ (e1 = e2 /\ (m1 < m2)%positive)))
  \/ (lex e1 m1 e2 m2 = Gt /\ (e2 < e1 \/ (e1 = e2 /\ (m2 < m1)%positive))).
Proof.
  destruct (lex e1 m1 e2 m2) eqn:E; unfold lex in E.
  - left. split; [reflexivity | now apply lex_compare_Eq].
  - right; left. split; [reflexivity | now apply lex_compare_Lt].
  - right; right. split; [reflexivity | now apply lex_compare_Gt].
Qed.

Ltac float_cases :=
  repeat match goal with
    | a : float64 |- _ => destruct a as [[]|[]| |[] ? ?]
    | a : spec_float |- _ => destruct a as [[]|[]| |[] ? ?]
    end;
  unfold fgt, feq, fle, SFltb, SFeqb, SFleb;
  rewrite ?SFcompare_finite; simpl;
  try reflexivity; try discriminate; try (intros; discriminate).

Ltac lex_solve :=
  repeat match goal with
    | |- context [lex ?e1 ?m1 ?e2 ?m2] =>
        let H := fresh in
        destruct (lex_cases e1 m1 e2 m2) as [[H ?]|[[H ?]|[H ?]]];
        rewrite H; clear H; simpl
    end;
  intros; try reflexivity; try discriminate; try lia.

Lemma fgt_irrefl a : fgt a a = false.
Proof. float_cases; lex_solve. Qed.

Lemma fgt_trans a b c : fgt a b = true -> fgt b c = true -> fgt a c = true.
Proof. float_cases; lex_solve. Qed.

Lemma feq_sym a b : feq a b = feq b a.
Proof. float_cases; lex_solve. Qed.

Lemma feq_trans a b c : feq a b = true -> feq b c = true -> feq a c = true.
Proof. float_cases; lex_solve. Qed.

(** Without NaN the order is total: not greater means less or equal. *)
Lemma not_fgt_fle a b :
  is_nan a = false -> is_nan b = false -> fgt a b = false -> fle a b = true.
Proof. float_cases; lex_solve. Qed.

End Float64.

(** ** Go equality on tuples *)

Lemma ksm_eqb_sym a b : ksm_eqb a b = ksm_eqb b a.
Proof.
  unfold ksm_eqb. rewrite feq_sym.
  rewrite (String.eqb_sym (common.Key a)), (String.eqb_sym (common.Member a)).
  reflexivity.
Qed.

Lemma ksm_eqb_true a b :
  ksm_eqb a b = true <->
  common.Key a = common.Key b
  /\ feq (common.Score a) (common.Score b) = true
  /\ common.Member a = common.Member b.
Proof.
  unfold ksm_eqb. rewrite !andb_true_iff, !String.eqb_eq. tauto.
Qed.

Lemma ksm_eqb_trans a b c :
  ksm_eqb a b = true -> ksm_eqb b c = true -> ksm_eqb a c = true.
Proof.
  rewrite !ksm_eqb_true. intros (-> & Hab & ->) (-> & Hbc & ->).
  eauto using feq_trans.
Qed.

Lemma ksm_eqb_refl a : is_nan (common.Score a) = false -> ksm_eqb a a = true.
Proof. intros H. apply ksm_eqb_true. auto using feq_refl. Qed.

Lemma ksm_eqb_self a b : ksm_eqb a b = true -> ksm_eqb a a = true.
Proof.
  intros H. apply ksm_eqb_refl.
  apply ksm_eqb_true in H as (_ & H & _). now apply feq_not_nan in H.
Qed.

Lemma ksm_eqb_km_of a b : ksm_eqb a b = true -> km_of a = km_of b.
Proof.
  rewrite ksm_eqb_true. intros (Hk & _ & Hm). unfold km_of. congruence.
Qed.

(** ** Go maps *)

Section GoMapFacts.
Context {K V : Type} (keq : K -> K -> bool).

Implicit Types (m : @gomap K V) (k : K) (v : V).

Lemma index_None m k :
  index keq m k = None <-> forall k', In k' (range m) -> keq k k' = false.
Proof.
  induction m as [|[k0 v0] m IH]; simpl.
  - split; [intros _ k' [] | reflexivity].
  - destruct (keq k k0) eqn:E.
    + split; [discriminate |]. intros H. rewrite H in E; auto. discriminate.
    + rewrite IH. split.
      * intros H k' [<- | Hin]; auto.
      * intros H k' Hin. auto.
Qed.

Lemma index_Some m k v :
  index keq m k = Some v ->
  exists m1 k0 m2,
    m = m1 ++ (k0, v) :: m2 /\ keq k k0 = true
    /\ (forall k', In k' (range m1) -> keq k k' = false)
    /\ forall w, assign keq m k w = m1 ++ (k, w) :: m2.
Proof.
  induction m as [|[k0 v0] m IH]; simpl; [discriminate |].
  destruct (keq k k0) eqn:E.
  - intros [= ->]. exists [], k0, m. simpl. rewrite E. repeat split; tauto.
  - intros H. destruct (IH H) as (m1 & k1 & m2 & -> & Hk & Hm1 & Hassign).
    exists ((k0, v0) :: m1), k1, m2. simpl. repeat split; auto.
    + intros k' [<- | Hin]; auto.
    + intros w. rewrite Hassign. reflexivity.
Qed.

Lemma assign_fresh m k v :
  index keq m k = None -> assign keq m k v = m ++ [(k, v)].
Proof.
  induction m as [|[k0 v0] m IH]; simpl; [reflexivity |].
  destruct (keq k k0); [discriminate |]. intros H. now rewrite IH.
Qed.

End GoMapFacts.

(** ** The first loop of unionDifference *)

Section Tally.

Lemma fold_visit l counts scores :
  fold_left visit l (counts, scores) =
  (fold_left countTuple l counts, fold_left recordScore l scores).
Proof.
  revert counts scores. induction l as [|t l IH]; intros; simpl; [reflexivity |].
  unfold visit at 2. simpl. apply IH.
Qed.

Lemma fold_visitSet tupleSets acc :
  fold_left visitSet tupleSets acc = fold_left visit (flatten tupleSets) acc.
Proof.
  unfold flatten. revert acc.
  induction tupleSets as [|s sets IH]; intros acc; simpl; [reflexivity |].
  rewrite fold_left_app. apply IH.
Qed.

Lemma tallyAll_flatten tupleSets :
  tallyAll tupleSets =
  (fold_left countTuple (flatten tupleSets) [],
   fold_left recordScore (flatten tupleSets) ∅).
Proof.
  unfold tallyAll. rewrite <- fold_visit. apply fold_visitSet.
Qed.

Lemma in_flatten tupleSets t : In t (flatten tupleSets) <-> recorded tupleSets t.
Proof.
  unfold flatten, recorded. rewrite in_concat. split.
  - intros (l & Hl & Ht). apply in_map_iff in Hl as (s & <- & Hs). eauto.
  - intros (s & Hs & Ht). exists (range s). split; [| exact Ht].
    apply in_map_iff. eauto.
Qed.

(** After the loop, [scores] holds a best score for every pair seen, and
    nothing else. *)
Lemma recordScore_inv l km :
  match fold_left recordScore l ∅ !! km with
  | Some s => best l km s
  | None => forall t, In t l -> km_of t <> km
  end.
Proof.
  induction l as [|t l IH] using rev_ind.
  - simpl. rewrite lookup_empty. intros t [].
  - rewrite fold_left_app. simpl.
    set (scores := fold_left recordScore l ∅) in *.
    unfold recordScore.
    destruct (decide (km_of t = km)) as [<- | Hne].
    + destruct (scores !! km_of t) as [s|] eqn:E.
      * destruct IH as [(t0 & Hin0 & Hkm0 & Hs0) Hmax].
        destruct (fgt (common.Score t) s) eqn:Hgt.
        -- rewrite lookup_insert_eq. split.
           ++ exists t. rewrite in_app_iff. simpl. auto.
           ++ intros t' Hin' Hkm'. apply in_app_iff in Hin' as [Hin' | [<- | []]].
              ** destruct (fgt (common.Score t') (common.Score t)) eqn:E'; [| reflexivity].
                 rewrite <- (Hmax t' Hin' Hkm'). symmetry.
                 eapply fgt_trans; eauto.
              ** apply fgt_irrefl.
        -- rewrite E. split.
           ++ exists t0. rewrite in_app_iff. auto.
           ++ intros t' Hin' Hkm'. apply in_app_iff in Hin' as [Hin' | [<- | []]]; auto.
      * rewrite lookup_insert_eq. split.
        -- exists t. rewrite in_app_iff. simpl. auto.
        -- intros t' Hin' Hkm'. apply in_app_iff in Hin' as [Hin' | [<- | []]].
           ++ exfalso. eapply IH; eauto.
           ++ apply fgt_irrefl.
    + assert (Hlk : forall s, <[km_of t := s]> scores !! km = scores !! km)
        by (intros; now apply lookup_insert_ne).
      assert (Hsame :
        match scores !! km_of t with
        | Some score =>
            if fgt (common.Score t) score
            then <[km_of t:=common.Score t]> scores else scores
        | None => <[km_of t:=common.Score t]> scores
        end !! km = scores !! km).
      { destruct (scores !! km_of t); [destruct (fgt _ _) |]; auto. }
      rewrite Hsame. destruct (scores !! km) as [s|].
      * destruct IH as [(t0 & Hin0 & Hkm0 & Hs0) Hmax]. split.
        -- exists t0. rewrite in_app_iff. auto.
        -- intros t' Hin' Hkm'. apply in_app_iff in Hin' as [Hin' | [<- | []]]; auto.
           contradiction.
      * intros t' Hin'. apply in_app_iff in Hin' as [Hin' | [<- | []]]; auto.
Qed.

End Tally.

(** ** The union *)

Section Union.

Lemma km_of_bestTuple entry : km_of (bestTuple entry) = entry.1.
Proof. destruct entry as [[k m] s]. reflexivity. Qed.

Lemma bestTuple_eta t : bestTuple (km_of t, common.Score t) = t.
Proof. destruct t. reflexivity. Qed.

Lemma ksm_eqb_other_km a b : km_of a <> km_of b -> ksm_eqb a b = false.
Proof.
  intros Hne. destruct (ksm_eqb a b) eqn:E; [| reflexivity].
  now apply ksm_eqb_km_of in E.
Qed.

(** Entries of [scores] have different pairs, so every [union.add] makes
    a new entry. *)
Lemma union_fold (entries : list (keyMember * float64)) :
  NoDup (map fst entries) ->
  fold_left
    (fun union '(km, bestScore) =>
       TupleSet.add union
         {| common.Key := Key km;
            common.Score := bestScore;
            common.Member := Member km |})
    entries [] =
  map (fun entry => (bestTuple entry, tt)) entries.
Proof.
  induction entries as [|[[k m] s] entries IH] using rev_ind; [reflexivity |].
  rewrite map_app, fold_left_app. intros Hnd. simpl in *.
  apply NoDup_app in Hnd as (Hnd' & Hnotin & _).
  rewrite (IH Hnd'), map_app. simpl.
  apply (assign_fresh ksm_eqb). apply index_None.
  intros k' Hk'. unfold range in Hk'. rewrite map_map in Hk'. simpl in Hk'.
  apply in_map_iff in Hk' as (entry & <- & Hentry).
  apply ksm_eqb_other_km. rewrite km_of_bestTuple. unfold km_of. simpl.
  intros Heq. destruct entry as [[k' m'] s']. simpl in Heq.
  apply (Hnotin {| Key := k'; Member := m' |}); [| rewrite Heq; left].
  apply list_elem_of_In, in_map_iff. exists ({| Key := k'; Member := m' |}, s'). auto.
Qed.

Lemma union_slice tupleSets :
  TupleSet.slice (unionDifference tupleSets).1 =
  map bestTuple (map_to_list (fold_left recordScore (flatten tupleSets) ∅)).
Proof.
  unfold unionDifference. rewrite tallyAll_flatten. simpl.
  rewrite union_fold.
  - unfold TupleSet.slice, range. rewrite map_map. reflexivity.
  - apply NoDup_fst_map_to_list.
Qed.

Lemma filter_bestTuple (entries : list (keyMember * float64)) km s :
  NoDup (map fst entries) -> In (km, s) entries ->
  List.filter (fun u => bool_decide (km_of u = km)) (map bestTuple entries)
  = [bestTuple (km, s)].
Proof.
  induction entries as [|[km' s'] entries IH]; simpl; [intros _ [] |].
  intros Hnd Hin. apply NoDup_cons in Hnd as [Hnotin Hnd].
  rewrite list_elem_of_In in Hnotin.
  rewrite (km_of_bestTuple (km', s')). simpl.
  destruct Hin as [[= -> ->] | Hin].
  - rewrite bool_decide_eq_true_2 by reflexivity. f_equal.
    clear IH Hnd. induction entries as [|[km' s'] entries IH]; [reflexivity |].
    simpl. rewrite (km_of_bestTuple (km', s')). simpl.
    rewrite bool_decide_eq_false_2.
    + apply IH. intros H. apply Hnotin. now right.
    + intros ->. apply Hnotin. now left.
  - rewrite bool_decide_eq_false_2; [now apply IH |].
    intros ->. apply Hnotin. apply in_map_iff. exists (km, s). auto.
Qed.

End Union.

(** C2, as the code has it.  For inputs without NaN scores, the union
    returned by [unionDifference] has exactly one tuple for each (key,
    member) pair that occurs in an input and none for any other pair;
    that tuple is one of the recorded tuples of the pair and its score is
    the maximum of the recorded scores of the pair: every recorded score
    of the pair is less or equal. *)
Theorem union_best_score (tupleSets : list tupleSet) :
  Forall noNaN tupleSets ->
  let union := TupleSet.slice (unionDifference tupleSets).1 in
  (forall u, In u union -> recorded tupleSets u)
  /\ forall km, (exists t, recorded tupleSets t /\ km_of t = km) ->
     exists u,
       List.filter (fun u' => bool_decide (km_of u' = km)) union = [u]
       /\ km_of u = km
       /\ recorded tupleSets u
       /\ forall t, recorded tupleSets t -> km_of t = km ->
            fle (common.Score t) (common.Score u) = true.
Proof.
  intros Hnan union. subst union. rewrite union_slice.
  assert (Hclean : forall t, recorded tupleSets t ->
                     is_nan (common.Score t) = false).
  { intros t (s & Hs & Ht).
    apply (proj1 (List.Forall_forall _ _) Hnan s Hs t Ht). }
  set (scores := fold_left recordScore (flatten tupleSets) ∅).
  split.
  - intros u Hu. apply in_map_iff in Hu as ([km s] & <- & Hin).
    apply list_elem_of_In, elem_of_map_to_list in Hin.
    pose proof (recordScore_inv (flatten tupleSets) km) as Hinv.
    fold scores in Hinv. rewrite Hin in Hinv.
    destruct Hinv as [(t & Ht & <- & <-) _].
    rewrite bestTuple_eta. now apply in_flatten.
  - intros km (t0 & Ht0 & Hkm0).
    pose proof (recordScore_inv (flatten tupleSets) km) as Hinv.
    fold scores in Hinv.
    destruct (scores !! km) as [s|] eqn:E.
    + destruct Hinv as [(t & Ht & Hkm & Hs) Hmax].
      assert (Hrec : recorded tupleSets (bestTuple (km, s)))
        by (rewrite <- Hkm, <- Hs, bestTuple_eta; now apply in_flatten).
      exists (bestTuple (km, s)). repeat split.
      * apply filter_bestTuple; [apply NoDup_fst_map_to_list |].
        now apply list_elem_of_In, elem_of_map_to_list.
      * apply (km_of_bestTuple (km, s)).
      * exact Hrec.
      * intros t' Ht' Hkm'. apply not_fgt_fle.
        -- now apply Hclean.
        -- apply (Hclean _ Hrec).
        -- apply Hmax; [now apply in_flatten | assumption].
    + exfalso. apply (Hinv t0); [now apply in_flatten | assumption].
Qed.

Lemma union_best_score_witness :
  exists u,
    List.filter (fun u' => bool_decide (km_of u' = Sample.km))
      (TupleSet.slice (unionDifference Sample.disagree).1) = [u]
    /\ km_of u = Sample.km
    /\ recorded Sample.disagree u
    /\ forall t, recorded Sample.disagree t -> km_of t = Sample.km ->
         fle (common.Score t) (common.Score u) = true.
Proof.
  refine (proj2 (union_best_score Sample.disagree _) Sample.km _).
  - repeat constructor; intros tuple H; simpl in H;
      repeat (destruct H as [<- | H]; [reflexivity |]); destruct H.
  - exists Sample.low. split; [| reflexivity].
    exists [(Sample.low, tt)]. split; simpl; auto.
Defined.

(** A NaN score that is recorded first is kept: 2.0 is recorded for
    (k, m) and is not less or equal to the score of the union; with the
    inputs in the other order the union carries 2.0. *)
Lemma union_maximum_counterexample :
  ~ (exists u,
       In u (TupleSet.slice (unionDifference Edge.nanFirst).1)
       /\ km_of u = Sample.km
       /\ forall t, recorded Edge.nanFirst t -> km_of t = Sample.km ->
            fle (common.Score t) (common.Score u) = true)
  /\ TupleSet.slice (unionDifference Edge.nanFirst).1 = [Edge.unscored]
  /\ TupleSet.slice (unionDifference Edge.nanLast).1 = [Sample.high].
Proof.
  assert (Hunion : TupleSet.slice (unionDifference Edge.nanFirst).1
                   = [Edge.unscored]) by (vm_compute; reflexivity).
  split; [| split; [exact Hunion | vm_compute; reflexivity]].
  rewrite Hunion. intros (u & [<- | []] & _ & Hmax).
  assert (Hle : fle (common.Score Sample.high) (common.Score Edge.unscored)
                = true).
  { apply Hmax; [| reflexivity].
    exists [(Sample.high, tt)]. split; simpl; auto. }
  vm_compute in Hle. discriminate.
Qed.

(** ** The counts *)

Section Counts.

Implicit Types (t k : KeyScoreMember) (l : list KeyScoreMember).
Implicit Types (counts : @gomap KeyScoreMember Z).

Lemma distinct_app {V} (m1 m2 : @gomap KeyScoreMember V) :
  distinct ksm_eqb (m1 ++ m2) <->
  distinct ksm_eqb m1 /\ distinct ksm_eqb m2
  /\ forall k1 k2, In k1 (range m1) -> In k2 (range m2) -> ksm_eqb k1 k2 = false.
Proof.
  induction m1 as [|[k v] m1 IH]; simpl.
  - split; [intros H; repeat split; [constructor | exact H | intros ? ? []] | tauto].
  - split.
    + intros H. inversion H as [|? ? ? Hk Hd]; subst.
      apply IH in Hd as (Hd1 & Hd2 & Hx). repeat split; auto.
      * constructor; auto. intros k' Hk'. apply Hk.
        unfold range in *. rewrite map_app, in_app_iff. auto.
      * intros k1 k2 [<- | H1] H2; auto.
        apply Hk. unfold range in *. rewrite map_app, in_app_iff. auto.
    + intros (Hd1 & Hd2 & Hx). inversion Hd1 as [|? ? ? Hk Hd]; subst.
      constructor.
      * intros k' Hk'. unfold range in Hk'. rewrite map_app, in_app_iff in Hk'.
        destruct Hk' as [Hk' | Hk']; auto.
      * apply IH. repeat split; auto.
Qed.

Lemma occ_snoc t l x :
  occ t (l ++ [x]) = (occ t l + if ksm_eqb t x then 1 else 0)%nat.
Proof.
  unfold occ. rewrite List.filter_app, length_app. simpl.
  destruct (ksm_eqb t x); reflexivity.
Qed.

Lemma occ_same t k l : ksm_eqb t k = true -> occ t l = occ k l.
Proof.
  intros H. unfold occ. f_equal. apply List.filter_ext. intros x.
  destruct (ksm_eqb t x) eqn:E1, (ksm_eqb k x) eqn:E2; try reflexivity.
  - rewrite ksm_eqb_sym in H. now rewrite (ksm_eqb_trans _ _ _ H E1) in E2.
  - now rewrite (ksm_eqb_trans _ _ _ H E2) in E1.
Qed.

Lemma cnt_same t k l : same t k -> cnt t l = cnt k l.
Proof.
  intros [-> | H]; [reflexivity |]. unfold cnt.
  rewrite (ksm_eqb_self _ _ H).
  rewrite ksm_eqb_sym in H. rewrite (ksm_eqb_self _ _ H).
  rewrite ksm_eqb_sym in H. now rewrite (occ_same _ _ _ H).
Qed.

Lemma cnt_snoc_other k l x : ksm_eqb k x = false -> cnt k (l ++ [x]) = cnt k l.
Proof.
  intros H. unfold cnt. rewrite occ_snoc, H, Nat.add_0_r. reflexivity.
Qed.

Lemma km_of_same t k : same t k -> km_of t = km_of k.
Proof. intros [-> | H]; [reflexivity | now apply ksm_eqb_km_of]. Qed.

Lemma in_range_entry {V} (m : @gomap KeyScoreMember V) k :
  In k (range m) <-> exists v, In (k, v) m.
Proof.
  unfold range. rewrite in_map_iff. split.
  - intros ([k' v] & <- & H). eauto.
  - intros (v & H). exists (k, v). auto.
Qed.

Lemma occ_zero t l : (forall x, In x l -> ksm_eqb t x = false) -> occ t l = 0%nat.
Proof.
  unfold occ. induction l as [|x l IH]; simpl; [reflexivity |].
  intros H. rewrite (H x) by auto. apply IH. auto.
Qed.

Lemma ksm_eqb_false_l t k k' :
  ksm_eqb t k = true -> ksm_eqb k k' = false -> ksm_eqb t k' = false.
Proof.
  intros H1 H2. destruct (ksm_eqb t k') eqn:E; [| reflexivity].
  rewrite ksm_eqb_sym in H1. now rewrite (ksm_eqb_trans _ _ _ H1 E) in H2.
Qed.

Lemma countTuple_counted l :
  (forall x, Z.of_nat (occ x l) <= MaxInt) ->
  counted l (fold_left countTuple l []).
Proof.
  induction l as [|t l IH] using rev_ind; intros Hbound.
  - simpl. split; [constructor | intros ? ? [] | intros ? []].
  - assert (Hbound' : forall x, Z.of_nat (occ x l) <= MaxInt).
    { intros x. specialize (Hbound x). rewrite occ_snoc in Hbound. lia. }
    specialize (IH Hbound'). rewrite fold_left_app. simpl.
    set (counts := fold_left countTuple l []) in *.
    destruct IH as [Hd Hsound Hcomplete]. unfold countTuple.
    destruct (index ksm_eqb counts t) as [c|] eqn:E.
    + apply index_Some in E as (m1 & k0 & m2 & Hcounts & Hk & Hm1 & Hassign).
      rewrite Hassign. clear Hassign. rewrite Hcounts in *. clear counts Hcounts.
      apply distinct_app in Hd as (Hd1 & Hd2 & Hx).
      inversion Hd2 as [|? ? ? Hk0 Hd2']; subst.
      assert (Hm2 : forall k', In k' (range m2) -> ksm_eqb t k' = false)
        by (intros k' Hk'; eapply ksm_eqb_false_l; eauto).
      assert (Hval : GoInt.add c 1 = cnt t (l ++ [t])).
      { destruct (Hsound k0 c) as [_ ->]; [rewrite in_app_iff; simpl; auto |].
        rewrite <- (cnt_same t k0 l) by (right; exact Hk).
        specialize (Hbound t). unfold cnt in *.
        rewrite occ_snoc in *. rewrite (ksm_eqb_self _ _ Hk) in *.
        unfold GoInt.add. rewrite wrap_small; [lia |].
        unfold is_int. rewrite MinInt_val. lia. }
      rewrite Hval. split.
      * apply distinct_app. repeat split; auto.
        -- constructor; auto.
        -- intros k1 k2 H1 [<- | H2]; auto.
           ++ rewrite ksm_eqb_sym. auto.
           ++ apply Hx; simpl; auto.
      * intros k c' Hin. apply in_app_iff in Hin as [Hin | [[= <- <-] | Hin]].
        -- destruct (Hsound k c') as [Hl ->]; [rewrite in_app_iff; auto |].
           split; [rewrite in_app_iff; auto |].
           symmetry. apply cnt_snoc_other. rewrite ksm_eqb_sym.
           apply Hm1, in_range_entry. eauto.
        -- split; [rewrite in_app_iff; simpl; auto | reflexivity].
        -- destruct (Hsound k c') as [Hl ->]; [rewrite in_app_iff; simpl; auto |].
           split; [rewrite in_app_iff; auto |].
           symmetry. apply cnt_snoc_other. rewrite ksm_eqb_sym.
           apply Hm2, in_range_entry. eauto.
      * intros x Hin. apply in_app_iff in Hin as [Hin | [<- | []]].
        -- destruct (Hcomplete x Hin) as (k & c' & Hentry & Hsame).
           apply in_app_iff in Hentry as [Hentry | [[= <- <-] | Hentry]].
           ++ exists k, c'. rewrite in_app_iff. auto.
           ++ exists t, (cnt t (l ++ [t])). split; [rewrite in_app_iff; simpl; auto |].
              right. rewrite ksm_eqb_sym in Hk.
              destruct Hsame as [-> | Hsame]; [exact Hk |].
              eapply ksm_eqb_trans; eauto.
           ++ exists k, c'. rewrite in_app_iff. simpl. auto.
        -- exists t, (cnt t (l ++ [t])). split; [rewrite in_app_iff; simpl; auto |].
           now left.
    + rewrite (assign_fresh _ _ _ _ E).
      pose proof (proj1 (index_None ksm_eqb counts t) E) as Hfresh.
      assert (Hval : GoInt.add 0 1 = cnt t (l ++ [t])).
      { unfold cnt. destruct (ksm_eqb t t) eqn:Ett; [| reflexivity].
        rewrite occ_snoc, Ett, occ_zero; [reflexivity |].
        intros x Hx. destruct (Hcomplete x Hx) as (k & c' & Hentry & Hsame).
        assert (Hk : ksm_eqb t k = false)
          by (apply Hfresh, in_range_entry; eauto).
        destruct Hsame as [-> | Hsame]; [exact Hk |].
        destruct (ksm_eqb t x) eqn:Etx; [| reflexivity].
        now rewrite (ksm_eqb_trans _ _ _ Etx Hsame) in Hk. }
      rewrite Hval. split.
      * apply distinct_app. repeat split; auto.
        -- constructor; [intros ? [] | constructor].
        -- intros k1 k2 H1 [<- | []]. rewrite ksm_eqb_sym. auto.
      * intros k c' Hin. apply in_app_iff in Hin as [Hin | [[= <- <-] | []]].
        -- destruct (Hsound k c' Hin) as [Hl ->].
           split; [rewrite in_app_iff; auto |].
           symmetry. apply cnt_snoc_other. rewrite ksm_eqb_sym.
           apply Hfresh, in_range_entry. eauto.
        -- split; [rewrite in_app_iff; simpl; auto | reflexivity].
      * intros x Hin. apply in_app_iff in Hin as [Hin | [<- | []]].
        -- destruct (Hcomplete x Hin) as (k & c' & Hentry & Hsame).
           exists k, c'. rewrite in_app_iff. auto.
        -- exists t, (cnt t (l ++ [t])). split; [rewrite in_app_iff; simpl; auto |].
           now left.
Qed.

End Counts.

(** ** The difference *)

Section Difference.

Implicit Types (t k : KeyScoreMember) (km : keyMember).

Lemma difference_fold (counts : @gomap KeyScoreMember Z) expectedCount km
    (difference : keyMemberSet) :
  km ∈ fold_left
         (fun difference '(ksm, count) =>
            if count <? expectedCount
            then KeyMemberSet.add difference (km_of ksm)
            else difference)
         counts difference
  <-> km ∈ difference
      \/ exists k c, In (k, c) counts /\ c < expectedCount /\ km_of k = km.
Proof.
  revert difference. induction counts as [|[k c] counts IH]; intros d; simpl.
  - split; [auto | intros [H | (? & ? & [] & _)]; exact H].
  - rewrite IH. destruct (Z.ltb_spec c expectedCount) as [Hlt | Hge].
    + unfold KeyMemberSet.add. rewrite elem_of_union, elem_of_singleton. split.
      * intros [[-> | H] | (k' & c' & Hin & Hc & Hkm)]; eauto 8.
      * intros [H | (k' & c' & [[= <- <-] | Hin] & Hc & Hkm)]; eauto 8.
    + split.
      * intros [H | (k' & c' & Hin & Hc & Hkm)]; eauto 8.
      * intros [H | (k' & c' & [[= <- <-] | Hin] & Hc & Hkm)]; eauto 8. lia.
Qed.

(** The difference in terms of the counts the loop keeps. *)
Lemma difference_counts tupleSets km :
  (forall x, Z.of_nat (occ x (flatten tupleSets)) <= MaxInt) ->
  km ∈ (unionDifference tupleSets).2 <->
  exists t, recorded tupleSets t /\ km_of t = km
            /\ cnt t (flatten tupleSets) < len tupleSets.
Proof.
  intros Hbound. unfold unionDifference. rewrite tallyAll_flatten. simpl.
  rewrite difference_fold.
  destruct (countTuple_counted _ Hbound) as [_ Hsound Hcomplete].
  split.
  - intros [H | (k & c & Hin & Hc & Hkm)]; [now apply not_elem_of_empty in H |].
    destruct (Hsound k c Hin) as [Hl ->].
    exists k. rewrite <- in_flatten. repeat split; assumption.
  - intros (t & Ht & Hkm & Hc). right.
    apply in_flatten in Ht. destruct (Hcomplete t Ht) as (k & c & Hin & Hsame).
    exists k, c. destruct (Hsound k c Hin) as [_ Hcnt].
    split; [exact Hin |]. rewrite Hcnt.
    rewrite <- (cnt_same _ _ _ Hsame), <- (km_of_same _ _ Hsame).
    split; assumption.
Qed.

Lemma has_true (s : tupleSet) t :
  TupleSet.has s t = true <-> exists k, In k (range s) /\ ksm_eqb t k = true.
Proof.
  unfold TupleSet.has. induction s as [|[k []] s IH]; simpl.
  - split; [discriminate | intros (? & [] & _)].
  - destruct (ksm_eqb t k) eqn:E.
    + split; eauto.
    + rewrite IH. split.
      * intros (k' & Hin & Hk'). eauto.
      * intros (k' & [<- | Hin] & Hk'); [congruence | eauto].
Qed.

(** In a well-formed set at most one entry equals a given tuple. *)
Lemma occ_range (s : tupleSet) t :
  wellFormed s ->
  occ t (range s) = if TupleSet.has s t then 1%nat else 0%nat.
Proof.
  unfold wellFormed, TupleSet.has, occ.
  induction s as [|[k []] s IH]; simpl; [reflexivity |].
  intros Hd. inversion Hd as [|? ? ? Hk Hd']; subst.
  destruct (ksm_eqb t k) eqn:E; [| now apply IH].
  simpl. f_equal. apply occ_zero. intros x Hx. eapply ksm_eqb_false_l; eauto.
Qed.

Lemma occ_flatten tupleSets t :
  Forall wellFormed tupleSets ->
  Z.of_nat (occ t (flatten tupleSets)) = holders tupleSets t.
Proof.
  unfold holders, len, flatten.
  induction tupleSets as [|s sets IH]; simpl; [reflexivity |].
  intros Hwf. apply Forall_cons in Hwf as [Hs Hsets].
  unfold occ in *. rewrite List.filter_app, length_app, Nat2Z.inj_add.
  rewrite (IH Hsets). fold (occ t (range s)). rewrite (occ_range s t Hs).
  destruct (TupleSet.has s t); simpl length; lia.
Qed.

Lemma length_filter_le {A} (p : A -> bool) (l : list A) :
  (length (List.filter p l) <= length l)%nat.
Proof. induction l as [|x l IH]; simpl; [lia |]. destruct (p x); simpl; lia. Qed.

Lemma length_filter_mono {A} (p q : A -> bool) (l : list A) :
  (forall x, p x = true -> q x = true) ->
  (length (List.filter p l) <= length (List.filter q l))%nat.
Proof.
  intros Hpq. induction l as [|x l IH]; simpl; [lia |].
  destruct (p x) eqn:Ep.
  - rewrite (Hpq x Ep). simpl. lia.
  - destruct (q x); simpl; lia.
Qed.

Lemma holders_le_len tupleSets t : holders tupleSets t <= len tupleSets.
Proof. unfold holders, len. pose proof (length_filter_le (fun s => TupleSet.has s t) tupleSets). lia. Qed.

Lemma hasKM_true (s : tupleSet) km :
  hasKM s km = true <-> exists t, In t (range s) /\ km_of t = km.
Proof.
  unfold hasKM. rewrite existsb_exists. split.
  - intros (t & Hin & Hkm). apply bool_decide_eq_true in Hkm. eauto.
  - intros (t & Hin & Hkm). exists t. rewrite bool_decide_eq_true. auto.
Qed.

Lemma holders_le_presentIn tupleSets t :
  holders tupleSets t <= presentIn tupleSets (km_of t).
Proof.
  unfold holders, presentIn, len.
  apply inj_le, length_filter_mono. intros s Hs.
  apply has_true in Hs as (k & Hin & Hk). apply hasKM_true.
  exists k. split; [exact Hin |]. symmetry. now apply ksm_eqb_km_of.
Qed.

Lemma presentIn_pos tupleSets km :
  0 < presentIn tupleSets km -> exists t, recorded tupleSets t /\ km_of t = km.
Proof.
  unfold presentIn, len, recorded. intros Hpos.
  destruct (List.filter (fun s => hasKM s km) tupleSets) as [|s rest] eqn:E;
    [simpl in Hpos; lia |].
  assert (Hs : In s (List.filter (fun s => hasKM s km) tupleSets))
    by (rewrite E; now left).
  apply List.filter_In in Hs as [Hin Hhas].
  apply hasKM_true in Hhas as (t & Ht & Hkm). eauto.
Qed.

End Difference.

Section DifferenceSpec.

Lemma cnt_holders tupleSets t :
  Forall wellFormed tupleSets -> Forall noNaN tupleSets ->
  recorded tupleSets t ->
  cnt t (flatten tupleSets) = holders tupleSets t.
Proof.
  intros Hwf Hnan (s & Hs & Ht). unfold cnt.
  rewrite ksm_eqb_refl; [now apply occ_flatten |].
  rewrite List.Forall_forall in Hnan. exact (Hnan s Hs t Ht).
Qed.

Lemma occ_bound tupleSets :
  Forall wellFormed tupleSets -> len tupleSets <= MaxInt ->
  forall x, Z.of_nat (occ x (flatten tupleSets)) <= MaxInt.
Proof.
  intros Hwf Hlen x. rewrite (occ_flatten _ _ Hwf).
  pose proof (holders_le_len tupleSets x). lia.
Qed.

Lemma difference_holders tupleSets km :
  Forall wellFormed tupleSets -> Forall noNaN tupleSets ->
  len tupleSets <= MaxInt ->
  km ∈ (unionDifference tupleSets).2 <->
  exists t, recorded tupleSets t /\ km_of t = km
            /\ holders tupleSets t < len tupleSets.
Proof.
  intros Hwf Hnan Hlen.
  rewrite (difference_counts _ _ (occ_bound _ Hwf Hlen)).
  split; intros (t & Ht & Hkm & Hc); exists t; repeat split; auto.
  - now rewrite <- cnt_holders.
  - now rewrite cnt_holders.
Qed.

End DifferenceSpec.

(** C1, as the code has it.  For inputs that are Go maps (no two equal
    keys in one set) without NaN scores, a (key, member) pair is in the
    diff exactly when some recorded tuple of the pair, score included, is
    held by fewer than N of the inputs.  Hence every pair present in at
    least one and fewer than N inputs is in the diff; a pair present in all
    N inputs is in the diff as well when one of its recorded scores is
    missing from some input. *)
Theorem difference_spec (tupleSets : list tupleSet) :
  Forall wellFormed tupleSets -> Forall noNaN tupleSets ->
  len tupleSets <= MaxInt ->
  forall km,
    (km ∈ (unionDifference tupleSets).2 <->
     exists t, recorded tupleSets t /\ km_of t = km
               /\ holders tupleSets t < len tupleSets)
    /\ (0 < presentIn tupleSets km < len tupleSets ->
        km ∈ (unionDifference tupleSets).2).
Proof.
  intros Hwf Hnan Hlen km. split; [now apply difference_holders |].
  intros [Hpos Hlt]. apply difference_holders; auto.
  destruct (presentIn_pos _ _ Hpos) as (t & Ht & Hkm).
  exists t. repeat split; auto.
  pose proof (holders_le_presentIn tupleSets t). rewrite Hkm in *. lia.
Qed.

Lemma difference_spec_witness :
  {| Key := "k"; Member := "n" |} ∈ (unionDifference Sample.partial).2.
Proof.
  refine (proj2 (difference_spec Sample.partial _ _ _ _) _).
  - repeat constructor; simpl; intros k' H;
      repeat (destruct H as [<- | H]; [reflexivity |]); destruct H.
  - repeat constructor; intros tuple H; simpl in H;
      repeat (destruct H as [<- | H]; [reflexivity |]); destruct H.
  - vm_compute. discriminate.
  - vm_compute. split; reflexivity.
Defined.

(** The same pair recorded by both replicas at different scores: present
    in all N = 2 inputs, and yet in the diff. *)
Lemma difference_presence_counterexample :
  ~ (Sample.km ∈ (unionDifference Sample.disagree).2 <->
     0 < presentIn Sample.disagree Sample.km < len Sample.disagree).
Proof.
  intros [Hin _].
  assert (H : Sample.km ∈ (unionDifference Sample.disagree).2)
    by (apply (proj1 (bool_decide_eq_true _)); vm_compute; reflexivity).
  apply Hin in H as [_ H]. vm_compute in H. discriminate.
Qed.

(** ** Short circuits *)

(** C8.  For an empty batch Insert and Delete return nil at once: the
    world is left as it was, so no cluster has been called, nothing has
    been recorded by the instrumentation, and no error is returned. *)
Theorem write_empty_batch (f : Farm) (arrival : list nat) (w : World) :
  Insert f [] arrival w = (Returns None, w)
  /\ Delete f [] arrival w = (Returns None, w)
  /\ forall action instr, write f [] action instr arrival w = (Returns None, w).
Proof. repeat split. Qed.

(** By contrast, a batch of one tuple reaches the instrumentation and all
    three clusters. *)
Example write_one_tuple :
  Insert Sample.farmUp [Sample.low] [2; 0; 1]%nat Sample.world0 =
  (Returns None,
   {| history := [Instr InsertCall; Instr (InsertRecordCount 1);
                  ClusterInsert "a" [Sample.low];
                  ClusterInsert "b" [Sample.low];
                  ClusterInsert "c" [Sample.low];
                  Instr InsertCallDuration; Instr InsertRecordDuration];
      producer := producer Sample.world0;
      signal := false |}).
Proof. reflexivity. Qed.

(** C9.  Select with no keys returns an empty, non-nil map and a nil
    error, whatever offset and limit are; the world is left as it was:
    neither the read strategy nor [ratePolice.Report] has been called. *)
Theorem Select_no_keys (f : Farm) (offset limit : Z) (w : World) :
  Select f [] offset limit w = (Returns (Some ∅, None), w).
Proof. reflexivity. Qed.

Section SelectFacts.

Lemma len_pos {A} (l : list A) : l <> [] -> (len l <=? 0) = false.
Proof.
  intros Hne. apply Z.leb_gt. destruct l; [congruence |].
  unfold len. simpl. lia.
Qed.

Lemma Select_history f keys offset limit w :
  keys <> [] ->
  history (Select f keys offset limit w).2 =
  history w ++ Report (len keys)
    :: match readStrategy f with
       | Some _ => [Read keys offset limit]
       | None => []
       end.
Proof.
  intros Hne. unfold Select. rewrite (len_pos keys Hne).
  unfold bind, policeReport, emit, ret. simpl.
  destruct (readStrategy f); simpl; [| reflexivity].
  rewrite <- app_assoc. reflexivity.
Qed.

End SelectFacts.

(** C7, as the code has it.  A Select with at least one key calls
    [ratePolice.Report] exactly once, with [len(keys)], before the read
    strategy; a Select with no keys makes no call at all. *)
Theorem Select_reports (f : Farm) (keys : list string) (offset limit : Z)
    (w : World) :
  (keys <> [] ->
   history (Select f keys offset limit w).2 =
   history w ++ Report (len keys)
     :: match readStrategy f with
        | Some _ => [Read keys offset limit]
        | None => []
        end)
  /\ (keys = [] -> (Select f keys offset limit w).2 = w).
Proof.
  split; [apply Select_history |]. intros ->. reflexivity.
Qed.

Lemma Select_reports_witness :
  history (Select Sample.farm ["k"; "l"] 0 10 Sample.world0).2 =
  [Report 2; Read ["k"; "l"] 0 10].
Proof.
  exact (proj1 (Select_reports Sample.farm ["k"; "l"] 0 10 Sample.world0)
           ltac:(discriminate)).
Defined.

(** A Select with no keys: [Report(len(keys))], that is [Report(0)], is
    not called. *)
Lemma Select_reports_counterexample :
  ~ In (Report (len ([] : list string)))
       (history (Select Sample.farm [] 0 10 Sample.world0).2).
Proof. simpl. tauto. Qed.

(** ** Gathering the responses *)

Section Gather.

Implicit Types (l p rest : list error).

Lemma successes_nonneg l : 0 <= successes l.
Proof. unfold successes. apply len_nonneg. Qed.

Lemma successes_snoc l e :
  successes (l ++ [e]) = successes l + (if isNil e then 1 else 0).
Proof.
  unfold successes, len. rewrite List.filter_app, length_app. simpl.
  destruct (isNil e); simpl; lia.
Qed.

Lemma failures_snoc l e :
  failures (l ++ [e]) =
  match e with Some msg => failures l ++ [msg] | None => failures l end.
Proof.
  unfold failures. rewrite omap_app. simpl.
  destruct e; simpl; [reflexivity | now rewrite app_nil_r].
Qed.

(** Every response is a success or contributes one message. *)
Lemma successes_failures l : successes l + len (failures l) = len l.
Proof.
  induction l as [|e l IH] using rev_ind; [reflexivity |].
  rewrite successes_snoc, failures_snoc. unfold len in *.
  rewrite length_app. destruct e; simpl; [rewrite length_app; simpl |]; lia.
Qed.

Lemma successes_le_len l : successes l <= len l.
Proof.
  pose proof (successes_failures l). pose proof (len_nonneg (failures l)). lia.
Qed.

Lemma successes_firstn_le l m : successes (firstn m l) <= successes l.
Proof.
  rewrite <- (firstn_skipn m l) at 2. unfold successes, len.
  rewrite List.filter_app, length_app. lia.
Qed.

(** The state of the loop after the responses [p]: the test it makes. *)
Lemma haveQuorum_after p need :
  len p <= MaxInt ->
  haveQuorum (failures p) (len p) need = (need <=? successes p).
Proof.
  intros Hlen. unfold haveQuorum, GoInt.sub.
  rewrite wrap_small.
  - f_equal. pose proof (successes_failures p). lia.
  - pose proof (successes_failures p). pose proof (successes_nonneg p).
    pose proof (len_nonneg (failures p)).
    unfold is_int. rewrite MinInt_val. lia.
Qed.

End Gather.

Section GatherLoop.

Implicit Types (l p rest : list error).

Lemma len_snoc {A} (l : list A) (x : A) : len (l ++ [x]) = len l + 1.
Proof. unfold len. rewrite length_app. simpl. lia. Qed.

(** The loop from any point on: having received [p], with [n]
    iterations left and [rest] still to arrive, it stops after [k] more
    responses, at the first that brings the quorum, or else after all
    [n]. *)
Lemma gather_from n : forall p rest need,
  (n <= length rest)%nat -> len p + Z.of_nat n <= MaxInt ->
  exists k, (k <= n)%nat
    /\ gather n rest (failures p) (len p) need =
       Returns (failures (p ++ firstn k rest), len (p ++ firstn k rest))
    /\ (forall m, (1 <= m < k)%nat -> successes (p ++ firstn m rest) < need)
    /\ ((1 <= k)%nat /\ need <= successes (p ++ firstn k rest)
        \/ k = n /\ forall m, (1 <= m <= n)%nat ->
                      successes (p ++ firstn m rest) < need).
Proof.
  induction n as [|n IH]; intros p rest need Hlen Hmax.
  - exists O. simpl. rewrite app_nil_r.
    split; [lia |]. split; [reflexivity |]. split; [intros m Hm; lia |].
    right. split; [reflexivity |]. intros m Hm. lia.
  - destruct rest as [|e rest]; [simpl in Hlen; lia |]. simpl in Hlen.
    assert (Hp : len (p ++ [e]) <= MaxInt) by (rewrite len_snoc; lia).
    assert (Hgot : GoInt.add (len p) 1 = len (p ++ [e])).
    { unfold GoInt.add. rewrite len_snoc. apply wrap_small.
      pose proof (len_nonneg p). unfold is_int. rewrite MinInt_val. lia. }
    simpl. rewrite Hgot, <- failures_snoc, (haveQuorum_after _ _ Hp).
    destruct (Z.leb_spec need (successes (p ++ [e]))) as [Hq | Hq].
    + exists 1%nat. simpl. rewrite firstn_0.
      split; [lia |]. split; [reflexivity |]. split; [intros m Hm; lia |].
      left. split; [lia | exact Hq].
    + destruct (IH (p ++ [e]) rest need) as (k & Hk & Hg & Hbefore & Hend);
        [lia | rewrite len_snoc; lia |].
      exists (S k). simpl.
      assert (Hshift : forall m, (p ++ [e]) ++ firstn m rest
                                 = p ++ e :: firstn m rest)
        by (intros; now rewrite <- app_assoc).
      rewrite <- Hshift. split; [lia |]. split; [exact Hg |]. split.
      * intros [|m] Hm; [lia |]. simpl. rewrite <- Hshift.
        destruct m as [|m]; [now rewrite firstn_0, app_nil_r |].
        apply Hbefore. lia.
      * destruct Hend as [[Hk1 Hq'] | [-> Hall]]; [left; split; [lia | exact Hq'] |].
        right. split; [reflexivity |].
        intros [|m] Hm; [lia |]. simpl. rewrite <- Hshift.
        destruct m as [|m]; [now rewrite firstn_0, app_nil_r |].
        apply Hall. lia.
Qed.





End GatherLoop.

(** ** The write path *)

Section Write.

Lemma scatter_insert cs tuples w :
  (scatter cs (fun c a => clusterInsert c a) tuples w).1 =
  map (fun c => reply OpInsert c tuples) cs.
Proof.
  revert w. induction cs as [|c cs IH]; intros w; [reflexivity |].
  simpl. unfold bind at 1. unfold clusterInsert at 1, bind at 1, emit, ret.
  simpl. unfold bind at 1.
  match goal with |- context [scatter cs ?a tuples ?w1] =>
    specialize (IH w1); destruct (scatter cs a tuples w1) as [es w2]
  end.
  simpl in *. now rewrite IH.
Qed.

Lemma scatter_delete cs tuples w :
  (scatter cs (fun c a => clusterDelete c a) tuples w).1 =
  map (fun c => reply OpDelete c tuples) cs.
Proof.
  revert w. induction cs as [|c cs IH]; intros w; [reflexivity |].
  simpl. unfold bind at 1. unfold clusterDelete at 1, bind at 1, emit, ret.
  simpl. unfold bind at 1.
  match goal with |- context [scatter cs ?a tuples ?w1] =>
    specialize (IH w1); destruct (scatter cs a tuples w1) as [es w2]
  end.
  simpl in *. now rewrite IH.
Qed.

Lemma write_verdict f tuples action instr arrival w :
  tuples <> [] ->
  exists w1,
    (write f tuples action instr arrival w).1 =
    verdict (writeQuorum f)
      (gather (length (clusters f))
         (deliver (scatter (clusters f) action tuples w1).1 arrival)
         [] 0 (writeQuorum f)).
Proof.
  intros Hne. unfold write. rewrite (len_pos tuples Hne).
  unfold bind at 1. destruct (call instr w) as [[] w0].
  unfold bind at 1. destruct (recordCount instr (len tuples) w0) as [[] w1].
  exists w1. unfold bind at 1.
  destruct (scatter (clusters f) action tuples w1) as [answers w2]. simpl.
  destruct (gather _ _ _ _ _) as [[errors got] | msg |]; simpl;
    [| reflexivity | reflexivity].
  destruct (haveQuorum errors got (writeQuorum f)); simpl.
  - unfold bind. destruct (callDuration instr w2) as [[] w3].
    destruct (recordDuration instr w3) as [[] w4]. reflexivity.
  - unfold bind. destruct (quorumFailure instr w2) as [[] w3].
    destruct (callDuration instr w3) as [[] w4].
    destruct (recordDuration instr w4) as [[] w5]. reflexivity.
Qed.

Lemma perform_verdict op f tuples arrival w :
  tuples <> [] ->
  (perform op f tuples arrival w).1 =
  verdict (writeQuorum f)
    (gather (length (clusters f)) (responses op f tuples arrival)
       [] 0 (writeQuorum f)).
Proof.
  intros Hne. unfold responses. destruct op; simpl; unfold Insert, Delete.
  - destruct (write_verdict f tuples (fun c a => clusterInsert c a)
                (insertInstrumentation (instrumentation f)) arrival w Hne)
      as (w1 & ->).
    now rewrite scatter_insert.
  - destruct (write_verdict f tuples (fun c a => clusterDelete c a)
                (deleteInstrumentation (instrumentation f)) arrival w Hne)
      as (w1 & ->).
    now rewrite scatter_delete.
Qed.

Lemma omap_ext_In {A B} (g h : A -> option B) (l : list A) :
  (forall x, In x l -> g x = h x) -> omap g l = omap h l.
Proof.
  induction l as [|x l IH]; intros H; [reflexivity |].
  change (x :: l) with ([x] ++ l). rewrite !omap_app.
  rewrite IH by (intros y Hy; apply H; now right).
  f_equal. simpl. now rewrite (H x) by now left.
Qed.

Lemma deliver_in_order (answers : list error) :
  deliver answers (seq 0 (length answers)) = answers.
Proof.
  unfold deliver.
  induction answers as [|a answers IH] using rev_ind; [reflexivity |].
  rewrite length_app. simpl. rewrite Nat.add_1_r, seq_S, omap_app. simpl.
  rewrite lookup_app_r by lia. rewrite Nat.sub_diag. simpl.
  f_equal. rewrite <- IH at 2. apply omap_ext_In.
  intros i Hi. apply in_seq in Hi. apply lookup_app_l. lia.
Qed.

(** Every answer arrives, once. *)
Lemma responses_Permutation op f tuples arrival :
  allAnswer f arrival ->
  Permutation (responses op f tuples arrival)
    (map (fun c => reply op c tuples) (clusters f)).
Proof.
  unfold allAnswer, responses. intros Hperm.
  set (answers := map _ _).
  rewrite <- (deliver_in_order answers) at 2.
  unfold deliver, answers. rewrite length_map.
  now apply omap_Permutation.
Qed.

Lemma responses_length op f tuples arrival :
  allAnswer f arrival ->
  length (responses op f tuples arrival) = length (clusters f).
Proof.
  intros H. rewrite (Permutation_length (responses_Permutation op f tuples arrival H)).
  apply length_map.
Qed.

End Write.


(** Quorum scrape-through: with one cluster down and writeQuorum = 2 the
    write succeeds, and the loop has stopped after two responses when the
    two healthy clusters answer first. *)
Example quorum_scrape_through :
  let f := Build_Farm [Sample.healthy "a"; Sample.healthy "b"; Sample.broken "c"]
             2 None None None NewNoPolice NopInstrumentation in
  (Insert f [Sample.low] [1; 0; 2]%nat Sample.world0).1 = Returns None
  /\ gather 3 (responses OpInsert f [Sample.low] [1; 0; 2]%nat) [] 0 2
     = Returns ([], 2)
  /\ gather 3 (responses OpInsert f [Sample.low] [2; 0; 1]%nat) [] 0 2
     = Returns (["down c"], 3).
Proof. repeat split. Qed.


(** ** Construction *)

Section Construction.

(** A quorum that the N responses cannot reach fails the write, after
    all N have been received. *)
Lemma perform_unreachable op f tuples arrival w :
  tuples <> [] -> len (clusters f) <= MaxInt -> allAnswer f arrival ->
  len (clusters f) < writeQuorum f ->
  (perform op f tuples arrival w).1 =
  Returns (Some (noQuorum (failures (responses op f tuples arrival)))).
Proof.
  intros Hne Hmax Hall Hq.
  set (rs := responses op f tuples arrival).
  assert (Hlen : length rs = length (clusters f)) by now apply responses_length.
  assert (Hfew : forall m, successes (firstn m rs) < writeQuorum f).
  { intros m. pose proof (successes_firstn_le rs m).
    pose proof (successes_le_len rs). unfold len in *. lia. }
  destruct (gather_from (length (clusters f)) [] rs (writeQuorum f))
    as (k & Hk & Hg & _ & Hend); [lia | exact Hmax |].
  simpl in Hend.
  assert (Hk' : k = length rs).
  { destruct Hend as [[_ H] | [-> _]]; [specialize (Hfew k); lia | lia]. }
  subst k. rewrite firstn_all in Hg.
  rewrite (perform_verdict op f tuples arrival w Hne). fold rs.
  change (gather (length (clusters f)) rs [] 0 (writeQuorum f))
    with (gather (length (clusters f)) rs (failures [])
            (len ([] : list error)) (writeQuorum f)).
  rewrite Hg. simpl. rewrite haveQuorum_after.
  - specialize (Hfew (length rs)). rewrite firstn_all in Hfew.
    destruct (Z.leb_spec (writeQuorum f) (successes rs)); [lia | reflexivity].
  - unfold len in *. lia.
Qed.

Lemma New_returns clusters writeQuorum rs repairer walkerRate walkCompleted
    rp instr perm patience fuel w :
  exists strategy rep,
    (New clusters writeQuorum (Some rs) repairer walkerRate walkCompleted
       rp instr perm patience fuel w).1 =
    Returns (Build_Farm clusters writeQuorum (Some strategy) (Some rep)
               walkCompleted
               match rp with None => NewNoPolice | Some rp => rp end
               match instr with None => NopInstrumentation | Some i => i end).
Proof.
  unfold New. eexists _, _. unfold bind.
  destruct (startWalker _ _ _ _ _ _) as [steps w']. reflexivity.
Qed.

End Construction.

(** C4, as the code has it.  New checks nothing: given a read strategy it
    returns a farm for every writeQuorum, with the clusters and the
    writeQuorum it was given.  A writeQuorum above the number of clusters
    shows later: every write of a non-empty batch to that farm returns the
    error "no quorum (...)" once all clusters have answered. *)
Theorem New_keeps_any_quorum (clusters0 : list Cluster) (writeQuorum0 : Z)
    (rs : ReadStrategy) (repairer0 : option Repairer) (walkerRate : Z)
    (walkCompleted0 : option chan) (rp : option RatePolice)
    (instr0 : option Instrumentation) (perm : nat -> list nat)
    (patience fuel : nat) (w : World) :
  exists farm,
    (New clusters0 writeQuorum0 (Some rs) repairer0 walkerRate walkCompleted0
       rp instr0 perm patience fuel w).1 = Returns farm
    /\ clusters farm = clusters0
    /\ writeQuorum farm = writeQuorum0
    /\ (len clusters0 < writeQuorum0 -> len clusters0 <= MaxInt ->
        forall op tuples arrival w',
          tuples <> [] -> allAnswer farm arrival ->
          (perform op farm tuples arrival w').1 =
          Returns (Some (noQuorum (failures (responses op farm tuples arrival))))).
Proof.
  destruct (New_returns clusters0 writeQuorum0 rs repairer0 walkerRate
              walkCompleted0 rp instr0 perm patience fuel w)
    as (strategy & rep & Heq).
  eexists. split; [exact Heq |]. simpl. split; [reflexivity |].
  split; [reflexivity |].
  intros Hq Hmax op tuples arrival w' Hne Hall.
  now apply perform_unreachable.
Qed.

Lemma New_keeps_any_quorum_witness :
  exists farm,
    (New [Sample.healthy "a"] 5 (Some Sample.strategy) None 0 None None None
       Sample.always0 1 1 Sample.world0).1 = Returns farm
    /\ (Insert farm [Sample.low] [O] Sample.world0).1 =
       Returns (Some "no quorum ()").
Proof.
  destruct (New_keeps_any_quorum [Sample.healthy "a"] 5 Sample.strategy None 0
              None None None Sample.always0 1 1 Sample.world0)
    as (farm & Hnew & Hcs & Hq & Hlater).
  exists farm. split; [exact Hnew |].
  change (Insert farm [Sample.low] [O] Sample.world0)
    with (perform OpInsert farm [Sample.low] [O] Sample.world0).
  rewrite (Hlater ltac:(reflexivity) ltac:(vm_compute; discriminate)
             OpInsert [Sample.low] [O] Sample.world0 ltac:(discriminate)
             ltac:(unfold allAnswer; rewrite Hcs; apply Permutation_refl)).
  injection Hnew as <-. reflexivity.
Defined.

(** writeQuorum = 5 with a single cluster: New panics with no message,
    it returns a farm. *)
Lemma New_rejects_counterexample :
  ~ (1 <= 5 <= len [Sample.healthy "a"])
  /\ ~ exists msg,
        (New [Sample.healthy "a"] 5 (Some Sample.strategy) None 0 None None
           None Sample.always0 1 1 Sample.world0).1 = Panics msg.
Proof.
  split; [vm_compute; intros [_ H]; now apply H |].
  intros (msg & H). discriminate H.
Qed.

(** ** The walker *)

Section Trace.

Lemma extends_refl w : extends w w.
Proof. exists []. now rewrite app_nil_r. Qed.

Lemma extends_trans w1 w2 w3 : extends w1 w2 -> extends w2 w3 -> extends w1 w3.
Proof.
  intros [e1 H1] [e2 H2]. exists (e1 ++ e2). now rewrite H2, H1, app_assoc.
Qed.

Lemma since_extends w w' evs :
  history w' = history w ++ evs -> since w w' = evs.
Proof. intros H. unfold since. rewrite H. apply drop_app_length. Qed.

Lemma emit_extends e w : extends w (emit e w).2.
Proof. now exists [e]. Qed.

Lemma setProducer_extends p w : extends w (setProducer p w).2.
Proof. exists []. simpl. now rewrite app_nil_r. Qed.

Lemma setSignal_extends b w : extends w (setSignal b w).2.
Proof. exists []. simpl. now rewrite app_nil_r. Qed.

Lemma bind_extends {A B} (m : M A) (k : A -> M B) w :
  (forall w0, extends w0 (m w0).2) ->
  (forall a w0, extends w0 (k a w0).2) ->
  extends w (bind m k w).2.
Proof.
  intros Hm Hk. unfold bind. specialize (Hm w).
  destruct (m w) as [a w1]. specialize (Hk a w1).
  eapply extends_trans; eauto.
Qed.

Lemma ret_extends {A} (a : A) w : extends w (ret a w).2.
Proof. apply extends_refl. Qed.

Ltac extends_step :=
  repeat first
    [ apply bind_extends; intros
    | apply ret_extends | apply emit_extends
    | apply setProducer_extends | apply setSignal_extends
    | apply extends_refl ].

Lemma runProducer_extends f perm patience : forall w,
  extends w (runProducer f perm patience w).2.
Proof.
  induction patience as [|n IH]; intros w; [apply extends_refl |].
  simpl. apply bind_extends; [intros; apply extends_refl |].
  intros p w0. destruct (stream p); [| apply extends_refl].
  destruct (todo p) as [|i rest].
  - unfold instr, sleep. extends_step; try apply IH.
    destruct (anythingSent p); extends_step.
  - apply bind_extends; [| intros; apply IH].
    intros w1. destruct (clusters f !! i); unfold clusterKeys; extends_step.
Qed.

Lemma receiveKey_extends f perm patience w :
  extends w (receiveKey f perm patience w).2.
Proof.
  unfold receiveKey. apply bind_extends; [intros; apply extends_refl |].
  intros p w0. destruct (stream p); extends_step.
  apply runProducer_extends.
Qed.

Lemma pull_extends f perm patience n : forall keys w,
  extends w (pull f perm patience n keys w).2.
Proof.
  induction n as [|n IH]; intros keys w; [apply extends_refl |].
  simpl. apply bind_extends; [intros; apply receiveKey_extends |].
  intros [key|] w0; [apply IH | apply extends_refl].
Qed.

Lemma pull_length f perm patience n : forall keys w ks,
  (pull f perm patience n keys w).1 = Some ks ->
  length ks = (length keys + n)%nat.
Proof.
  induction n as [|n IH]; intros keys w ks; simpl.
  - intros [= <-]. lia.
  - unfold bind. destruct (receiveKey f perm patience w) as [[key|] w1];
      [| discriminate].
    intros H. apply IH in H. rewrite length_app in H. simpl in H. lia.
Qed.

Lemma forwardCompletion_extends f w : extends w (forwardCompletion f w).2.
Proof.
  unfold forwardCompletion. destruct (walkCompleted f); [| apply extends_refl].
  apply bind_extends; [intros; apply extends_refl |].
  intros [] w0; [| apply extends_refl].
  apply bind_extends; [intros; apply setSignal_extends |]. intros _ w1.
  apply bind_extends; [intros; apply extends_refl |]. intros h w2.
  destruct (ready c h); [apply emit_extends | apply extends_refl].
Qed.

End Trace.

Section Driver.

Lemma Select_extends f keys offset limit w :
  extends w (Select f keys offset limit w).2.
Proof.
  unfold Select. destruct (len keys <=? 0); [apply extends_refl |].
  apply bind_extends; [intros; apply emit_extends |]. intros _ w0.
  destruct (readStrategy f); [| apply extends_refl].
  apply bind_extends; [intros; apply emit_extends | intros; apply extends_refl].
Qed.

Lemma policeRequest_extends rp rate w : extends w (policeRequest rp rate w).2.
Proof.
  unfold policeRequest.
  apply bind_extends; [intros; apply extends_refl |]. intros h w0.
  apply bind_extends; [intros; apply emit_extends | intros; apply extends_refl].
Qed.

Lemma driverStep_extends f perm patience rate w :
  extends w (driverStep f perm patience rate w).2.
Proof.
  unfold driverStep.
  apply bind_extends; [intros; apply policeRequest_extends |].
  intros g w0. destruct (g <=? 0).
  - unfold instr, sleep.
    repeat (apply bind_extends; [intros; apply emit_extends | intros]).
    apply extends_refl.
  - apply bind_extends; [intros; apply pull_extends |].
    intros [keys|] w1; [| apply extends_refl].
    apply bind_extends; [intros; apply Select_extends |].
    intros [o | msg |] w2; try apply extends_refl;
      (apply bind_extends;
       [intros; apply forwardCompletion_extends | intros; apply extends_refl]).
Qed.

Lemma drive_extends f perm patience rate fuel : forall w,
  extends w (drive f perm patience rate fuel w).2.
Proof.
  induction fuel as [|n IH]; intros w; [apply extends_refl |].
  simpl. apply bind_extends; [intros; apply driverStep_extends |].
  intros s w0.
  destruct s; try apply extends_refl;
    (apply bind_extends; [intros; apply IH | intros; apply extends_refl]).
Qed.

(** An iteration that reached Select: the grant was positive, the batch
    has as many keys as the capped grant, and a batch that is not empty
    went through Report and the read strategy. *)
Lemma driverStep_selected f perm patience rate w keys w' :
  driverStep f perm patience rate w = (Selected keys, w') ->
  let g := grant (ratePolice f) (history w) rate in
  0 < g
  /\ length keys = Z.to_nat (capBatch rate g)
  /\ (keys <> [] ->
      exists evs completion,
        history w' =
        history w ++ Request rate g :: evs
          ++ Report (len keys) :: Read keys 0 MaxInt :: completion).
Proof.
  unfold driverStep, bind at 1, policeRequest, bind at 1, getHistory.
  unfold bind at 1, emit at 1, ret at 1. simpl.
  set (g := grant (ratePolice f) (history w) rate).
  set (w1 := {| history := history w ++ [Request rate g];
                producer := producer w; signal := signal w |}).
  destruct (Z.leb_spec g 0) as [Hg | Hg].
  - unfold instr, sleep, bind, emit, ret. simpl. discriminate.
  - unfold bind at 1.
    pose proof (pull_extends f perm patience (Z.to_nat (capBatch rate g)) [] w1)
      as [evs Hevs].
    pose proof (pull_length f perm patience (Z.to_nat (capBatch rate g)) [] w1)
      as Hlen.
    destruct (pull f perm patience (Z.to_nat (capBatch rate g)) [] w1)
      as [[ks|] w2]; [| discriminate].
    specialize (Hlen ks eq_refl). simpl in Hlen, Hevs.
    unfold bind at 1.
    pose proof (Select_history f ks 0 MaxInt w2) as Hsel.
    assert (Hnil : ks <> [] -> readStrategy f = None ->
                   (Select f ks 0 MaxInt w2).1 =
                   Panics "invalid memory address or nil pointer dereference").
    { intros Hne Hnone. unfold Select. rewrite (len_pos ks Hne), Hnone.
      reflexivity. }
    destruct (Select f ks 0 MaxInt w2) as [o w3]. simpl in Hsel, Hnil.
    pose proof (forwardCompletion_extends f w3) as [completion Hcompl].
    assert (Hdone : forall r : step,
              bind (forwardCompletion f) (fun _ => ret r) w3 =
              (r, (forwardCompletion f w3).2)).
    { intros r. unfold bind, ret. now destruct (forwardCompletion f w3). }
    destruct o as [o | msg |]; [| discriminate |];
      rewrite Hdone; intros [= -> <-];
      (split; [exact Hg |]); (split; [exact Hlen |]);
      intros Hne; exists evs, completion;
      rewrite Hcompl, (Hsel Hne), Hevs; simpl;
      (destruct (readStrategy f); [| now specialize (Hnil Hne eq_refl)]);
      rewrite <- !app_assoc; reflexivity.
Qed.

Lemma drive_S f perm patience rate n w :
  drive f perm patience rate (S n) w =
  let '(s, w0) := driverStep f perm patience rate w in
  match s with
  | Starved | Crashed _ => ([s], w0)
  | _ => let '(rest, w1) := drive f perm patience rate n w0 in (s :: rest, w1)
  end.
Proof.
  simpl. unfold bind at 1.
  destruct (driverStep f perm patience rate w) as [s w0].
  destruct s; reflexivity.
Qed.

Lemma drive_selected f perm patience rate fuel keys : forall w,
  In (Selected keys) (drive f perm patience rate fuel w).1 ->
  exists w1 w2,
    extends w w1
    /\ driverStep f perm patience rate w1 = (Selected keys, w2)
    /\ extends w2 (drive f perm patience rate fuel w).2.
Proof.
  induction fuel as [|n IH]; intros w; [intros [] |].
  rewrite drive_S.
  pose proof (driverStep_extends f perm patience rate w) as Hstep.
  destruct (driverStep f perm patience rate w) as [s w0] eqn:Es.
  simpl in Hstep.
  pose proof (drive_extends f perm patience rate n w0) as Hrest.
  specialize (IH w0).
  destruct (drive f perm patience rate n w0) as [rest w1].
  simpl in IH, Hrest.
  assert (Hgo : In (Selected keys) (s :: rest) ->
                exists wa wb, extends w wa
                  /\ driverStep f perm patience rate wa = (Selected keys, wb)
                  /\ extends wb w1).
  { intros [-> | Hin].
    - exists w, w0. split; [apply extends_refl |]. split; [exact Es | exact Hrest].
    - destruct (IH Hin) as (wa & wb & H1 & H2 & H3).
      exists wa, wb. split; [eapply extends_trans; eauto | auto]. }
  destruct s; simpl; try exact Hgo; intros [H | []]; discriminate.
Qed.

Lemma startWalker_nonzero f perm patience rate fuel w :
  rate <> 0 ->
  startWalker f perm patience rate fuel w =
  drive f perm patience rate fuel
    (runProducer f perm patience
       {| history := history w;
          producer := {| sweeps := 1; todo := perm O; stream := [];
                         anythingSent := false |};
          signal := false |}).2.
Proof.
  intros Hne. unfold startWalker.
  destruct (Z.eqb_spec rate 0) as [| _]; [contradiction |].
  unfold bind at 1, setSignal. unfold bind at 1, setProducer. simpl.
  unfold bind at 1. now destruct (runProducer _ _ _ _) as [[] w1].
Qed.

Lemma startWalker_selected f perm patience rate fuel keys w :
  In (Selected keys) (startWalker f perm patience rate fuel w).1 ->
  exists w1 w2,
    extends w w1
    /\ driverStep f perm patience rate w1 = (Selected keys, w2)
    /\ extends w2 (startWalker f perm patience rate fuel w).2.
Proof.
  destruct (Z.eq_dec rate 0) as [-> | Hne]; [intros [] |].
  rewrite (startWalker_nonzero _ _ _ _ _ _ Hne). intros Hin.
  destruct (drive_selected _ _ _ _ _ _ _ Hin) as (wa & wb & H1 & H2 & H3).
  exists wa, wb. split; [| auto].
  eapply extends_trans; [| exact H1].
  match goal with |- context [runProducer f perm patience ?w0] =>
    destruct (runProducer_extends f perm patience w0) as [evs Hrun]
  end.
  exists evs. exact Hrun.
Qed.

End Driver.

Section Safeguard.

Lemma capBatch_le_grant rate g : capBatch rate g <= g.
Proof. unfold capBatch. destruct (Z.gtb_spec g (GoInt.mul 10 rate)); lia. Qed.


Lemma capBatch_pos rate g :
  0 < rate -> 10 * rate <= MaxInt -> 0 < g -> 0 < capBatch rate g.
Proof.
  intros Hrate Hfit Hg. unfold capBatch, GoInt.mul.
  rewrite wrap_small by (unfold is_int; rewrite MinInt_val; lia).
  destruct (Z.gtb_spec g (10 * rate)); lia.
Qed.

End Safeguard.

Section Started.

Lemma New_world cs quorum rs rep walkerRate wc rp ins perm patience fuel w :
  exists farm,
    clusters farm = cs
    /\ (New cs quorum (Some rs) rep walkerRate wc rp ins perm patience fuel
          w).2 =
       (startWalker farm perm patience walkerRate fuel w).2.
Proof.
  unfold New, bind.
  match goal with |- context [startWalker ?farm _ _ _ _ _] => exists farm end.
  split; [reflexivity |].
  destruct (startWalker _ _ _ _ _ _) as [steps w']. reflexivity.
Qed.

(** The first step of the producer asks the first cluster of the sweep
    for its keys. *)
Lemma runProducer_enumerates f perm patience w i rest c :
  stream (producer w) = [] -> todo (producer w) = i :: rest ->
  clusters f !! i = Some c ->
  exists evs,
    history (runProducer f perm (S patience) w).2 =
    history w ++ ClusterKeys (cluster.name c) :: evs.
Proof.
  intros Hstream Htodo Hc. simpl.
  unfold bind at 1, getProducer. rewrite Hstream, Htodo, Hc.
  unfold bind at 1. unfold bind at 1, clusterKeys, bind at 1, emit, ret.
  simpl.
  match goal with |- context [runProducer f perm patience ?w0] =>
    destruct (runProducer_extends f perm patience w0) as [evs Hevs]
  end.
  exists evs. rewrite Hevs. simpl. now rewrite <- app_assoc.
Qed.

(** Every iteration of the driver starts with a Request. *)
Lemma driverStep_requests f perm patience rate w :
  exists g evs,
    history (driverStep f perm patience rate w).2 =
    history w ++ Request rate g :: evs.
Proof.
  unfold driverStep. unfold bind at 1, policeRequest, bind at 1, getHistory.
  unfold bind at 1, emit at 1, ret at 1. simpl.
  set (g := grant (ratePolice f) (history w) rate).
  set (w1 := {| history := history w ++ [Request rate g];
                producer := producer w; signal := signal w |}).
  assert (Hrest : extends w1
    ((if g <=? 0
      then instr KeysThrottled;;; sleep;;; ret Throttled
      else
        r <- pull f perm patience (Z.to_nat (capBatch rate g)) [];;
        match r with
        | Some keys =>
            o <- Select f keys 0 MaxInt;;
            match o with
            | Panics msg => ret (Crashed msg)
            | _ => forwardCompletion f;;; ret (Selected keys)
            end
        | None => ret Starved
        end) w1).2).
  { destruct (g <=? 0).
    - unfold instr, sleep.
      repeat (apply bind_extends; [intros; apply emit_extends | intros]).
      apply extends_refl.
    - apply bind_extends; [intros; apply pull_extends |].
      intros [keys|] w2; [| apply extends_refl].
      apply bind_extends; [intros; apply Select_extends |].
      intros [o | msg |] w3; try apply extends_refl;
        (apply bind_extends;
         [intros; apply forwardCompletion_extends | intros; apply extends_refl]). }
  destruct Hrest as [evs Hevs]. exists g, evs.
  rewrite Hevs. simpl. now rewrite <- app_assoc.
Qed.

End Started.

Section StartedLoop.

Lemma drive_requests f perm patience rate n w :
  exists g evs,
    history (drive f perm patience rate (S n) w).2 =
    history w ++ Request rate g :: evs.
Proof.
  rewrite drive_S.
  destruct (driverStep_requests f perm patience rate w) as (g & evs & Hstep).
  destruct (driverStep f perm patience rate w) as [s w0]. simpl in Hstep.
  destruct (drive_extends f perm patience rate n w0) as [more Hmore].
  destruct (drive f perm patience rate n w0) as [steps w1]. simpl in Hmore.
  exists g.
  destruct s; simpl;
    try (exists evs; exact Hstep);
    exists (evs ++ more); rewrite Hmore, Hstep, <- app_assoc; reflexivity.
Qed.

End StartedLoop.

(** C6, as the code has it.  The walker is switched off by walkerRate = 0
    and by nothing else.  With walkerRate = 0 construction leaves the
    world as it was: no key enumeration, no Select, no call at all.  With
    any other walkerRate, negative ones included, the key producer is
    started and asks the first cluster of its sweep for its keys, and the
    driver is started and calls Request(walkerRate). *)
Theorem walker_started_unless_zero (cs : list Cluster) (quorum : Z)
    (rs : ReadStrategy) (rep : option Repairer) (wc : option chan)
    (rp : option RatePolice) (ins : option Instrumentation)
    (perm : nat -> list nat) :
  (forall patience fuel w,
     (New cs quorum (Some rs) rep 0 wc rp ins perm patience fuel w).2 = w)
  /\ forall walkerRate, walkerRate <> 0 ->
       forall patience fuel w i rest c,
         perm O = i :: rest -> cs !! i = Some c ->
         let w' := (New cs quorum (Some rs) rep walkerRate wc rp ins perm
                      (S patience) (S fuel) w).2 in
         In (ClusterKeys (cluster.name c)) (since w w')
         /\ exists granted, In (Request walkerRate granted) (since w w').
Proof.
  split; [reflexivity |].
  intros walkerRate Hne patience fuel w i rest c Hperm Hc w'. subst w'.
  destruct (New_world cs quorum rs rep walkerRate wc rp ins perm (S patience)
              (S fuel) w) as (farm & Hcs & ->).
  rewrite (startWalker_nonzero _ _ _ _ _ _ Hne).
  set (w0 := {| history := history w;
                producer := {| sweeps := 1; todo := perm O; stream := [];
                               anythingSent := false |};
                signal := false |}).
  destruct (runProducer_enumerates farm perm patience w0 i rest c)
    as (evs & Hrun); [reflexivity | exact Hperm | now rewrite Hcs |].
  change (history w0) with (history w) in Hrun.
  set (w1 := (runProducer farm perm (S patience) w0).2) in *.
  destruct (drive_requests farm perm (S patience) walkerRate fuel w1)
    as (g & more & Hdrive).
  set (w2 := (drive farm perm (S patience) walkerRate (S fuel) w1).2) in *.
  rewrite Hrun, <- app_assoc in Hdrive.
  rewrite (since_extends _ _ _ Hdrive).
  split; [now left |].
  exists g. right. apply in_or_app. right. now left.
Qed.

Lemma walker_started_unless_zero_witness :
  let w' := (New [Sample.healthy "a"] 1 (Some Sample.strategy) None (-1) None
               None None Sample.always0 1 1 Sample.world0).2 in
  In (ClusterKeys "a") (since Sample.world0 w')
  /\ exists granted, In (Request (-1) granted) (since Sample.world0 w').
Proof.
  exact (proj2 (walker_started_unless_zero [Sample.healthy "a"] 1
                  Sample.strategy None None None None Sample.always0)
           (-1) ltac:(discriminate) O O Sample.world0 O [] (Sample.healthy "a")
           eq_refl eq_refl).
Defined.

(** walkerRate = -1: the producer asks cluster "a" for its keys. *)
Lemma walker_disabled_counterexample :
  -1 <= 0
  /\ ~ idle (history (New [Sample.healthy "a"] 1 (Some Sample.strategy) None
                        (-1) None None None Sample.always0 1 2
                        Sample.world0).2).
Proof.
  split; [lia |]. intros H.
  refine (H (ClusterKeys "a") _). vm_compute. left. reflexivity.
Qed.

(** ** Tuple sets *)

Section TupleSets.

Implicit Types (s other : tupleSet) (t u : KeyScoreMember).
Implicit Types (a : list KeyScoreMember).

Lemma range_app {V} (m1 m2 : @gomap KeyScoreMember V) :
  range (m1 ++ m2) = range m1 ++ range m2.
Proof. unfold range. apply map_app. Qed.

(** What [s[tuple] = struct{}{}] does to the entries. *)
Lemma add_cases s t :
  (TupleSet.has s t = false
   /\ (forall k, In k (range s) -> ksm_eqb t k = false)
   /\ TupleSet.add s t = s ++ [(t, tt)])
  \/ (TupleSet.has s t = true
      /\ exists m1 k0 m2,
           s = m1 ++ (k0, tt) :: m2 /\ ksm_eqb t k0 = true
           /\ TupleSet.add s t = m1 ++ (t, tt) :: m2).
Proof.
  unfold TupleSet.has, TupleSet.add.
  destruct (index ksm_eqb s t) as [[]|] eqn:E.
  - right. split; [reflexivity |].
    destruct (index_Some _ _ _ _ E) as (m1 & k0 & m2 & Hs & Hk & _ & Hassign).
    exists m1, k0, m2. auto.
  - left. split; [reflexivity |]. split.
    + now apply index_None.
    + now apply assign_fresh.
Qed.

Lemma has_add s t u :
  TupleSet.has (TupleSet.add s t) u = TupleSet.has s u || ksm_eqb u t.
Proof.
  apply eq_true_iff_eq. rewrite orb_true_iff, !has_true.
  destruct (add_cases s t) as [(_ & _ & ->) | (_ & m1 & k0 & m2 & -> & Hk & ->)].
  - rewrite range_app. simpl. split.
    + intros (k & Hin & Hu). apply in_app_or in Hin as [Hin | [<- | []]]; eauto.
    + intros [(k & Hin & Hu) | Hu].
      * exists k. split; [apply in_or_app; now left | exact Hu].
      * exists t. split; [apply in_or_app; right; now left | exact Hu].
  - rewrite !range_app. simpl. split.
    + intros (k & Hin & Hu). apply in_app_or in Hin as [Hin | [<- | Hin]].
      * left. exists k. split; [apply in_or_app; now left | exact Hu].
      * now right.
      * left. exists k. split; [apply in_or_app; right; now right | exact Hu].
    + intros [(k & Hin & Hu) | Hu].
      * apply in_app_or in Hin as [Hin | [<- | Hin]].
        -- exists k. split; [apply in_or_app; now left | exact Hu].
        -- exists t. split; [apply in_or_app; right; now left |].
           apply (ksm_eqb_trans _ k0); [exact Hu |].
           now rewrite ksm_eqb_sym.
        -- exists k. split; [apply in_or_app; right; now right | exact Hu].
      * exists t. split; [apply in_or_app; right; now left | exact Hu].
Qed.

Lemma add_wellFormed s t : wellFormed s -> wellFormed (TupleSet.add s t).
Proof.
  unfold wellFormed.
  destruct (add_cases s t) as [(_ & Hfresh & ->) | (_ & m1 & k0 & m2 & -> & Hk & ->)].
  - intros Hs. apply distinct_app. split; [exact Hs |]. split.
    + constructor; [intros k' [] | constructor].
    + intros k1 k2 H1 [<- | []]. rewrite ksm_eqb_sym. now apply Hfresh.
  - rewrite !distinct_app. intros (H1 & H2 & Hcross).
    inversion H2 as [| k v m Hk0 Hm2]; subst.
    split; [exact H1 |]. split.
    + constructor; [| exact Hm2]. intros k' Hin.
      destruct (ksm_eqb t k') eqn:E; [| reflexivity].
      rewrite <- (Hk0 k' Hin). symmetry.
      apply (ksm_eqb_trans _ t); [now rewrite ksm_eqb_sym | exact E].
    + intros k1 k2 Hin1 [<- | Hin2]; simpl.
      * destruct (ksm_eqb k1 t) eqn:E; [| reflexivity].
        rewrite <- (Hcross k1 k0 Hin1 (or_introl eq_refl)). symmetry.
        now apply (ksm_eqb_trans _ t).
      * apply Hcross; [exact Hin1 | now right].
Qed.

Lemma add_length s t :
  length (TupleSet.add s t) =
  if TupleSet.has s t then length s else S (length s).
Proof.
  destruct (add_cases s t) as [(-> & _ & ->) | (-> & m1 & k0 & m2 & -> & _ & ->)].
  - rewrite length_app. simpl. lia.
  - rewrite !length_app. reflexivity.
Qed.

Lemma has_among s t : TupleSet.has s t = among t (range s).
Proof.
  apply eq_true_iff_eq. rewrite has_true. unfold among.
  rewrite existsb_exists. reflexivity.
Qed.

Lemma has_nan s t : is_nan (common.Score t) = true -> TupleSet.has s t = false.
Proof.
  intros Hnan. destruct (TupleSet.has s t) eqn:E; [| reflexivity].
  apply has_true in E as (k & _ & Hk). apply ksm_eqb_self in Hk.
  apply ksm_eqb_true in Hk as (_ & Hk & _). apply feq_not_nan in Hk.
  destruct Hk as [Hk _]. congruence.
Qed.

Lemma fold_add_has a : forall s u,
  TupleSet.has (fold_left TupleSet.add a s) u = TupleSet.has s u || among u a.
Proof.
  induction a as [|t a IH]; intros s u; simpl.
  - now rewrite orb_false_r.
  - rewrite IH, has_add. now rewrite orb_assoc.
Qed.

Lemma fold_add_wellFormed a : forall s,
  wellFormed s -> wellFormed (fold_left TupleSet.add a s).
Proof.
  induction a as [|t a IH]; intros s Hs; simpl; [exact Hs |].
  apply IH. now apply add_wellFormed.
Qed.

Lemma fold_add_length a : forall s,
  (length s <= length (fold_left TupleSet.add a s) <= length s + length a)%nat.
Proof.
  induction a as [|t a IH]; intros s; simpl; [lia |].
  specialize (IH (TupleSet.add s t)). rewrite add_length in IH.
  destruct (TupleSet.has s t); lia.
Qed.

End TupleSets.

(** X1.  Insert then look up: after [s.add(t)] the set has [u] exactly
    when it had [u] before or [u] is Go-equal to [t]; nothing else
    changes. *)
Theorem tupleSet_add_then_has (s : tupleSet) (t u : KeyScoreMember) :
  TupleSet.has (TupleSet.add s t) u = TupleSet.has s u || ksm_eqb u t.
Proof. apply has_add. Qed.

(** X2.  A tuple whose score is NaN equals no map key, itself included:
    [s.add(t)] always makes a new entry for it, and [s.has(t)] is false
    even right after the add. *)
Theorem tupleSet_add_NaN (s : tupleSet) (t : KeyScoreMember) :
  is_nan (common.Score t) = true ->
  TupleSet.has (TupleSet.add s t) t = false
  /\ length (TupleSet.add s t) = S (length s).
Proof.
  intros Hnan. split; [now apply has_nan |].
  rewrite add_length. now rewrite has_nan.
Qed.

Lemma tupleSet_add_NaN_witness :
  let t := {| common.Key := "k"; common.Score := S754_nan;
              common.Member := "m" |} in
  TupleSet.has (TupleSet.add [(t, tt)] t) t = false
  /\ length (TupleSet.add [(t, tt)] t) = 2%nat.
Proof.
  exact (tupleSet_add_NaN
           [({| common.Key := "k"; common.Score := S754_nan;
                common.Member := "m" |}, tt)]
           {| common.Key := "k"; common.Score := S754_nan;
              common.Member := "m" |} eq_refl).
Defined.

(** X3.  Adding a tuple the set already has is idempotent: the set keeps
    its size and answers every [has] as before. *)
Theorem tupleSet_add_idempotent (s : tupleSet) (t : KeyScoreMember) :
  TupleSet.has s t = true ->
  length (TupleSet.add s t) = length s
  /\ forall u, TupleSet.has (TupleSet.add s t) u = TupleSet.has s u.
Proof.
  intros Hhas. split; [now rewrite add_length, Hhas |].
  intros u. rewrite has_add.
  destruct (ksm_eqb u t) eqn:E; [| apply orb_false_r].
  rewrite orb_true_r. symmetry. apply has_true.
  apply has_true in Hhas as (k & Hin & Hk).
  exists k. split; [exact Hin |]. now apply (ksm_eqb_trans _ t).
Qed.

Lemma tupleSet_add_idempotent_witness :
  length (TupleSet.add [(Sample.low, tt)] Sample.low) = 1%nat
  /\ forall u, TupleSet.has (TupleSet.add [(Sample.low, tt)] Sample.low) u
               = TupleSet.has [(Sample.low, tt)] u.
Proof.
  exact (tupleSet_add_idempotent [(Sample.low, tt)] Sample.low eq_refl).
Defined.

(** X4.  [makeSet(a)] has a tuple exactly when some element of [a] is
    Go-equal to it; its entries are pairwise different and no more than
    [len(a)]. *)
Theorem makeSet_has (a : list KeyScoreMember) :
  (forall t, TupleSet.has (TupleSet.makeSet a) t = among t a)
  /\ wellFormed (TupleSet.makeSet a)
  /\ (length (TupleSet.slice (TupleSet.makeSet a)) <= length a)%nat.
Proof.
  unfold TupleSet.makeSet. split; [| split].
  - intros t. now rewrite fold_add_has.
  - apply fold_add_wellFormed. constructor.
  - unfold TupleSet.slice, range. rewrite length_map.
    apply (fold_add_length a []).
Qed.

(** X5.  [s.addMany(other)] is the union: afterwards [s] has a tuple
    exactly when [s] or [other] had it. *)
Theorem tupleSet_addMany_union (s other : tupleSet) (t : KeyScoreMember) :
  TupleSet.has (TupleSet.addMany s other) t =
  TupleSet.has s t || TupleSet.has other t.
Proof.
  unfold TupleSet.addMany. now rewrite fold_add_has, <- has_among.
Qed.

(** ** Key-member sets *)

Lemma foldl_km_add (l : list keyMember) : forall s : keyMemberSet,
  foldl KeyMemberSet.add s l = list_to_set l ∪ s.
Proof.
  induction l as [|km l IH]; intros s; simpl.
  - apply set_eq. intros x. rewrite elem_of_union, elem_of_empty. tauto.
  - rewrite IH. unfold KeyMemberSet.add. apply set_eq. intros x.
    rewrite !elem_of_union. tauto.
Qed.

Lemma km_addMany_union (s other : keyMemberSet) :
  KeyMemberSet.addMany s other = other ∪ s.
Proof.
  unfold KeyMemberSet.addMany. rewrite foldl_km_add.
  now rewrite list_to_set_elements_L.
Qed.

(** X6.  [s.addMany(other)] on key-member sets is the union, and the
    slice of the result lists each of its pairs once: a pair is in the
    slice exactly when it was in [s] or in [other]. *)
Theorem keyMemberSet_addMany_slice (s other : keyMemberSet) :
  NoDup (keyMemberSlice (KeyMemberSet.addMany s other))
  /\ forall km, In km (keyMemberSlice (KeyMemberSet.addMany s other))
                <-> km ∈ s \/ km ∈ other.
Proof.
  unfold keyMemberSlice. rewrite km_addMany_union. split.
  - apply NoDup_elements.
  - intros km. rewrite <- list_elem_of_In, elem_of_elements, elem_of_union.
    tauto.
Qed.

(** ** Ordered, limited slices *)

Section OrderedSlice.

Variable sortTuples : list KeyScoreMember -> list KeyScoreMember.

Lemma orderedLimitedSlice_negative (s : tupleSet) limit :
  limit < 0 ->
  orderedLimitedSlice sortTuples s limit = Panics "slice bounds out of range".
Proof.
  intros Hneg. unfold orderedLimitedSlice.
  pose proof (len_nonneg (sortTuples (TupleSet.slice s))) as Hlen.
  destruct (Z.gtb_spec (len (sortTuples (TupleSet.slice s))) limit); [| lia].
  destruct (Z.ltb_spec limit 0); [reflexivity | lia].
Qed.

Hypothesis sort_permutes : forall l, Permutation (sortTuples l) l.

Lemma orderedLimitedSlice_prefix (s : tupleSet) limit :
  0 <= limit ->
  orderedLimitedSlice sortTuples s limit =
  Returns (firstn (Z.to_nat limit) (sortTuples (TupleSet.slice s))).
Proof.
  intros Hpos. unfold orderedLimitedSlice.
  set (a := sortTuples (TupleSet.slice s)).
  destruct (Z.gtb_spec (len a) limit).
  - destruct (Z.ltb_spec limit 0); [lia | reflexivity].
  - f_equal. symmetry. apply firstn_all2. unfold len in *. lia.
Qed.

End OrderedSlice.

Lemma insertByScore_Permutation t l : Permutation (insertByScore t l) (t :: l).
Proof.
  induction l as [|u l IH]; simpl; [reflexivity |].
  destruct (fgt (common.Score u) (common.Score t)); [| reflexivity].
  rewrite IH. apply perm_swap.
Qed.

Lemma sortByScore_Permutation l : Permutation (sortByScore l) l.
Proof.
  induction l as [|t l IH]; simpl; [reflexivity |].
  rewrite insertByScore_Permutation. now constructor.
Qed.

(** X7.  [s.orderedLimitedSlice(limit)] panics for every negative limit,
    whatever the set holds (an empty set included): [len(a) > limit] is
    true and [a[:limit]] is out of bounds. *)
Theorem orderedLimitedSlice_panics
    (sortTuples : list KeyScoreMember -> list KeyScoreMember)
    (s : tupleSet) (limit : Z) :
  limit < 0 ->
  orderedLimitedSlice sortTuples s limit = Panics "slice bounds out of range".
Proof. apply orderedLimitedSlice_negative. Qed.

Lemma orderedLimitedSlice_panics_witness :
  orderedLimitedSlice sortByScore [] (-1) = Panics "slice bounds out of range".
Proof.
  exact (orderedLimitedSlice_panics sortByScore [] (-1) ltac:(lia)).
Defined.

(** X8.  For a limit that is not negative, and a sort that permutes its
    argument, [s.orderedLimitedSlice(limit)] returns the first [limit]
    tuples of the sorted slice: min(limit, len(s)) tuples, each of them an
    entry of [s]. *)
Theorem orderedLimitedSlice_limit
    (sortTuples : list KeyScoreMember -> list KeyScoreMember)
    (s : tupleSet) (limit : Z) :
  (forall l, Permutation (sortTuples l) l) ->
  0 <= limit ->
  exists a,
    orderedLimitedSlice sortTuples s limit = Returns a
    /\ a = firstn (Z.to_nat limit) (sortTuples (TupleSet.slice s))
    /\ len a = Z.min limit (len s)
    /\ forall t, In t a -> In t (TupleSet.slice s).
Proof.
  intros Hperm Hpos. eexists. split; [now apply orderedLimitedSlice_prefix |].
  split; [reflexivity |]. split.
  - unfold len. rewrite length_firstn, (Permutation_length (Hperm _)).
    unfold TupleSet.slice, range. rewrite length_map. lia.
  - intros t Hin. apply (Permutation_in _ (Hperm _)).
    rewrite <- (firstn_skipn (Z.to_nat limit)). apply in_or_app. now left.
Qed.

Lemma orderedLimitedSlice_limit_witness :
  exists a,
    orderedLimitedSlice sortByScore [(Sample.low, tt); (Sample.high, tt)] 1
    = Returns a
    /\ a = firstn (Z.to_nat 1)
             (sortByScore (TupleSet.slice [(Sample.low, tt); (Sample.high, tt)]))
    /\ len a = Z.min 1 (len [(Sample.low, tt); (Sample.high, tt)])
    /\ forall t, In t a ->
         In t (TupleSet.slice [(Sample.low, tt); (Sample.high, tt)]).
Proof.
  exact (orderedLimitedSlice_limit sortByScore
           [(Sample.low, tt); (Sample.high, tt)] 1
           sortByScore_Permutation ltac:(lia)).
Defined.

(** ** Agreement of the inputs *)

Section Agreement.

Implicit Types (tupleSets : list tupleSet) (t : KeyScoreMember).

Lemma length_filter_all {A} (p : A -> bool) (l : list A) :
  length (List.filter p l) = length l <-> forall x, In x l -> p x = true.
Proof.
  induction l as [|x l IH]; simpl; [tauto |].
  pose proof (length_filter_le p l) as Hle.
  destruct (p x) eqn:E; simpl.
  - split.
    + intros H y [<- | Hin]; [exact E | apply IH; [lia | exact Hin]].
    + intros H. f_equal. apply IH. auto.
  - split; [lia |]. intros H. rewrite H in E by now left. discriminate.
Qed.

Lemma holders_all tupleSets t :
  holders tupleSets t = len tupleSets <->
  forall s, In s tupleSets -> TupleSet.has s t = true.
Proof.
  unfold holders, len. rewrite <- length_filter_all. lia.
Qed.

Lemma length_filter_Permutation {A} (p : A -> bool) (l l' : list A) :
  Permutation l l' -> length (List.filter p l) = length (List.filter p l').
Proof.
  induction 1 as [| x l l' _ IH | x y l | l l' l'' _ IH1 _ IH2]; simpl.
  - reflexivity.
  - destruct (p x); simpl; now rewrite IH.
  - destruct (p x), (p y); reflexivity.
  - now rewrite IH1.
Qed.

Lemma holders_Permutation tupleSets tupleSets' t :
  Permutation tupleSets tupleSets' ->
  holders tupleSets t = holders tupleSets' t.
Proof.
  intros H. unfold holders, len.
  now rewrite (length_filter_Permutation _ _ _ H).
Qed.

Lemma recorded_Permutation tupleSets tupleSets' t :
  Permutation tupleSets tupleSets' ->
  recorded tupleSets t -> recorded tupleSets' t.
Proof.
  intros H (s & Hin & Ht). exists s. split; [| exact Ht].
  now apply (Permutation_in _ H).
Qed.

Lemma union_has_pair tupleSets t :
  recorded tupleSets t ->
  exists u, In u (TupleSet.slice (unionDifference tupleSets).1)
            /\ km_of u = km_of t.
Proof.
  intros Hrec. rewrite union_slice.
  pose proof (recordScore_inv (flatten tupleSets) (km_of t)) as Hinv.
  destruct (fold_left recordScore (flatten tupleSets) ∅ !! km_of t)
    as [score|] eqn:E.
  - exists (bestTuple (km_of t, score)). split; [| apply km_of_bestTuple].
    apply in_map. apply list_elem_of_In. now apply elem_of_map_to_list.
  - exfalso. apply (Hinv t); [now apply in_flatten | reflexivity].
Qed.

End Agreement.

(** X9.  The difference is empty exactly when the inputs agree: for
    inputs that are Go maps without NaN scores, [unionDifference] returns
    an empty difference if and only if every tuple of any input is held
    by every input. *)
Theorem difference_empty_iff_agreement (tupleSets : list tupleSet) :
  Forall wellFormed tupleSets -> Forall noNaN tupleSets ->
  len tupleSets <= MaxInt ->
  (unionDifference tupleSets).2 = ∅ <->
  forall t, recorded tupleSets t ->
    forall s, In s tupleSets -> TupleSet.has s t = true.
Proof.
  intros Hwf Hnan Hlen. split.
  - intros Hempty t Hrec. apply holders_all.
    pose proof (holders_le_len tupleSets t) as Hle.
    destruct (Z.eq_dec (holders tupleSets t) (len tupleSets)) as [|Hne];
      [assumption |].
    exfalso. apply (not_elem_of_empty (C := gset keyMember) (km_of t)).
    rewrite <- Hempty. apply difference_holders; try assumption.
    exists t. split; [exact Hrec |]. split; [reflexivity | lia].
  - intros Hall. apply set_eq. intros km. split.
    + intros Hin. apply difference_holders in Hin as (t & Hrec & _ & Hlt);
        try assumption.
      pose proof (proj2 (holders_all tupleSets t) (Hall t Hrec)). lia.
    + intros Hin. now apply not_elem_of_empty in Hin.
Qed.

Lemma difference_empty_iff_agreement_witness :
  (unionDifference [ [(Sample.low, tt)]; [(Sample.low, tt)] ]).2 = ∅ <->
  forall t, recorded [ [(Sample.low, tt)]; [(Sample.low, tt)] ] t ->
    forall s, In s [ [(Sample.low, tt)]; [(Sample.low, tt)] ] ->
      TupleSet.has s t = true.
Proof.
  apply (difference_empty_iff_agreement
           [ [(Sample.low, tt)]; [(Sample.low, tt)] ]).
  - repeat constructor; simpl; intros k' H;
      repeat (destruct H as [<- | H]; [reflexivity |]); destruct H.
  - repeat constructor; intros t Hin; simpl in Hin;
      repeat (destruct Hin as [<- | Hin]; [reflexivity |]); destruct Hin.
  - vm_compute. discriminate.
Defined.

(** X10.  Every pair of the difference is a pair of the union: for each
    (key, member) that [unionDifference] reports as disagreeing, the
    returned union holds a tuple with that key and member. *)
Theorem difference_within_union (tupleSets : list tupleSet) (km : keyMember) :
  Forall wellFormed tupleSets -> Forall noNaN tupleSets ->
  len tupleSets <= MaxInt ->
  km ∈ (unionDifference tupleSets).2 ->
  exists u, In u (TupleSet.slice (unionDifference tupleSets).1)
            /\ km_of u = km.
Proof.
  intros Hwf Hnan Hlen Hin.
  apply difference_holders in Hin as (t & Hrec & <- & _); try assumption.
  now apply union_has_pair.
Qed.

Lemma difference_within_union_witness :
  exists u, In u (TupleSet.slice (unionDifference Sample.partial).1)
            /\ km_of u = km_of Sample.other.
Proof.
  apply (difference_within_union Sample.partial (km_of Sample.other)).
  - repeat constructor; simpl; intros k' H;
      repeat (destruct H as [<- | H]; [reflexivity |]); destruct H.
  - repeat constructor; intros t Hin; simpl in Hin;
      repeat (destruct Hin as [<- | Hin]; [reflexivity |]); destruct Hin.
  - vm_compute. discriminate.
  - vm_compute. reflexivity.
Defined.

(** X11.  The difference does not depend on the order of the inputs:
    permuting the list of input sets (Go maps without NaN scores) gives
    the same difference. *)
Theorem difference_order_independent (tupleSets tupleSets' : list tupleSet) :
  Forall wellFormed tupleSets -> Forall noNaN tupleSets ->
  len tupleSets <= MaxInt ->
  Permutation tupleSets tupleSets' ->
  (unionDifference tupleSets).2 = (unionDifference tupleSets').2.
Proof.
  intros Hwf Hnan Hlen Hperm.
  assert (Hwf' : Forall wellFormed tupleSets')
    by now apply (Permutation_Forall Hperm).
  assert (Hnan' : Forall noNaN tupleSets')
    by now apply (Permutation_Forall Hperm).
  assert (Hlen' : len tupleSets' = len tupleSets)
    by (unfold len; now rewrite (Permutation_length Hperm)).
  apply set_eq. intros km.
  rewrite !difference_holders by (try assumption; lia).
  rewrite Hlen'. split; intros (t & Hrec & Hkm & Hlt); exists t.
  - split; [now apply (recorded_Permutation tupleSets) |].
    split; [exact Hkm |]. now rewrite <- (holders_Permutation _ _ _ Hperm).
  - split; [apply (recorded_Permutation tupleSets'); [now symmetry | exact Hrec] |].
    split; [exact Hkm |]. now rewrite (holders_Permutation _ _ _ Hperm).
Qed.

Lemma difference_order_independent_witness :
  (unionDifference Sample.partial).2 =
  (unionDifference [ [(Sample.low, tt)]; [(Sample.low, tt); (Sample.other, tt)] ]).2.
Proof.
  apply (difference_order_independent Sample.partial).
  - repeat constructor; simpl; intros k' H;
      repeat (destruct H as [<- | H]; [reflexivity |]); destruct H.
  - repeat constructor; intros t Hin; simpl in Hin;
      repeat (destruct Hin as [<- | Hin]; [reflexivity |]); destruct Hin.
  - vm_compute. discriminate.
  - apply perm_swap.
Defined.

(** ** The trace of a write *)

Section WriteTrace.

Implicit Types (cs : list Cluster) (tuples : list KeyScoreMember).

Lemma scatter_run op cs tuples : forall w,
  scatter cs
    match op with
    | OpInsert => fun c a => clusterInsert c a
    | OpDelete => fun c a => clusterDelete c a
    end tuples w =
  (map (fun c => reply op c tuples) cs,
   {| history := history w ++ map (clusterCall op tuples) cs;
      producer := producer w;
      signal := signal w |}).
Proof.
  induction cs as [|c cs IH]; intros w.
  - simpl. unfold ret. rewrite app_nil_r. now destruct w.
  - simpl. unfold bind at 1.
    destruct op; unfold clusterInsert, clusterDelete, bind at 1, emit, ret;
      simpl; unfold bind at 1; rewrite IH; simpl;
      now rewrite <- app_assoc.
Qed.

Lemma perform_run op f tuples arrival w :
  tuples <> [] ->
  let o := verdict (writeQuorum f)
             (gather (length (clusters f)) (responses op f tuples arrival)
                [] 0 (writeQuorum f)) in
  perform op f tuples arrival w =
  (o, {| history := history w ++ opening op (len tuples)
                      ++ map (clusterCall op tuples) (clusters f)
                      ++ closing op o;
         producer := producer w;
         signal := signal w |}).
Proof.
  intros Hne. unfold responses.
  destruct op; unfold perform, Insert, Delete, write;
    rewrite (len_pos tuples Hne); unfold bind; simpl.
  - rewrite (scatter_run OpInsert). simpl.
    destruct (gather _ _ _ _ _) as [[errors got] | msg |]; simpl;
      [| now rewrite ?app_nil_r, <- ?app_assoc
       | now rewrite ?app_nil_r, <- ?app_assoc].
    destruct (haveQuorum errors got (writeQuorum f)); simpl;
      now rewrite <- ?app_assoc.
  - rewrite (scatter_run OpDelete). simpl.
    destruct (gather _ _ _ _ _) as [[errors got] | msg |]; simpl;
      [| now rewrite ?app_nil_r, <- ?app_assoc
       | now rewrite ?app_nil_r, <- ?app_assoc].
    destruct (haveQuorum errors got (writeQuorum f)); simpl;
      now rewrite <- ?app_assoc.
Qed.

End WriteTrace.

(** ** Responses that never arrive *)

Section GatherPartial.

Implicit Types (p rest : list error).

Lemma gather_step p e rest n need :
  len p + Z.of_nat (S n) <= MaxInt ->
  gather (S n) (e :: rest) (failures p) (len p) need =
  if need <=? successes (p ++ [e])
  then Returns (failures (p ++ [e]), len (p ++ [e]))
  else gather n rest (failures (p ++ [e])) (len (p ++ [e])) need.
Proof.
  intros Hmax.
  assert (Hp : len (p ++ [e]) <= MaxInt) by (rewrite len_snoc; lia).
  assert (Hgot : GoInt.add (len p) 1 = len (p ++ [e])).
  { unfold GoInt.add. rewrite len_snoc. apply wrap_small.
    pose proof (len_nonneg p). unfold is_int. rewrite MinInt_val. lia. }
  simpl. now rewrite Hgot, <- failures_snoc, (haveQuorum_after _ _ Hp).
Qed.

Lemma app_snoc_firstn p e rest m :
  (p ++ [e]) ++ firstn m rest = p ++ firstn (S m) (e :: rest).
Proof. simpl. now rewrite <- app_assoc. Qed.

(** The quorum is there once [k] responses are in: the loop returns at
    the first response that brings it, and never asks for those that
    come later. *)
Lemma gather_reaches n : forall p rest need k,
  (1 <= k <= n)%nat -> (k <= length rest)%nat ->
  len p + Z.of_nat n <= MaxInt ->
  need <= successes (p ++ firstn k rest) ->
  exists j, (1 <= j <= k)%nat
    /\ gather n rest (failures p) (len p) need =
       Returns (failures (p ++ firstn j rest), len (p ++ firstn j rest))
    /\ need <= successes (p ++ firstn j rest).
Proof.
  induction n as [|n IH]; intros p rest need k Hk Hlen Hmax Hq; [lia |].
  destruct rest as [|e rest]; [simpl in Hlen; lia |]. simpl in Hlen.
  rewrite (gather_step _ _ _ _ _ Hmax).
  destruct (Z.leb_spec need (successes (p ++ [e]))) as [Hnow | Hlater].
  - exists 1%nat. rewrite <- app_snoc_firstn, firstn_0, app_nil_r.
    split; [lia |]. split; [reflexivity | exact Hnow].
  - destruct k as [|k]; [lia |]. rewrite <- app_snoc_firstn in Hq.
    destruct k as [|k]; [rewrite firstn_0, app_nil_r in Hq; lia |].
    destruct (IH (p ++ [e]) rest need (S k)) as (j & Hj & Hg & Hqj);
      [lia | lia | rewrite len_snoc; lia | exact Hq |].
    exists (S j). rewrite <- app_snoc_firstn.
    split; [lia |]. split; [exact Hg | exact Hqj].
Qed.

(** Fewer responses than clusters, and no quorum among them: the loop
    waits for a response that never comes. *)
Lemma gather_blocks n : forall p rest need,
  (length rest < n)%nat -> len p + Z.of_nat n <= MaxInt ->
  (forall m, (1 <= m <= length rest)%nat ->
     successes (p ++ firstn m rest) < need) ->
  gather n rest (failures p) (len p) need = Blocks.
Proof.
  induction n as [|n IH]; intros p rest need Hlen Hmax Hq; [lia |].
  destruct rest as [|e rest]; [reflexivity |]. simpl in Hlen.
  rewrite (gather_step _ _ _ _ _ Hmax).
  destruct (Z.leb_spec need (successes (p ++ [e]))) as [Hnow | Hlater].
  - specialize (Hq 1%nat). simpl in Hq. rewrite firstn_0 in Hq. lia.
  - apply IH; [lia | rewrite len_snoc; lia |].
    intros m Hm. rewrite app_snoc_firstn. apply Hq. simpl. lia.
Qed.

Lemma verdict_quorum (q : list error) need :
  len q <= MaxInt -> need <= successes q ->
  verdict need (Returns (failures q, len q)) = Returns None.
Proof.
  intros Hmax Hq. simpl. rewrite (haveQuorum_after _ _ Hmax).
  destruct (Z.leb_spec need (successes q)); [reflexivity | lia].
Qed.

End GatherPartial.

Lemma filter_calls op tuples (cs : list Cluster) :
  List.filter isInstr (map (clusterCall op tuples) cs) = []
  /\ List.filter isClusterCall (map (clusterCall op tuples) cs)
     = map (clusterCall op tuples) cs.
Proof.
  induction cs as [|c cs [IH1 IH2]]; [now split |].
  destruct op; simpl; now rewrite IH1, IH2.
Qed.

Lemma filter_opening op n :
  List.filter isInstr (opening op n) = opening op n
  /\ List.filter isClusterCall (opening op n) = [].
Proof. now destruct op. Qed.

Lemma filter_closing op (o : outcome error) :
  List.filter isInstr (closing op o) = closing op o
  /\ List.filter isClusterCall (closing op o) = [].
Proof. destruct op, o as [[msg|] | msg |]; now split. Qed.

(** X12.  What a write of a non-empty batch calls, whatever order the
    scatter goroutines run in.  On the clusters: [action] with the whole
    batch, once for every cluster of the farm and nothing else (no
    cluster is left out once the quorum is reached; Insert only calls
    Insert and Delete only Delete).  On the instrumentation, in this
    order: call, record count, the quorum failure exactly when an error
    is returned, call duration, record duration; a write that blocks
    stops after the record count. *)
Theorem write_calls_every_cluster (op : writeOp) (f : Farm)
    (tuples : list KeyScoreMember) (arrival : list nat) (w : World) :
  tuples <> [] ->
  let evs := since w (perform op f tuples arrival w).2 in
  Permutation (List.filter isClusterCall evs)
    (map (clusterCall op tuples) (clusters f))
  /\ List.filter isInstr evs =
     opening op (len tuples) ++ closing op (perform op f tuples arrival w).1.
Proof.
  intros Hne evs. subst evs.
  pose proof (perform_run op f tuples arrival w Hne) as Hrun.
  cbv zeta in Hrun. rewrite Hrun. clear Hrun.
  cbn [fst snd].
  match goal with |- context [since w ?w'] =>
    rewrite (since_extends w w' _ eq_refl)
  end.
  rewrite !List.filter_app.
  destruct (filter_opening op (len tuples)) as [-> ->].
  destruct (filter_calls op tuples (clusters f)) as [-> ->].
  match goal with |- context [closing op ?o] =>
    destruct (filter_closing op o) as [-> ->]
  end.
  split; [now rewrite app_nil_r | reflexivity].
Qed.

Lemma write_calls_every_cluster_witness :
  let evs := since Sample.world0
               (Insert Sample.farm [Sample.low] [2; 0; 1]%nat
                  Sample.world0).2 in
  Permutation (List.filter isClusterCall evs)
    [ClusterInsert "a" [Sample.low]; ClusterInsert "b" [Sample.low];
     ClusterInsert "c" [Sample.low]]
  /\ List.filter isInstr evs =
     [Instr InsertCall; Instr (InsertRecordCount 1);
      Instr InsertQuorumFailure; Instr InsertCallDuration;
      Instr InsertRecordDuration].
Proof.
  exact (write_calls_every_cluster OpInsert Sample.farm [Sample.low]
           [2; 0; 1]%nat Sample.world0 ltac:(discriminate)).
Defined.

(** X13.  A write does not wait for slow clusters: as soon as the first
    k responses (k at least 1) hold writeQuorum successes it returns nil,
    even if the other clusters never answer. *)
Theorem write_returns_at_quorum (op : writeOp) (f : Farm)
    (tuples : list KeyScoreMember) (arrival : list nat) (w : World)
    (k : nat) :
  tuples <> [] -> len (clusters f) <= MaxInt ->
  (1 <= k <= length (clusters f))%nat ->
  (k <= length (responses op f tuples arrival))%nat ->
  writeQuorum f <= successes (firstn k (responses op f tuples arrival)) ->
  (perform op f tuples arrival w).1 = Returns None.
Proof.
  intros Hne Hmax Hk Hlen Hq. rewrite (perform_verdict _ _ _ _ _ Hne).
  destruct (gather_reaches (length (clusters f)) []
              (responses op f tuples arrival) (writeQuorum f) k)
    as (j & Hj & Hg & Hqj); [exact Hk | exact Hlen | exact Hmax | exact Hq |].
  change (gather (length (clusters f)) (responses op f tuples arrival) [] 0
            (writeQuorum f) =
          Returns (failures (firstn j (responses op f tuples arrival)),
                   len (firstn j (responses op f tuples arrival)))) in Hg.
  rewrite Hg. apply verdict_quorum; [| exact Hqj].
  unfold len in *. rewrite length_firstn. lia.
Qed.

Lemma write_returns_at_quorum_witness :
  (Insert Sample.farmUp [Sample.low] [2; 0]%nat Sample.world0).1
  = Returns None.
Proof.
  apply (write_returns_at_quorum OpInsert Sample.farmUp [Sample.low]
           [2; 0]%nat Sample.world0 2).
  - discriminate.
  - vm_compute. discriminate.
  - simpl. lia.
  - simpl. lia.
  - vm_compute. discriminate.
Defined.

(** X14.  A write blocks for ever when fewer responses arrive than the
    farm has clusters and those that arrive never make the quorum: the
    gather loop waits for the next response, and neither the quorum
    failure nor the durations are recorded. *)
Theorem write_blocks_without_quorum (op : writeOp) (f : Farm)
    (tuples : list KeyScoreMember) (arrival : list nat) (w : World) :
  tuples <> [] -> len (clusters f) <= MaxInt ->
  (length (responses op f tuples arrival) < length (clusters f))%nat ->
  (forall m, (1 <= m <= length (responses op f tuples arrival))%nat ->
     successes (firstn m (responses op f tuples arrival)) < writeQuorum f) ->
  (perform op f tuples arrival w).1 = Blocks
  /\ history (perform op f tuples arrival w).2 =
     history w ++ opening op (len tuples)
       ++ map (clusterCall op tuples) (clusters f).
Proof.
  intros Hne Hmax Hlen Hq.
  pose proof (perform_run op f tuples arrival w Hne) as Hrun.
  cbv zeta in Hrun. rewrite Hrun. clear Hrun. simpl.
  assert (Hg : gather (length (clusters f)) (responses op f tuples arrival)
                 [] 0 (writeQuorum f) = Blocks).
  { apply (gather_blocks _ [] _ _ Hlen Hmax). exact Hq. }
  rewrite Hg. simpl. split; [reflexivity |].
  destruct op; simpl; now rewrite app_nil_r.
Qed.

Lemma write_blocks_without_quorum_witness :
  (Insert Sample.farm [Sample.low] [0; 1]%nat Sample.world0).1 = Blocks
  /\ history (Insert Sample.farm [Sample.low] [0; 1]%nat Sample.world0).2 =
     [Instr InsertCall; Instr (InsertRecordCount 1);
      ClusterInsert "a" [Sample.low]; ClusterInsert "b" [Sample.low];
      ClusterInsert "c" [Sample.low]].
Proof.
  apply (write_blocks_without_quorum OpInsert Sample.farm [Sample.low]
           [0; 1]%nat Sample.world0).
  - discriminate.
  - vm_compute. discriminate.
  - simpl. lia.
  - intros m Hm. simpl in Hm.
    destruct m as [|[|[|m]]]; [lia | | | lia]; vm_compute; reflexivity.
Defined.

(** X15.  A farm without clusters answers a non-empty write at once,
    without any response: nil when writeQuorum is at most 0, and the
    error "no quorum ()" otherwise. *)
Theorem write_empty_farm (op : writeOp) (f : Farm)
    (tuples : list KeyScoreMember) (arrival : list nat) (w : World) :
  clusters f = [] -> tuples <> [] ->
  (perform op f tuples arrival w).1 =
  Returns (if writeQuorum f <=? 0 then None else Some "no quorum ()").
Proof.
  intros Hcs Hne. rewrite (perform_verdict _ _ _ _ _ Hne), Hcs. reflexivity.
Qed.

Lemma write_empty_farm_witness :
  (Insert (Build_Farm [] 1 None None None NewNoPolice NopInstrumentation)
     [Sample.low] [] Sample.world0).1
  = Returns (Some "no quorum ()").
Proof.
  exact (write_empty_farm OpInsert
           (Build_Farm [] 1 None None None NewNoPolice NopInstrumentation)
           [Sample.low] [] Sample.world0 eq_refl ltac:(discriminate)).
Defined.

(** X16.  With a writeQuorum of 0 or less a write needs no success: on
    a farm with at least one cluster it returns nil after the first
    response, whatever that response and the other clusters say. *)
Theorem write_quorum_not_positive (op : writeOp) (f : Farm)
    (tuples : list KeyScoreMember) (arrival : list nat) (w : World) :
  writeQuorum f <= 0 -> tuples <> [] ->
  clusters f <> [] -> len (clusters f) <= MaxInt ->
  responses op f tuples arrival <> [] ->
  gather (length (clusters f)) (responses op f tuples arrival) [] 0
    (writeQuorum f) =
  Returns (failures (firstn 1 (responses op f tuples arrival)), 1)
  /\ (perform op f tuples arrival w).1 = Returns None.
Proof.
  intros Hq Hne Hcs Hmax Hrs.
  assert (Hg : gather (length (clusters f)) (responses op f tuples arrival)
                 [] 0 (writeQuorum f) =
               Returns (failures (firstn 1 (responses op f tuples arrival)), 1)).
  { destruct (clusters f) as [|c cs] eqn:Ecs; [congruence |].
    destruct (responses op f tuples arrival) as [|e rs]; [congruence |].
    change (gather (length (c :: cs)) (e :: rs) [] 0 (writeQuorum f))
      with (gather (S (length cs)) (e :: rs) (failures []) (len (@nil error))
              (writeQuorum f)).
    rewrite gather_step by (unfold len in *; simpl length in *; lia).
    pose proof (successes_nonneg ([] ++ [e])) as Hs.
    destruct (Z.leb_spec (writeQuorum f) (successes ([] ++ [e])));
      [reflexivity | lia]. }
  split; [exact Hg |].
  rewrite (perform_verdict _ _ _ _ _ Hne), Hg.
  destruct (responses op f tuples arrival) as [|e rs]; [congruence |].
  change 1 with (len (firstn 1 (e :: rs))).
  apply verdict_quorum; [vm_compute; discriminate |].
  pose proof (successes_nonneg (firstn 1 (e :: rs))). lia.
Qed.

Lemma write_quorum_not_positive_witness :
  let f := Build_Farm [Sample.broken "b"; Sample.broken "c"] 0 None None None
             NewNoPolice NopInstrumentation in
  gather (length (clusters f)) (responses OpInsert f [Sample.low] [1; 0]%nat)
    [] 0 (writeQuorum f) =
  Returns (failures (firstn 1 (responses OpInsert f [Sample.low] [1; 0]%nat)), 1)
  /\ (Insert f [Sample.low] [1; 0]%nat Sample.world0).1 = Returns None.
Proof.
  apply (write_quorum_not_positive OpInsert
           (Build_Farm [Sample.broken "b"; Sample.broken "c"] 0 None None None
              NewNoPolice NopInstrumentation)
           [Sample.low] [1; 0]%nat Sample.world0).
  - simpl. lia.
  - discriminate.
  - discriminate.
  - vm_compute. discriminate.
  - discriminate.
Defined.

(** ** The goroutines of the walker, step by step *)

Section WalkerSteps.

Variables (f : Farm) (perm : nat -> list nat).

Lemma runProducer_S n w :
  runProducer f perm (S n) w =
  let p := producer w in
  match stream p with
  | _ :: _ => (tt, w)
  | [] =>
      match todo p with
      | i :: rest =>
          match clusters f !! i with
          | Some c =>
              runProducer f perm n
                {| history := history w ++ [ClusterKeys (cluster.name c)];
                   producer := withStream p rest (cluster.keys c)
                                 (anythingSent p);
                   signal := signal w |}
          | None =>
              runProducer f perm n
                {| history := history w;
                   producer := withStream p rest [] (anythingSent p);
                   signal := signal w |}
          end
      | [] =>
          runProducer f perm n
            {| history :=
                 if anythingSent p
                 then history w ++ [Instr KeysFarmCompleted]
                 else (history w ++ [Instr KeysFarmCompleted]) ++ [Sleep];
               producer := {| sweeps := S (sweeps p);
                              todo := perm (sweeps p);
                              stream := [];
                              anythingSent := false |};
               signal := true |}
      end
  end.
Proof.
  simpl. unfold bind at 1, getProducer.
  destruct (stream (producer w)); [| reflexivity].
  destruct (todo (producer w)) as [|i rest].
  - unfold bind, instr, sleep, emit, setSignal, setProducer, ret. simpl.
    destruct (anythingSent (producer w)); reflexivity.
  - unfold bind at 1. destruct (clusters f !! i); reflexivity.
Qed.

Lemma receiveKey_eq patience w :
  receiveKey f perm patience w =
  match stream (producer w) with
  | key :: rest =>
      (Some key,
       (runProducer f perm patience
          {| history := history w;
             producer := withStream (producer w) (todo (producer w)) rest true;
             signal := signal w |}).2)
  | [] => (None, w)
  end.
Proof.
  unfold receiveKey, bind, getProducer.
  destruct (stream (producer w)); [reflexivity |].
  unfold setProducer, ret.
  now destruct (runProducer _ _ _ _) as [[] w1].
Qed.

Lemma pull_S patience n keys w :
  pull f perm patience (S n) keys w =
  match receiveKey f perm patience w with
  | (Some key, w1) => pull f perm patience n (keys ++ [key]) w1
  | (None, w1) => (None, w1)
  end.
Proof.
  simpl. unfold bind. now destruct (receiveKey f perm patience w) as [[key|] w1].
Qed.

Lemma driverStep_eq patience rate w :
  driverStep f perm patience rate w =
  let g := grant (ratePolice f) (history w) rate in
  let w1 := {| history := history w ++ [Request rate g];
               producer := producer w;
               signal := signal w |} in
  if g <=? 0 then
    (Throttled,
     {| history := (history w1 ++ [Instr KeysThrottled]) ++ [Sleep];
        producer := producer w;
        signal := signal w |})
  else
    match pull f perm patience (Z.to_nat (capBatch rate g)) [] w1 with
    | (None, w2) => (Starved, w2)
    | (Some keys, w2) =>
        match Select f keys 0 MaxInt w2 with
        | (Panics msg, w3) => (Crashed msg, w3)
        | (_, w3) => (Selected keys, (forwardCompletion f w3).2)
        end
    end.
Proof.
  unfold driverStep, policeRequest, bind at 1, getHistory.
  unfold bind at 1. unfold bind at 1. unfold emit at 1, ret at 1.
  cbv zeta. simpl history. simpl producer. simpl signal.
  destruct (grant (ratePolice f) (history w) rate <=? 0); [reflexivity |].
  unfold bind at 1. destruct (pull _ _ _ _ _ _) as [[keys|] w2]; [| reflexivity].
  unfold bind at 1. destruct (Select f keys 0 MaxInt w2) as [[r | msg |] w3];
    try reflexivity;
    unfold bind, ret; now destruct (forwardCompletion f w3) as [[] w4].
Qed.

End WalkerSteps.

(** ** The order of the keys *)

Section KeyOrder.

Variables (f : Farm) (perm : nat -> list nat).

Implicit Types (w : World) (p : Producer).

Lemma ahead_next_sweep p n :
  stream p = [] -> todo p = [] ->
  ahead f perm p (S n) =
  ahead f perm {| sweeps := S (sweeps p); todo := perm (sweeps p);
                  stream := []; anythingSent := false |} n.
Proof.
  intros Hs Ht. unfold ahead. rewrite Hs, Ht. reflexivity.
Qed.

Lemma ahead_next_cluster p i rest sent n :
  stream p = [] -> todo p = i :: rest ->
  ahead f perm p n =
  ahead f perm (withStream p rest (keysAt f i) sent) n.
Proof.
  intros Hs Ht. unfold ahead. rewrite Hs, Ht. simpl.
  now rewrite app_assoc.
Qed.

(** Running the producer sends nothing: what lies ahead is the same,
    counted from the sweep it has come to. *)
Lemma runProducer_ahead patience : forall w,
  exists d, forall n,
    ahead f perm (producer w) (d + n) =
    ahead f perm (producer (runProducer f perm patience w).2) n.
Proof.
  induction patience as [|k IH]; intros w; [now exists O |].
  rewrite runProducer_S. cbv zeta.
  destruct (stream (producer w)) eqn:Hs; [| now exists O].
  destruct (todo (producer w)) as [|i rest] eqn:Ht.
  - match goal with |- context [runProducer f perm k ?w1] =>
      destruct (IH w1) as [d Hd]
    end.
    exists (S d). intros n. rewrite <- Hd. simpl producer.
    now apply ahead_next_sweep.
  - destruct (clusters f !! i) as [c|] eqn:Hc;
      match goal with |- context [runProducer f perm k ?w1] =>
        destruct (IH w1) as [d Hd]
      end;
      exists d; intros n; rewrite <- Hd; simpl producer;
      rewrite (ahead_next_cluster _ i rest (anythingSent (producer w)))
        by assumption;
      unfold keysAt; now rewrite Hc.
Qed.

Lemma receiveKey_ahead patience w key w' :
  receiveKey f perm patience w = (Some key, w') ->
  exists d, forall n,
    ahead f perm (producer w) (d + n) = key :: ahead f perm (producer w') n.
Proof.
  rewrite receiveKey_eq.
  destruct (stream (producer w)) as [|key0 rest] eqn:Hs; [discriminate |].
  intros [= -> <-].
  match goal with |- context [runProducer f perm patience ?w1] =>
    destruct (runProducer_ahead patience w1) as [d Hd]
  end.
  exists d. intros n. rewrite <- Hd. simpl producer.
  unfold ahead. rewrite Hs. reflexivity.
Qed.

Lemma pull_ahead patience n : forall keys w ks w',
  pull f perm patience n keys w = (Some ks, w') ->
  exists got d,
    ks = keys ++ got
    /\ forall m, ahead f perm (producer w) (d + m) =
                 got ++ ahead f perm (producer w') m.
Proof.
  induction n as [|n IH]; intros keys w ks w'.
  - simpl. unfold ret. intros [= <- <-]. exists [], O.
    split; [now rewrite app_nil_r | reflexivity].
  - rewrite pull_S.
    destruct (receiveKey f perm patience w) as [[key|] w1] eqn:Hr;
      [| discriminate].
    intros Hpull. apply IH in Hpull as (got & d & -> & Hd).
    apply receiveKey_ahead in Hr as [d0 Hd0].
    exists (key :: got), (d0 + d)%nat. split; [now rewrite <- app_assoc |].
    intros m. rewrite <- Nat.add_assoc, Hd0, Hd. reflexivity.
Qed.

Lemma Select_producer keys offset limit w :
  producer (Select f keys offset limit w).2 = producer w.
Proof.
  unfold Select. destruct (len keys <=? 0); [reflexivity |].
  unfold bind, policeReport, emit. simpl.
  destruct (readStrategy f); reflexivity.
Qed.

Lemma forwardCompletion_producer w :
  producer (forwardCompletion f w).2 = producer w.
Proof.
  unfold forwardCompletion. destruct (walkCompleted f) as [ch|]; [| reflexivity].
  unfold bind, getSignal. destruct (signal w); [| reflexivity].
  simpl. destruct (ready ch (history w)); reflexivity.
Qed.

Lemma driverStep_ahead patience rate w s w' :
  driverStep f perm patience rate w = (s, w') ->
  exists d, forall m,
    ahead f perm (producer w) (d + m) =
    selectedKeys [s] ++ ahead f perm (producer w') m
    \/ s = Starved \/ exists msg, s = Crashed msg.
Proof.
  rewrite driverStep_eq. cbv zeta.
  destruct (_ <=? 0).
  - intros [= <- <-]. exists O. intros m. now left.
  - destruct (pull _ _ _ _ _ _) as [[keys|] w2] eqn:Hpull.
    + apply pull_ahead in Hpull as (got & d & Hks & Hd).
      simpl in Hks, Hd. subst keys.
      pose proof (Select_producer got 0 MaxInt w2) as Hsel.
      destruct (Select f got 0 MaxInt w2) as [[r | msg |] w3];
        cbv beta iota; intros [= <- <-]; exists d; intros m;
        try (right; right; now exists msg);
        left; simpl in *; rewrite app_nil_r, forwardCompletion_producer,
          Hsel; apply Hd.
    + intros [= <- <-]. exists O. intros m. right. now left.
Qed.

Lemma drive_ahead patience rate fuel : forall w,
  exists d tail,
    ahead f perm (producer w) d =
    selectedKeys (drive f perm patience rate fuel w).1 ++ tail.
Proof.
  induction fuel as [|n IH]; intros w.
  - exists O. eexists. reflexivity.
  - rewrite drive_S.
    destruct (driverStep f perm patience rate w) as [s w0] eqn:Hstep.
    destruct (driverStep_ahead _ _ _ _ _ Hstep) as [d0 Hd0].
    destruct (IH w0) as (d1 & tail & Hd1).
    destruct (drive f perm patience rate n w0) as [rest w1]. simpl in Hd1.
    destruct s as [| keys | | msg];
      try (exists O; eexists; reflexivity);
      (destruct (Hd0 d1) as [Hd | [Hd | [msg Hd]]]; try discriminate);
      exists (d0 + d1)%nat, tail; rewrite Hd, Hd1; simpl;
      now rewrite ?app_nil_r, <- ?app_assoc.
Qed.

Lemma startWalker_ahead patience rate fuel w :
  exists n tail,
    concat (map (sweepKeys f perm) (seq 0 n)) =
    selectedKeys (startWalker f perm patience rate fuel w).1 ++ tail.
Proof.
  destruct (Z.eq_dec rate 0) as [-> | Hne].
  - exists O, []. reflexivity.
  - rewrite (startWalker_nonzero _ _ _ _ _ _ Hne).
    match goal with |- context [runProducer f perm patience ?w0] =>
      destruct (runProducer_ahead patience w0) as [d0 Hd0];
      set (w1 := (runProducer f perm patience w0).2) in *
    end.
    destruct (drive_ahead patience rate fuel w1) as (d1 & tail & Hd1).
    exists (S (d0 + d1)), tail. rewrite <- Hd1, <- Hd0. reflexivity.
Qed.

Lemma sweepKeys_farmKey n key :
  In key (sweepKeys f perm n) -> farmKey f key.
Proof.
  unfold sweepKeys. rewrite in_concat. intros (ks & Hks & Hkey).
  apply in_map_iff in Hks as (i & <- & _). unfold keysAt in Hkey.
  destruct (clusters f !! i) as [c|] eqn:Hc; [| destruct Hkey].
  exists c. split; [| exact Hkey].
  apply list_elem_of_In. eapply list_elem_of_lookup_2. exact Hc.
Qed.

End KeyOrder.

(** X18.  The walker hands the keys to [Select] in the order the
    producer enumerates them, none skipped and none repeated: the keys
    of all selected batches, put one after the other, are a prefix of the
    keys of sweep 0, sweep 1, ..., where a sweep goes through the clusters
    in [rand.Perm] order and through each cluster in [Keys()] order.  So
    every key of every batch is a key of some cluster of the farm. *)
Theorem walker_keys_in_sweep_order (f : Farm) (perm : nat -> list nat)
    (patience : nat) (walkerRate : Z) (fuel : nat) (w : World) :
  let steps := (startWalker f perm patience walkerRate fuel w).1 in
  (exists n tail,
     concat (map (sweepKeys f perm) (seq 0 n)) = selectedKeys steps ++ tail)
  /\ forall keys key,
       In (Selected keys) steps -> In key keys -> farmKey f key.
Proof.
  intros steps.
  destruct (startWalker_ahead f perm patience walkerRate fuel w)
    as (n & tail & Heq).
  split; [now exists n, tail |].
  intros keys key Hstep Hkey.
  assert (Hin : In key (concat (map (sweepKeys f perm) (seq 0 n)))).
  { rewrite Heq. apply in_or_app. left. unfold selectedKeys.
    apply in_flat_map. now exists (Selected keys). }
  apply in_concat in Hin as (ks & Hks & Hin).
  apply in_map_iff in Hks as (j & <- & _).
  now apply (sweepKeys_farmKey f perm j).
Qed.

(** ** Completed walks *)

Section Completion.

Variables (f : Farm) (perm : nat -> list nat).

Implicit Types (w : World) (evs : list event).

Lemma count_app p evs1 evs2 :
  count p (evs1 ++ evs2) = count p evs1 + count p evs2.
Proof. unfold count, len. rewrite List.filter_app, length_app. lia. Qed.

Lemma count_nonneg p evs : 0 <= count p evs.
Proof. apply len_nonneg. Qed.

Lemma pending_nonneg w : 0 <= pending w <= 1.
Proof. unfold pending. destruct (signal w); lia. Qed.

Lemma accounted_step w w' evs :
  history w' = history w ++ evs ->
  count isWalkCompleted evs = 0 ->
  pending w' <= count isFarmCompleted evs + pending w ->
  accounted f w w'.
Proof. intros Hh Hwc Hp. exists evs. split; [exact Hh |]. split; [lia | auto]. Qed.

Lemma accounted_refl w : accounted f w w.
Proof.
  apply (accounted_step w w []); [now rewrite app_nil_r | reflexivity |].
  change (count isFarmCompleted []) with 0. lia.
Qed.

Lemma accounted_trans w1 w2 w3 :
  accounted f w1 w2 -> accounted f w2 w3 -> accounted f w1 w3.
Proof.
  intros (e1 & H1 & Hc1 & Hn1) (e2 & H2 & Hc2 & Hn2). exists (e1 ++ e2).
  split; [now rewrite H2, H1, app_assoc |]. rewrite !count_app.
  split; [lia |]. intros Hnone. rewrite (Hn1 Hnone), (Hn2 Hnone). reflexivity.
Qed.

Lemma accounted_same w1 w2 w3 :
  history w2 = history w1 -> signal w2 = signal w1 ->
  accounted f w2 w3 -> accounted f w1 w3.
Proof.
  intros Hh Hs (evs & H & Hc & Hn). exists evs. unfold pending in *.
  rewrite <- Hh, <- Hs. auto.
Qed.

Lemma runProducer_accounted patience : forall w,
  accounted f w (runProducer f perm patience w).2.
Proof.
  induction patience as [|k IH]; intros w; [apply accounted_refl |].
  rewrite runProducer_S. cbv zeta.
  destruct (stream (producer w)); [| apply accounted_refl].
  destruct (todo (producer w)) as [|i rest].
  - eapply accounted_trans; [| apply IH].
    destruct (anythingSent (producer w)).
    + apply (accounted_step _ _ [Instr KeysFarmCompleted]);
        [reflexivity | reflexivity |].
      pose proof (pending_nonneg w). unfold pending at 1. simpl.
      change (count isFarmCompleted [Instr KeysFarmCompleted]) with 1. lia.
    + apply (accounted_step _ _ [Instr KeysFarmCompleted; Sleep]);
        [simpl; now rewrite <- app_assoc | reflexivity |].
      pose proof (pending_nonneg w). unfold pending at 1. simpl.
      change (count isFarmCompleted [Instr KeysFarmCompleted; Sleep]) with 1.
      lia.
  - destruct (clusters f !! i) as [c|];
      (eapply accounted_trans; [| apply IH]).
    + apply (accounted_step _ _ [ClusterKeys (cluster.name c)]);
        [reflexivity | reflexivity |].
      unfold pending. simpl.
      change (count isFarmCompleted [ClusterKeys (cluster.name c)]) with 0.
      lia.
    + eapply accounted_same; [| | apply accounted_refl]; reflexivity.
Qed.

Lemma receiveKey_accounted patience w :
  accounted f w (receiveKey f perm patience w).2.
Proof.
  rewrite receiveKey_eq.
  destruct (stream (producer w)); [apply accounted_refl |]. simpl.
  eapply accounted_same; [| | apply runProducer_accounted]; reflexivity.
Qed.

Lemma pull_accounted patience n : forall keys w,
  accounted f w (pull f perm patience n keys w).2.
Proof.
  induction n as [|n IH]; intros keys w; [apply accounted_refl |].
  rewrite pull_S. pose proof (receiveKey_accounted patience w) as Hr.
  destruct (receiveKey f perm patience w) as [[key|] w1]; [| exact Hr].
  eapply accounted_trans; [exact Hr | apply IH].
Qed.

Lemma Select_accounted keys offset limit w :
  accounted f w (Select f keys offset limit w).2.
Proof.
  unfold Select. destruct (len keys <=? 0); [apply accounted_refl |].
  unfold bind, policeReport, emit. simpl.
  destruct (readStrategy f); simpl.
  - apply (accounted_step _ _ [Report (len keys); Read keys offset limit]);
      [simpl; now rewrite <- app_assoc | reflexivity |].
    unfold pending. simpl.
    change (count isFarmCompleted [Report (len keys); Read keys offset limit])
      with 0. lia.
  - apply (accounted_step _ _ [Report (len keys)]);
      [reflexivity | reflexivity |].
    unfold pending. simpl.
    change (count isFarmCompleted [Report (len keys)]) with 0. lia.
Qed.

Lemma forwardCompletion_accounted w :
  accounted f w (forwardCompletion f w).2.
Proof.
  unfold forwardCompletion.
  destruct (walkCompleted f) as [ch|] eqn:Hch; [| apply accounted_refl].
  unfold bind, getSignal. destruct (signal w) eqn:Hs; [| apply accounted_refl].
  simpl. destruct (ready ch (history w)).
  - exists [WalkCompleted]. split; [reflexivity |].
    split; [| intros Hnone; congruence].
    unfold pending. simpl. rewrite Hs. vm_compute. discriminate.
  - exists []. split; [simpl; now rewrite app_nil_r |]. split; [| reflexivity].
    unfold pending. simpl. rewrite Hs. vm_compute. discriminate.
Qed.

Lemma driverStep_accounted patience rate w :
  accounted f w (driverStep f perm patience rate w).2.
Proof.
  rewrite driverStep_eq. cbv zeta.
  set (g := grant (ratePolice f) (history w) rate).
  destruct (g <=? 0).
  - apply (accounted_step _ _ [Request rate g; Instr KeysThrottled; Sleep]);
      [simpl; now rewrite <- !app_assoc | reflexivity |].
    unfold pending. simpl.
    change (count isFarmCompleted [Request rate g; Instr KeysThrottled; Sleep])
      with 0. lia.
  - set (w1 := {| history := history w ++ [Request rate g];
                  producer := producer w;
                  signal := signal w |}).
    apply (accounted_trans w w1).
    { apply (accounted_step w w1 [Request rate g]);
        [reflexivity | reflexivity |].
      unfold pending. simpl.
      change (count isFarmCompleted [Request rate g]) with 0. lia. }
    match goal with |- context [pull f perm patience ?n ?ks w1] =>
      pose proof (pull_accounted patience n ks w1) as Hp;
      destruct (pull f perm patience n ks w1) as [[keys|] w2]
    end; [| exact Hp].
    eapply accounted_trans; [exact Hp |].
    pose proof (Select_accounted keys 0 MaxInt w2) as Hsel.
    destruct (Select f keys 0 MaxInt w2) as [[r | msg |] w3];
      try exact Hsel;
      (eapply accounted_trans;
       [exact Hsel | apply forwardCompletion_accounted]).
Qed.

Lemma drive_accounted patience rate fuel : forall w,
  accounted f w (drive f perm patience rate fuel w).2.
Proof.
  induction fuel as [|n IH]; intros w; [apply accounted_refl |].
  rewrite drive_S. pose proof (driverStep_accounted patience rate w) as Hs.
  destruct (driverStep f perm patience rate w) as [s w0].
  specialize (IH w0). destruct (drive f perm patience rate n w0) as [rest w1].
  destruct s; try exact Hs; eapply accounted_trans; eauto.
Qed.

End Completion.

(** X19.  The farm never reports more completed walks than the key
    producer has completed sweeps: in what the walker adds to the trace,
    the sends on [f.walkCompleted] are at most as many as the calls of
    [KeysFarmCompleted]; and with a nil [walkCompleted] there is no send
    at all. *)
Theorem walker_completions_accounted (f : Farm) (perm : nat -> list nat)
    (patience : nat) (walkerRate : Z) (fuel : nat) (w : World) :
  let evs := since w (startWalker f perm patience walkerRate fuel w).2 in
  count isWalkCompleted evs <= count isFarmCompleted evs
  /\ (walkCompleted f = None -> count isWalkCompleted evs = 0).
Proof.
  intros evs. subst evs.
  destruct (Z.eq_dec walkerRate 0) as [-> | Hne].
  - unfold startWalker. simpl.
    rewrite (since_extends w w []) by now rewrite app_nil_r.
    split; [vm_compute; discriminate | reflexivity].
  - rewrite (startWalker_nonzero _ _ _ _ _ _ Hne).
    match goal with |- context [runProducer f perm patience ?w0] =>
      set (w1 := w0)
    end.
    assert (Hacc : accounted f w1
              (drive f perm patience walkerRate fuel
                 (runProducer f perm patience w1).2).2).
    { eapply accounted_trans;
        [apply runProducer_accounted | apply drive_accounted]. }
    destruct Hacc as (evs & Hh & Hc & Hn).
    change (history w1) with (history w) in Hh.
    rewrite (since_extends _ _ _ Hh).
    change (pending w1) with 0 in Hc.
    split; [| exact Hn].
    match type of Hc with _ + pending ?w2 <= _ =>
      pose proof (pending_nonneg w2)
    end. lia.
Qed.

(** ** Throttling *)

Section Throttling.

Variables (f : Farm) (perm : nat -> list nat).

Implicit Types (w : World).

Lemma adds_events ok w w' evs :
  history w' = history w ++ evs -> forallb ok evs = true -> adds ok w w'.
Proof. intros Hh Hok. now exists evs. Qed.

Lemma adds_refl ok w : adds ok w w.
Proof. apply (adds_events ok w w []); [now rewrite app_nil_r | reflexivity]. Qed.

Lemma adds_trans ok w1 w2 w3 : adds ok w1 w2 -> adds ok w2 w3 -> adds ok w1 w3.
Proof.
  intros (e1 & H1 & Hok1) (e2 & H2 & Hok2). exists (e1 ++ e2).
  split; [now rewrite H2, H1, app_assoc |].
  now rewrite forallb_app, Hok1, Hok2.
Qed.

(** The producer goroutine makes no call of the read path. *)
Lemma runProducer_adds patience : forall w,
  adds notRead w (runProducer f perm patience w).2.
Proof.
  induction patience as [|k IH]; intros w; [apply adds_refl |].
  rewrite runProducer_S. cbv zeta.
  destruct (stream (producer w)); [| apply adds_refl].
  destruct (todo (producer w)) as [|i rest].
  - eapply adds_trans; [| apply IH].
    destruct (anythingSent (producer w)).
    + now apply (adds_events _ _ _ [Instr KeysFarmCompleted]).
    + apply (adds_events _ _ _ [Instr KeysFarmCompleted; Sleep]);
        [simpl; now rewrite <- app_assoc | reflexivity].
  - destruct (clusters f !! i) as [c|]; (eapply adds_trans; [| apply IH]).
    + now apply (adds_events _ _ _ [ClusterKeys (cluster.name c)]).
    + apply (adds_events _ _ _ []); [simpl; now rewrite app_nil_r | reflexivity].
Qed.

Hypothesis police_stingy : stingy (ratePolice f).

Lemma drive_throttled patience rate fuel : forall w,
  (drive f perm patience rate fuel w).1 = repeat Throttled fuel
  /\ adds notRead w (drive f perm patience rate fuel w).2
  /\ producer (drive f perm patience rate fuel w).2 = producer w.
Proof.
  induction fuel as [|n IH]; intros w.
  - split; [reflexivity |]. split; [apply adds_refl | reflexivity].
  - rewrite drive_S, driverStep_eq. cbv zeta.
    set (g := grant (ratePolice f) (history w) rate).
    assert (Hg : (g <=? 0) = true) by (apply Z.leb_le, police_stingy).
    rewrite Hg.
    match goal with |- context [drive f perm patience rate n ?w1] =>
      destruct (IH w1) as (Hsteps & Hadds & Hprod);
      destruct (drive f perm patience rate n w1) as [rest w2] eqn:Hd
    end.
    simpl in *. split; [now rewrite Hsteps |]. split; [| exact Hprod].
    eapply adds_trans; [| exact Hadds].
    apply (adds_events _ _ _ [Request rate g; Instr KeysThrottled; Sleep]);
      [simpl; now rewrite <- !app_assoc | reflexivity].
Qed.

End Throttling.

(** X20.  While the police grants nothing (every [Request] returns 0
    or less), the walker only waits: every iteration of the driver is
    throttled, no batch is selected, and no [Report] and no read strategy
    call is made, however long the walker runs. *)
Theorem walker_throttled (f : Farm) (perm : nat -> list nat)
    (patience : nat) (walkerRate : Z) (fuel : nat) (w : World) :
  stingy (ratePolice f) -> walkerRate <> 0 ->
  (startWalker f perm patience walkerRate fuel w).1 = repeat Throttled fuel
  /\ forallb notRead
       (since w (startWalker f perm patience walkerRate fuel w).2) = true.
Proof.
  intros Hstingy Hne. rewrite (startWalker_nonzero _ _ _ _ _ _ Hne).
  match goal with |- context [runProducer f perm patience ?w0] =>
    set (w1 := w0)
  end.
  destruct (drive_throttled f perm Hstingy patience walkerRate fuel
              (runProducer f perm patience w1).2) as (Hsteps & Hadds & _).
  split; [exact Hsteps |].
  destruct (adds_trans _ _ _ _ (runProducer_adds f perm patience w1) Hadds)
    as (evs & Hh & Hok).
  change (history w1) with (history w) in Hh.
  now rewrite (since_extends _ _ _ Hh).
Qed.

Lemma walker_throttled_witness :
  (startWalker
     (Build_Farm [Sample.healthy "a"] 1 None None None
        {| grant := fun _ _ => 0 |} NopInstrumentation)
     Sample.always0 2 5 3 Sample.world0).1 = repeat Throttled 3
  /\ forallb notRead
       (since Sample.world0
          (startWalker
             (Build_Farm [Sample.healthy "a"] 1 None None None
                {| grant := fun _ _ => 0 |} NopInstrumentation)
             Sample.always0 2 5 3 Sample.world0).2) = true.
Proof.
  apply (walker_throttled
           (Build_Farm [Sample.healthy "a"] 1 None None None
              {| grant := fun _ _ => 0 |} NopInstrumentation)
           Sample.always0 2 5 3 Sample.world0).
  - intros h rate. simpl. lia.
  - discriminate.
Defined.

(** ** The first batch *)

Section FirstBatch.

Variables (f : Farm) (perm : nat -> list nat) (patience : nat).

Implicit Types (w : World).

(** With keys left in the sweep and a step for each cluster still to
    visit, the producer comes to wait with a key in its hand. *)
Lemma runProducer_finds k : forall w,
  remaining f (producer w) <> [] ->
  (length (todo (producer w)) < k)%nat ->
  let p' := producer (runProducer f perm k w).2 in
  stream p' <> []
  /\ remaining f p' = remaining f (producer w)
  /\ (length (todo p') <= length (todo (producer w)))%nat.
Proof.
  induction k as [|k IH]; intros w Hrem Hlen; [lia |].
  rewrite runProducer_S. cbv zeta. unfold remaining in Hrem.
  destruct (stream (producer w)) as [|key ks] eqn:Hs.
  - destruct (todo (producer w)) as [|i rest] eqn:Ht; [now destruct Hrem |].
    simpl in Hlen.
    assert (Hstep : forall w1,
              producer w1 = withStream (producer w) rest (keysAt f i)
                              (anythingSent (producer w)) ->
              let p' := producer (runProducer f perm k w1).2 in
              stream p' <> []
              /\ remaining f p' = remaining f (producer w)
              /\ (length (todo p') <= S (length rest))%nat).
    { intros w1 Hw1.
      assert (Hsame : remaining f (producer w1) = remaining f (producer w)).
      { unfold remaining. rewrite Hw1, Hs, Ht. reflexivity. }
      destruct (IH w1) as (H1 & H2 & H3).
      - rewrite Hsame. unfold remaining. now rewrite Hs, Ht.
      - rewrite Hw1. simpl. lia.
      - rewrite Hw1 in H3. simpl in H3. rewrite Hsame in H2.
        split; [exact H1 |]. split; [exact H2 | lia]. }
    unfold keysAt in Hstep.
    destruct (clusters f !! i) as [c|]; apply Hstep; reflexivity.
  - simpl. rewrite Hs. split; [discriminate |]. split; [reflexivity | lia].
Qed.

Lemma pull_finds n : forall keys w,
  (n <= length (remaining f (producer w)))%nat ->
  (n <> O -> stream (producer w) <> []) ->
  (length (todo (producer w)) < patience)%nat ->
  (pull f perm patience n keys w).1 =
  Some (keys ++ firstn n (remaining f (producer w))).
Proof.
  induction n as [|n IH]; intros keys w Hn Hs Hlen.
  - simpl. now rewrite app_nil_r.
  - rewrite pull_S, receiveKey_eq.
    destruct (stream (producer w)) as [|key ks] eqn:Hstream;
      [exfalso; now apply Hs |].
    set (w1 := {| history := history w;
                  producer := withStream (producer w) (todo (producer w)) ks
                                true;
                  signal := signal w |}).
    assert (Hrem : remaining f (producer w) = key :: remaining f (producer w1)).
    { unfold remaining. rewrite Hstream. reflexivity. }
    assert (Htodo : todo (producer w1) = todo (producer w)) by reflexivity.
    clearbody w1. rewrite Hrem in Hn |- *. simpl in Hn. simpl firstn.
    destruct n as [|n].
    + simpl. now rewrite firstn_0.
    + destruct (runProducer_finds patience w1) as (H1 & H2 & H3);
        [intros Hnil; rewrite Hnil in Hn; simpl in Hn; lia
        | rewrite Htodo; exact Hlen |].
      cbv zeta in H1, H2, H3. rewrite Htodo in H3.
      rewrite IH; [| rewrite H2; lia | intros _; exact H1 | lia].
      now rewrite H2, <- app_assoc.
Qed.

End FirstBatch.

Lemma Select_returns (f : Farm) keys offset limit w :
  readStrategy f <> None ->
  exists r, (Select f keys offset limit w).1 = Returns r.
Proof.
  intros Hrs. unfold Select.
  destruct (len keys <=? 0); [eexists; reflexivity |].
  unfold bind, policeReport, emit. simpl.
  destruct (readStrategy f); [eexists; reflexivity | congruence].
Qed.

(** X21.  The walker does its work: with a walkerRate other than 0, a
    police that grants g > 0 keys, a bound read strategy and a first sweep
    holding at least min(g, 10 * walkerRate) keys, the first iteration of
    the driver selects exactly the first min(g, 10 * walkerRate) keys of
    the first sweep (the producer being given a step for each cluster of
    the sweep). *)
Theorem walker_first_batch (f : Farm) (perm : nat -> list nat)
    (patience : nat) (walkerRate g : Z) (fuel : nat) (w : World) :
  walkerRate <> 0 ->
  (forall h, grant (ratePolice f) h walkerRate = g) -> 0 < g ->
  readStrategy f <> None ->
  (length (perm O) < patience)%nat ->
  (Z.to_nat (capBatch walkerRate g) <= length (sweepKeys f perm 0))%nat ->
  exists rest,
    (startWalker f perm patience walkerRate (S fuel) w).1 =
    Selected (firstn (Z.to_nat (capBatch walkerRate g)) (sweepKeys f perm 0))
      :: rest.
Proof.
  intros Hne Hgrant Hpos Hrs Hpat Hkeys.
  rewrite (startWalker_nonzero _ _ _ _ _ _ Hne).
  match goal with |- context [runProducer f perm patience ?w0] =>
    set (w1 := w0)
  end.
  set (w2 := (runProducer f perm patience w1).2).
  rewrite drive_S, driverStep_eq. cbv zeta. rewrite Hgrant.
  destruct (Z.leb_spec g 0) as [|_]; [lia |].
  set (B := Z.to_nat (capBatch walkerRate g)) in *.
  set (w3 := {| history := history w2 ++ [Request walkerRate g];
                producer := producer w2;
                signal := signal w2 |}).
  assert (Hpull : (pull f perm patience B [] w3).1 =
                  Some (firstn B (sweepKeys f perm 0))).
  { destruct (Nat.eq_dec B O) as [HB | HB]; [rewrite HB; reflexivity |].
    destruct (runProducer_finds f perm patience w1) as (H1 & H2 & H3).
    - change (remaining f (producer w1)) with (sweepKeys f perm 0).
      intros Hnil. rewrite Hnil in Hkeys. simpl in Hkeys. lia.
    - exact Hpat.
    - cbv zeta in H1, H2, H3. fold w2 in H1, H2, H3.
      change (remaining f (producer w1)) with (sweepKeys f perm 0) in H2.
      change (todo (producer w1)) with (perm O) in H3.
      rewrite (pull_finds f perm patience B [] w3).
      + change (producer w3) with (producer w2). now rewrite H2.
      + change (producer w3) with (producer w2). now rewrite H2.
      + intros _. exact H1.
      + change (producer w3) with (producer w2). lia. }
  destruct (pull f perm patience B [] w3) as [[keys|] w4];
    simpl in Hpull; [| discriminate].
  injection Hpull as ->.
  destruct (Select_returns f (firstn B (sweepKeys f perm 0)) 0 MaxInt w4 Hrs)
    as [r Hsel].
  destruct (Select f _ 0 MaxInt w4) as [o w5]. simpl in Hsel. subst o.
  destruct (drive f perm patience walkerRate fuel _) as [rest w6].
  now exists rest.
Qed.

Lemma walker_first_batch_witness :
  exists rest,
    (startWalker
       (Build_Farm [Sample.broken "b"; Sample.healthy "a"] 1
          (readStrategy Sample.farm) None None NewNoPolice NopInstrumentation)
       (fun _ => [0; 1]%nat) 3 1 1 Sample.world0).1 =
    Selected (firstn (Z.to_nat (capBatch 1 1))
                (sweepKeys
                   (Build_Farm [Sample.broken "b"; Sample.healthy "a"] 1
                      (readStrategy Sample.farm) None None NewNoPolice
                      NopInstrumentation)
                   (fun _ => [0; 1]%nat) 0))
      :: rest.
Proof.
  apply (walker_first_batch
           (Build_Farm [Sample.broken "b"; Sample.healthy "a"] 1
              (readStrategy Sample.farm) None None NewNoPolice
              NopInstrumentation)
           (fun _ => [0; 1]%nat) 3 1 1 O Sample.world0).
  - discriminate.
  - reflexivity.
  - lia.
  - discriminate.
  - simpl. lia.
  - vm_compute. lia.
Defined.

(** ** Sets made from lists *)

Section MadeSets.

Implicit Types (s : tupleSet) (t u : KeyScoreMember).
Implicit Types (a b : list KeyScoreMember).

Lemma fold_add_distinct (s2 : tupleSet) : forall s1 : tupleSet,
  wellFormed (s1 ++ s2) ->
  fold_left TupleSet.add (range s2) s1 = s1 ++ s2.
Proof.
  induction s2 as [|[k []] s2 IH]; intros s1 Hwf; simpl.
  - now rewrite app_nil_r.
  - assert (Hfresh : TupleSet.add s1 k = s1 ++ [(k, tt)]).
    { apply assign_fresh, index_None. intros k' Hin.
      apply distinct_app in Hwf as (_ & _ & Hcross).
      rewrite ksm_eqb_sym. apply Hcross; [exact Hin | now left]. }
    rewrite Hfresh, IH; rewrite <- app_assoc; [reflexivity | exact Hwf].
Qed.

Lemma range_add_subset s t k :
  In k (range (TupleSet.add s t)) -> In k (range s) \/ k = t.
Proof.
  destruct (add_cases s t) as [(_ & _ & ->) | (_ & m1 & k0 & m2 & -> & _ & ->)];
    rewrite !range_app; simpl; rewrite !in_app_iff; simpl; intuition auto.
Qed.

Lemma range_fold_add_subset a : forall s k,
  In k (range (fold_left TupleSet.add a s)) -> In k (range s) \/ In k a.
Proof.
  induction a as [|t a IH]; intros s k Hin; simpl in *; [now left |].
  apply IH in Hin as [Hin | Hin]; [| right; now right].
  apply range_add_subset in Hin as [Hin | ->]; [now left | right; now left].
Qed.

Lemma among_eq t u b : ksm_eqb t u = true -> among t b = among u b.
Proof.
  intros Heq. unfold among. apply eq_true_iff_eq.
  rewrite !existsb_exists. split; intros (x & Hin & Hx); exists x;
    (split; [exact Hin |]).
  - apply (ksm_eqb_trans _ t); [now rewrite ksm_eqb_sym | exact Hx].
  - now apply (ksm_eqb_trans _ u).
Qed.

Lemma length_filter_lt {A} (p : A -> bool) (l : list A) :
  (length (List.filter p l) < length l)%nat <->
  exists x, In x l /\ p x = false.
Proof.
  induction l as [|x l IH]; simpl.
  - split; [lia | intros (x & [] & _)].
  - pose proof (length_filter_le p l) as Hle.
    destruct (p x) eqn:E; simpl.
    + rewrite <- Nat.succ_lt_mono, IH. split.
      * intros (y & Hin & Hy). exists y. auto.
      * intros (y & [<- | Hin] & Hy); [congruence | now exists y].
    + split; [| lia]. intros _. exists x. auto.
Qed.

Lemma holders_lt (tupleSets : list tupleSet) t :
  holders tupleSets t < len tupleSets <->
  exists s, In s tupleSets /\ TupleSet.has s t = false.
Proof.
  unfold holders, len. rewrite <- length_filter_lt. lia.
Qed.

Lemma made_wellFormed (lists : list (list KeyScoreMember)) :
  Forall wellFormed (map TupleSet.makeSet lists).
Proof.
  apply List.Forall_forall. intros s Hin.
  apply in_map_iff in Hin as (a & <- & _).
  apply fold_add_wellFormed. constructor.
Qed.

Lemma made_entry a t :
  In t (range (TupleSet.makeSet a)) -> In t a.
Proof.
  intros Hin. apply range_fold_add_subset in Hin as [[] | Hin]. exact Hin.
Qed.

End MadeSets.

(** X22.  Round trip of [slice] and [makeSet]: for a set whose entries
    are pairwise different (as the entries of a Go map are),
    [makeSet(s.slice())] is [s] again, entry by entry and in the same
    order. *)
Theorem makeSet_slice_round_trip (s : tupleSet) :
  wellFormed s -> TupleSet.makeSet (TupleSet.slice s) = s.
Proof.
  intros Hwf. unfold TupleSet.makeSet, TupleSet.slice.
  now rewrite (fold_add_distinct s []).
Qed.

Lemma makeSet_slice_round_trip_witness :
  TupleSet.makeSet (TupleSet.slice [(Sample.low, tt); (Sample.other, tt)])
  = [(Sample.low, tt); (Sample.other, tt)].
Proof.
  apply (makeSet_slice_round_trip [(Sample.low, tt); (Sample.other, tt)]).
  repeat constructor; simpl; intros k' H;
    repeat (destruct H as [<- | H]; [reflexivity |]); destruct H.
Defined.

(** X23.  [makeSet] and [unionDifference] together, as a read strategy
    uses them: for lists of tuples without NaN scores, one list per
    cluster, the difference of the sets made from the lists holds
    exactly the (key, member) pairs of those tuples of some list that
    some list has no Go-equal tuple for. *)
Theorem difference_of_made_sets (lists : list (list KeyScoreMember))
    (km : keyMember) :
  (forall a t, In a lists -> In t a -> is_nan (common.Score t) = false) ->
  len lists <= MaxInt ->
  km ∈ (unionDifference (map TupleSet.makeSet lists)).2 <->
  exists a t b,
    In a lists /\ In t a /\ km_of t = km /\ In b lists /\ among t b = false.
Proof.
  intros Hnan Hlen.
  assert (Hnan' : Forall noNaN (map TupleSet.makeSet lists)).
  { apply List.Forall_forall. intros s Hin.
    apply in_map_iff in Hin as (a & <- & Ha). intros t Ht.
    apply (Hnan a); [exact Ha | now apply made_entry]. }
  assert (Hlen' : len (map TupleSet.makeSet lists) <= MaxInt)
    by (unfold len in *; now rewrite length_map).
  rewrite (difference_holders _ _ (made_wellFormed lists) Hnan' Hlen').
  split.
  - intros (t & (s & Hs & Ht) & Hkm & Hlt).
    apply in_map_iff in Hs as (a & <- & Ha).
    apply holders_lt in Hlt as (s' & Hs' & Hhas).
    apply in_map_iff in Hs' as (b & <- & Hb).
    exists a, t, b. split; [exact Ha |]. split; [now apply made_entry |].
    split; [exact Hkm |]. split; [exact Hb |].
    unfold TupleSet.makeSet in Hhas. now rewrite fold_add_has in Hhas.
  - intros (a & t & b & Ha & Ht & Hkm & Hb & Hamong).
    assert (Hhas : TupleSet.has (TupleSet.makeSet a) t = true).
    { unfold TupleSet.makeSet. rewrite fold_add_has. simpl.
      unfold among. apply existsb_exists. exists t. split; [exact Ht |].
      apply ksm_eqb_refl. now apply (Hnan a). }
    apply has_true in Hhas as (t' & Ht' & Heq).
    exists t'. split; [| split].
    + exists (TupleSet.makeSet a). split; [now apply in_map | exact Ht'].
    + rewrite <- Hkm. symmetry. now apply ksm_eqb_km_of.
    + apply holders_lt. exists (TupleSet.makeSet b).
      split; [now apply in_map |].
      unfold TupleSet.makeSet. rewrite fold_add_has. simpl.
      now rewrite <- (among_eq t t' b Heq).
Qed.

Lemma difference_of_made_sets_witness :
  km_of Sample.other
    ∈ (unionDifference
         (map TupleSet.makeSet
            [[Sample.low; Sample.other]; [Sample.low]])).2 <->
  exists a t b,
    In a [[Sample.low; Sample.other]; [Sample.low]] /\ In t a
    /\ km_of t = km_of Sample.other
    /\ In b [[Sample.low; Sample.other]; [Sample.low]]
    /\ among t b = false.
Proof.
  apply (difference_of_made_sets
           [[Sample.low; Sample.other]; [Sample.low]] (km_of Sample.other)).
  - intros a t Ha Ht. simpl in Ha.
    repeat (destruct Ha as [<- | Ha];
            [simpl in Ht;
             repeat (destruct Ht as [<- | Ht]; [reflexivity |]);
             destruct Ht |]).
    destruct Ha.
  - vm_compute. discriminate.
Defined.

(** ** The ledger of the walker *)

Section Ledger.

Variables (f : Farm) (perm : nat -> list nat).

Implicit Types (w : World) (evs : list event).

Lemma ledger_app evs1 evs2 : ledger (evs1 ++ evs2) = ledger evs1 ++ ledger evs2.
Proof. apply List.filter_app. Qed.

Lemma quiet_ledger evs : forallb quiet evs = true -> ledger evs = [].
Proof.
  induction evs as [|e evs IH]; simpl; [reflexivity |].
  rewrite andb_true_iff. unfold quiet at 1. intros [He Hevs].
  destruct (isLedger e); [discriminate | now apply IH].
Qed.


Lemma reports_ledger evs : reports evs = reports (ledger evs).
Proof.
  unfold reports. induction evs as [|e evs IH]; [reflexivity |].
  change (e :: evs) with ([e] ++ evs).
  rewrite ledger_app, !omap_app, <- IH. now destruct e.
Qed.

Lemma reports_app evs1 evs2 : reports (evs1 ++ evs2) = reports evs1 ++ reports evs2.
Proof. unfold reports. apply omap_app. Qed.

(** The producer goroutine calls neither the police nor the read
    strategy. *)
Lemma runProducer_quiet patience : forall w,
  adds quiet w (runProducer f perm patience w).2.
Proof.
  induction patience as [|k IH]; intros w; [apply adds_refl |].
  rewrite runProducer_S. cbv zeta.
  destruct (stream (producer w)); [| apply adds_refl].
  destruct (todo (producer w)) as [|i rest].
  - eapply adds_trans; [| apply IH].
    destruct (anythingSent (producer w)).
    + now apply (adds_events _ _ _ [Instr KeysFarmCompleted]).
    + apply (adds_events _ _ _ [Instr KeysFarmCompleted; Sleep]);
        [simpl; now rewrite <- app_assoc | reflexivity].
  - destruct (clusters f !! i) as [c|]; (eapply adds_trans; [| apply IH]).
    + now apply (adds_events _ _ _ [ClusterKeys (cluster.name c)]).
    + apply (adds_events _ _ _ []); [simpl; now rewrite app_nil_r | reflexivity].
Qed.

Lemma receiveKey_quiet patience w :
  adds quiet w (receiveKey f perm patience w).2.
Proof.
  rewrite receiveKey_eq.
  destruct (stream (producer w)); [apply adds_refl |]. simpl.
  match goal with |- context [runProducer f perm patience ?w1] =>
    destruct (runProducer_quiet patience w1) as (evs & Hh & Hq)
  end.
  now exists evs.
Qed.

Lemma pull_quiet patience n : forall keys w,
  adds quiet w (pull f perm patience n keys w).2.
Proof.
  induction n as [|n IH]; intros keys w; [apply adds_refl |].
  rewrite pull_S. pose proof (receiveKey_quiet patience w) as Hr.
  destruct (receiveKey f perm patience w) as [[key|] w1]; [| exact Hr].
  eapply adds_trans; [exact Hr | apply IH].
Qed.

Lemma forwardCompletion_quiet w : adds quiet w (forwardCompletion f w).2.
Proof.
  unfold forwardCompletion.
  destruct (walkCompleted f) as [ch|]; [| apply adds_refl].
  unfold bind, getSignal. destruct (signal w); [| apply adds_refl].
  simpl. destruct (ready ch (history w)).
  - now apply (adds_events _ _ _ [WalkCompleted]).
  - apply (adds_events _ _ _ []); [simpl; now rewrite app_nil_r | reflexivity].
Qed.

Lemma Select_eq keys offset limit w :
  Select f keys offset limit w =
  match keys with
  | [] => (Returns (Some ∅, None), w)
  | _ :: _ =>
      match readStrategy f with
      | Some strategy =>
          (Returns (strategy keys offset limit),
           {| history := (history w ++ [Report (len keys)])
                           ++ [Read keys offset limit];
              producer := producer w;
              signal := signal w |})
      | None =>
          (Panics "invalid memory address or nil pointer dereference",
           {| history := history w ++ [Report (len keys)];
              producer := producer w;
              signal := signal w |})
      end
  end.
Proof.
  destruct keys as [|key keys]; [reflexivity |].
  unfold Select. rewrite len_pos by discriminate.
  unfold bind, policeReport, emit, ret.
  destruct (readStrategy f); reflexivity.
Qed.

(** One iteration of the driver: its [Request], and then what its
    outcome books. *)
Lemma driverStep_ledger patience rate w s w' :
  driverStep f perm patience rate w = (s, w') ->
  exists evs entries,
    history w' = history w ++ evs
    /\ ledger evs =
       Request rate (grant (ratePolice f) (history w) rate) :: entries
    /\ booking rate s (grant (ratePolice f) (history w) rate) entries
    /\ forall msg, s = Crashed msg -> readStrategy f = None.
Proof.
  rewrite driverStep_eq. cbv zeta.
  set (g := grant (ratePolice f) (history w) rate).
  destruct (Z.leb_spec g 0) as [Hg | Hg].
  - intros [= <- <-].
    exists [Request rate g; Instr KeysThrottled; Sleep], [].
    split; [simpl; now rewrite <- !app_assoc |]. split; [reflexivity |].
    split; [now split | discriminate].
  - set (w1 := {| history := history w ++ [Request rate g];
                  producer := producer w;
                  signal := signal w |}).
    set (B := Z.to_nat (capBatch rate g)).
    destruct (pull_quiet patience B [] w1) as (e2 & He2 & Hq2).
    pose proof (pull_length f perm patience B [] w1) as Hlen.
    destruct (pull f perm patience B [] w1) as [[keys|] w2].
    + specialize (Hlen keys eq_refl). simpl in Hlen, He2.
      assert (Hle : len keys <= g).
      { unfold len. rewrite Hlen. subst B.
        pose proof (capBatch_le_grant rate g). lia. }
      apply quiet_ledger in Hq2.
      destruct (forwardCompletion_quiet w2) as (e3 & He3 & Hq3).
      rewrite Select_eq. destruct keys as [|key keys].
      * intros [= <- <-]. exists ([Request rate g] ++ e2 ++ e3), [].
        split; [now rewrite He3, He2, <- !app_assoc |].
        apply quiet_ledger in Hq3.
        split; [now rewrite !ledger_app, Hq2, Hq3 |].
        split; [| discriminate]. repeat split; assumption.
      * destruct (readStrategy f) as [strategy|].
        -- match goal with |- context [forwardCompletion f ?w3] =>
             destruct (forwardCompletion_quiet w3) as (e4 & He4 & Hq4)
           end.
           intros [= <- <-]. apply quiet_ledger in Hq4.
           exists ([Request rate g] ++ e2
                     ++ [Report (len (key :: keys));
                         Read (key :: keys) 0 MaxInt] ++ e4),
                  [Report (len (key :: keys)); Read (key :: keys) 0 MaxInt].
           split; [rewrite He4; simpl history; rewrite He2;
                   now rewrite <- !app_assoc |].
           split; [rewrite !ledger_app, Hq2, Hq4; reflexivity |].
           split; [| discriminate]. repeat split; assumption.
        -- intros [= <- <-].
           exists ([Request rate g] ++ e2 ++ [Report (len (key :: keys))]),
                  [Report (len (key :: keys))].
           split; [simpl history; rewrite He2; now rewrite <- !app_assoc |].
           split; [rewrite !ledger_app, Hq2; reflexivity |].
           split; [| reflexivity].
           split; [exact Hg |]. exists (key :: keys).
           split; [discriminate |]. repeat split; assumption.
    + simpl in He2. intros [= <- <-]. exists ([Request rate g] ++ e2), [].
      split; [now rewrite He2, <- app_assoc |].
      apply quiet_ledger in Hq2.
      split; [now rewrite ledger_app, Hq2 |].
      split; [now split | discriminate].
Qed.

Lemma drive_booked patience rate fuel : forall w,
  exists evs,
    history (drive f perm patience rate fuel w).2 = history w ++ evs
    /\ booked rate (drive f perm patience rate fuel w).1 (ledger evs)
    /\ (readStrategy f <> None ->
        forall msg, ~ In (Crashed msg) (drive f perm patience rate fuel w).1).
Proof.
  induction fuel as [|n IH]; intros w.
  - exists []. split; [simpl; now rewrite app_nil_r |].
    split; [reflexivity | intros _ msg []].
  - rewrite drive_S.
    destruct (driverStep f perm patience rate w) as [s w0] eqn:Hstep.
    destruct (driverStep_ledger _ _ _ _ _ Hstep)
      as (evs0 & entries & Hh0 & Hl0 & Hb0 & Hcrash).
    destruct (IH w0) as (evs1 & Hh1 & Hb1 & Hc1).
    destruct (drive f perm patience rate n w0) as [rest w1].
    simpl in Hh1, Hb1, Hc1.
    assert (Hlast : exists evs,
              history w0 = history w ++ evs
              /\ booked rate [s] (ledger evs)
              /\ (readStrategy f <> None -> forall msg, ~ In (Crashed msg) [s])).
    { exists evs0. split; [exact Hh0 |]. split.
      - exists (grant (ratePolice f) (history w) rate), entries, [].
        rewrite app_nil_r.
        split; [exact Hl0 | split; [exact Hb0 | reflexivity]].
      - intros Hrs msg [Hs | []]. apply Hrs. now apply (Hcrash msg). }
    assert (Hmore : exists evs,
              history w1 = history w ++ evs
              /\ booked rate (s :: rest) (ledger evs)
              /\ (readStrategy f <> None ->
                  forall msg, ~ In (Crashed msg) (s :: rest))).
    { exists (evs0 ++ evs1). split; [now rewrite Hh1, Hh0, app_assoc |]. split.
      - exists (grant (ratePolice f) (history w) rate), entries, (ledger evs1).
        rewrite ledger_app, Hl0.
        split; [reflexivity | split; [exact Hb0 | exact Hb1]].
      - intros Hrs msg [Hs | Hin]; [apply Hrs; now apply (Hcrash msg) |].
        now apply (Hc1 Hrs msg). }
    destruct s; simpl; assumption.
Qed.

Lemma startWalker_booked patience rate fuel w :
  let steps := (startWalker f perm patience rate fuel w).1 in
  let evs := since w (startWalker f perm patience rate fuel w).2 in
  history (startWalker f perm patience rate fuel w).2 = history w ++ evs
  /\ booked rate steps (ledger evs)
  /\ (readStrategy f <> None -> forall msg, ~ In (Crashed msg) steps).
Proof.
  cbv zeta. destruct (Z.eq_dec rate 0) as [-> | Hne].
  - unfold startWalker. simpl.
    rewrite (since_extends w w []) by now rewrite app_nil_r.
    split; [now rewrite app_nil_r |]. split; [reflexivity | intros _ msg []].
  - rewrite (startWalker_nonzero _ _ _ _ _ _ Hne).
    match goal with |- context [runProducer f perm patience ?w0] =>
      set (w1 := w0)
    end.
    destruct (runProducer_quiet patience w1) as (evs0 & Hh0 & Hq0).
    destruct (drive_booked patience rate fuel
                (runProducer f perm patience w1).2) as (evs1 & Hh1 & Hb1 & Hc1).
    change (history w1) with (history w) in Hh0.
    assert (Hh : history (drive f perm patience rate fuel
                            (runProducer f perm patience w1).2).2
                 = history w ++ (evs0 ++ evs1))
      by now rewrite Hh1, Hh0, app_assoc.
    rewrite (since_extends _ _ _ Hh). split; [exact Hh |].
    apply quiet_ledger in Hq0. rewrite ledger_app, Hq0. simpl.
    split; assumption.
Qed.

Lemma booked_reports rate steps : forall l,
  booked rate steps l -> (forall msg, ~ In (Crashed msg) steps) ->
  reports l = map len (batches steps).
Proof.
  induction steps as [|s steps IH]; intros l Hb Hc; simpl in Hb.
  - now subst l.
  - destruct Hb as (g & entries & l' & -> & Hbook & Hrest).
    assert (IH' : reports l' = map len (batches steps)).
    { apply IH; [exact Hrest |]. intros msg Hin. apply (Hc msg). now right. }
    change (Request rate g :: entries ++ l')
      with ([Request rate g] ++ entries ++ l').
    rewrite !reports_app, IH'. unfold batches. simpl.
    destruct s as [| [|key keys] | | msg]; simpl in Hbook.
    + destruct Hbook as [_ ->]. reflexivity.
    + destruct Hbook as (_ & _ & _ & ->). reflexivity.
    + destruct Hbook as (_ & _ & _ & ->). reflexivity.
    + destruct Hbook as [_ ->]. reflexivity.
    + exfalso. apply (Hc msg). now left.
Qed.


Hypothesis grant_is_int : forall h rate, grant (ratePolice f) h rate <= MaxInt.



End Ledger.




(** C10, as the code has it.  The calls the walker makes on the police
    and on the read strategy are, iteration by iteration: the Request of
    the iteration and then, for a batch of b > 0 keys, Report(b) and the
    call of the read strategy with that batch, b being at most what the
    Request granted; an iteration with an empty batch makes no call
    after its Request.  So with a bound read strategy the Report calls of
    the walker are exactly the sizes of its batches that are not empty,
    one for each and in order (the key producer calls neither the
    police nor the read strategy, so this does not depend on how the two
    goroutines take turns).  With 0 < walkerRate and 10 x walkerRate an
    [int] no batch is empty. *)
Theorem walker_batch_reported (f : Farm) (perm : nat -> list nat)
    (patience : nat) (walkerRate : Z) (fuel : nat) (w : World) :
  let steps := (startWalker f perm patience walkerRate fuel w).1 in
  let evs := since w (startWalker f perm patience walkerRate fuel w).2 in
  booked walkerRate steps (ledger evs)
  /\ (readStrategy f <> None -> reports evs = map len (batches steps))
  /\ (0 < walkerRate -> 10 * walkerRate <= MaxInt ->
      forall keys, In (Selected keys) steps -> keys <> []).
Proof.
  intros steps evs. subst steps evs.
  destruct (startWalker_booked f perm patience walkerRate fuel w)
    as (_ & Hbooked & Hcrash).
  split; [exact Hbooked |]. split.
  - intros Hrs. rewrite reports_ledger.
    apply (booked_reports walkerRate _ _ Hbooked (Hcrash Hrs)).
  - intros Hrate Hfit keys Hin ->.
    destruct (startWalker_selected _ _ _ _ _ _ _ Hin)
      as (w1 & w2 & _ & Hstep & _).
    apply driverStep_selected in Hstep as (Hg & Hlen & _).
    simpl in Hlen.
    pose proof (capBatch_pos walkerRate _ Hrate Hfit Hg). lia.
Qed.

Lemma walker_batch_reported_witness :
  reports (since Sample.world0
             (startWalker Sample.farm Sample.always0 3 2 3 Sample.world0).2)
  = map len
      (batches (startWalker Sample.farm Sample.always0 3 2 3 Sample.world0).1).
Proof.
  refine (proj1 (proj2 (walker_batch_reported Sample.farm Sample.always0 3 2 3
                          Sample.world0)) _).
  discriminate.
Defined.

(** walkerRate = -1 and a grant of 5: the batch is empty, Select
    returns before Report, and the batch is not reported. *)
Lemma walker_unreported_counterexample :
  In (Selected [])
     (startWalker Edge.farm Sample.always0 3 (-1) 1 Sample.world0).1
  /\ ~ In (Report (len ([] : list string)))
         (history
            (startWalker Edge.farm Sample.always0 3 (-1) 1 Sample.world0).2).
Proof.
  split; [vm_compute; left; reflexivity |].
  vm_compute. intros H. repeat (destruct H as [H | H]; [discriminate H |]).
  exact H.
Qed.

(** ** Construction, then reads *)

(** X17.  [New] followed by [Select].  The farm [New] returns has the
    clusters, the quorum and the completion channel it was given, the
    police and the instrumentation it was given or else the no-op ones;
    its read strategy is the factory [rs] bound to a farm with these
    fields, and its repairer is the given factory, or else the no-op one,
    bound likewise.  [Select] on that farm, for a list of keys that is
    not empty, returns what [rs] so bound returns, map and error alike. *)
Theorem New_then_Select (cs : list Cluster) (quorum : Z) (rs : ReadStrategy)
    (rep : option Repairer) (walkerRate : Z) (wc : option chan)
    (rp : option RatePolice) (ins : option Instrumentation)
    (perm : nat -> list nat) (patience fuel : nat) (w : World) :
  let police := match rp with None => NewNoPolice | Some p => p end in
  let sink := match ins with None => NopInstrumentation | Some i => i end in
  let factory := match rep with None => NopRepairer | Some r => r end in
  exists farm seenByStrategy seenByRepairer,
    (New cs quorum (Some rs) rep walkerRate wc rp ins perm patience fuel w).1
    = Returns farm
    /\ builtFrom cs quorum wc police sink farm
    /\ builtFrom cs quorum wc police sink seenByStrategy
    /\ builtFrom cs quorum wc police sink seenByRepairer
    /\ readStrategy farm = Some (rs seenByStrategy)
    /\ repairer farm = Some (factory seenByRepairer)
    /\ forall key keys offset limit w',
         (Select farm (key :: keys) offset limit w').1 =
         Returns (rs seenByStrategy (key :: keys) offset limit).
Proof.
  cbv zeta.
  set (police := match rp with None => NewNoPolice | Some p => p end).
  set (sink := match ins with None => NopInstrumentation | Some i => i end).
  set (factory := match rep with None => NopRepairer | Some r => r end).
  set (farm0 := Build_Farm cs quorum None None wc police sink).
  set (farm1 := Build_Farm cs quorum (Some (rs farm0)) None wc police sink).
  exists (Build_Farm cs quorum (Some (rs farm0)) (Some (factory farm1)) wc
            police sink), farm0, farm1.
  unfold New, bind. fold police sink factory farm0 farm1.
  destruct (startWalker _ _ _ _ _ _) as [steps w1].
  split; [reflexivity |].
  split; [repeat split |]. split; [repeat split |]. split; [repeat split |].
  split; [reflexivity |]. split; [reflexivity |].
  intros key keys offset limit w'. now rewrite Select_eq.
Qed.
